(** * darch: image definitions, dependency validation, build and extraction

    A shallow embedding of [images/images.go] (package [images]) and of the
    containerd based [Session.ExtractImage] (package [repository]), with the
    properties of the design document stated over it.

    Conventions.
    - A Go [error] value is an [option error]: [None] is [nil].
    - A Go [(T, error)] result is a [result T].
    - A Go [map[string]T] is a [gmap string T]; a [nil] map argument is
      [None : option (gmap string T)].
    - [verifyDependencies] is recursive without a syntactic bound, so its
      embedding carries a [fuel] that counts invocations; [None] as outer
      result means that the given number of invocations did not suffice. *)

From stdpp Require Import gmap strings list fin_maps relations.

#[local] Set Warnings "-register-all".

(** ** Computations with effects

    A Go function that acts on the outside world is a function from the
    state of that world to its result, the state afterwards and the events it
    added to the history, oldest first. *)
Definition Run (S E A : Type) : Type := S → A * S * list E.

Definition ret {S E A} (a : A) : Run S E A := λ s, (a, s, []).

Definition bind {S E A A'} (m : Run S E A) (k : A → Run S E A') : Run S E A' :=
  λ s, let '(a, s1, evs1) := m s in
       let '(a', s2, evs2) := k a s1 in
       (a', s2, evs1 ++ evs2).

Notation "'do' x <- m 'in' k" := (bind m (λ x, k))
  (at level 10, x name, m at level 100, k at level 200,
   format "'[v' 'do'  x  <-  m  'in'  '/' k ']'").

Definition emit {S E} (ev : E) : Run S E unit := λ s, (tt, s, [ev]).

(** [defer cleanup()] placed before [body]: the cleanup runs when [body]
    returns, whatever it returns, and its own result is dropped. *)
Definition defer {S E A C} (cleanup : Run S E C) (body : Run S E A) : Run S E A :=
  do r <- body in
  do _u <- cleanup in
  ret r.

(** The result, the final state and the history of a run. *)
Definition result_of {S E A} (r : A * S * list E) : A := r.1.1.
Definition state_of {S E A} (r : A * S * list E) : S := r.1.2.
Definition events_of {S E A} (r : A * S * list E) : list E := r.2.

Module Images.

(** ** Errors *)

(** One constructor per [fmt.Errorf] site of [images.go]; [ErrExternal]
    stands for the errors handed back by [os], [encoding/json] and
    [os/exec]. *)
Inductive error : Type :=
  | ErrImageRequired
  | ErrImagesDirRequired
  | ErrImageDirMissing (imageDir : string)
  | ErrNoConfiguration (configPath : string)
  | ErrNoInherit (imageName : string)
  | ErrCyclical (imageName : string)
  | ErrMissingParent (imageName inherits : string)
  | ErrExternal (msg : string).

#[global] Instance error_eq_dec : EqDecision error.
Proof. solve_decision. Defined.

(** The text of the error, as [fmt.Errorf] formats it. *)
Definition Error (e : error) : string :=
  match e with
  | ErrImageRequired => "An image must be provided"
  | ErrImagesDirRequired => "An image directory must be provided"
  | ErrImageDirMissing d => "Image directory " +:+ d +:+ " doesn't exist"
  | ErrNoConfiguration p => "No configuration file exists at " +:+ p
  | ErrNoInherit n => "No inherit property given for image " +:+ n
  | ErrCyclical n => "Image " +:+ n +:+ " has a cyclical dependency"
  | ErrMissingParent n p =>
      "Image defintion " +:+ n +:+ " inherits from " +:+ p +:+ ", which doesn't exist"
  | ErrExternal msg => msg
  end.

Inductive result (A : Type) : Type :=
  | Ok (a : A)
  | Err (e : error).
Arguments Ok {A} a.
Arguments Err {A} e.

(** ** Data model *)

Record ImageDefinition : Type := mkImageDefinition {
  Name : string;
  ImageDir : string;
  ImagesDir : string;
  Inherits : string
}.

Record imageConfiguration : Type := mkImageConfiguration {
  cfg_Inherits : string
}.

#[global] Instance ImageDefinition_eq_dec : EqDecision ImageDefinition.
Proof. solve_decision. Defined.

(** [strings.HasPrefix s prefix] *)
Definition HasPrefix (s prefix : string) : bool := String.prefix prefix s.

(** [len(s) == 0] *)
Definition is_empty (s : string) : bool :=
  match s with EmptyString => true | String _ _ => false end.

(** [s[n:len(s)]] *)
Fixpoint string_drop (n : nat) (s : string) : string :=
  match n, s with
  | 0, _ => s
  | S n, String _ s => string_drop n s
  | S _, EmptyString => EmptyString
  end.

(** ** Dependency validation *)

Fixpoint verifyDependencies (fuel : nat) (imageDefinition : ImageDefinition)
    (imageDefinitions : gmap string ImageDefinition)
    (currentStack : option (gmap string bool)) : option (option error) :=
  match fuel with
  | 0 => None
  | S fuel =>
      let currentStack := default ∅ currentStack in
      if HasPrefix (Inherits imageDefinition) "external:" then
        (* we reached the end, all good! *)
        Some None
      else if decide (is_Some (currentStack !! Inherits imageDefinition)) then
        (* Cyclical dependency detected! *)
        Some (Some (ErrCyclical (Name imageDefinition)))
      else
        (* Make this image as having been traversed. *)
        let currentStack := <[Name imageDefinition := true]> currentStack in
        match imageDefinitions !! Inherits imageDefinition with
        | Some parent =>
            verifyDependencies fuel parent imageDefinitions (Some currentStack)
        | None =>
            Some (Some (ErrMissingParent (Name imageDefinition)
                                         (Inherits imageDefinition)))
        end
  end.

(** The second loop of [BuildAllDefinitions]: the definitions are visited in
    the order [range] yields them and the first error is returned. *)
Fixpoint verifyAll (fuel : nat) (order : list (string * ImageDefinition))
    (imageDefinitions : gmap string ImageDefinition) : option (option error) :=
  match order with
  | [] => Some None
  | (_, imageDefinition) :: order =>
      match verifyDependencies fuel imageDefinition imageDefinitions None with
      | None => None
      | Some (Some err) => Some (Some err)
      | Some None => verifyAll fuel order imageDefinitions
      end
  end.

(** ** The inheritance graph of a definition set *)

Definition is_external (inherits : string) : bool := HasPrefix inherits "external:".

(** A definition set as [BuildAllDefinitions] builds it: every definition
    sits under its own name. *)
Definition well_keyed (imageDefinitions : gmap string ImageDefinition) : Prop :=
  map_Forall (λ k d, Name d = k) imageDefinitions.

(** [a] inherits from [b]: the definition named [a] names [b] as its parent
    and does not mark it external. *)
Definition inherits_from (imageDefinitions : gmap string ImageDefinition)
    (a b : string) : Prop :=
  ∃ d, imageDefinitions !! a = Some d
       ∧ is_external (Inherits d) = false ∧ Inherits d = b.

(** No image is its own ancestor. *)
Definition acyclic (imageDefinitions : gmap string ImageDefinition) : Prop :=
  ∀ a, ¬ tc (inherits_from imageDefinitions) a a.

(** Every parent that is not external is a definition of the set. *)
Definition resolvable (imageDefinitions : gmap string ImageDefinition) : Prop :=
  map_Forall (λ _ d, is_external (Inherits d) = false →
                     is_Some (imageDefinitions !! Inherits d))
             imageDefinitions.

(** Following the parents from [a] one comes to an image that is its own
    ancestor. *)
Definition leads_to_cycle (imageDefinitions : gmap string ImageDefinition)
    (a : string) : Prop :=
  ∃ b, rtc (inherits_from imageDefinitions) a b
       ∧ tc (inherits_from imageDefinitions) b b.

(** What an error of the validation says is true of the graph: a cyclical
    dependency is reported at an image on a cycle, a missing parent at an
    image whose parent is not marked external and is no definition of the
    set, and either image is the start of the walk or one of its
    ancestors. *)
Definition error_holds (defs : gmap string ImageDefinition) (start : string)
    (e : error) : Prop :=
  match e with
  | ErrCyclical n =>
      rtc (inherits_from defs) start n ∧ tc (inherits_from defs) n n
  | ErrMissingParent n p =>
      rtc (inherits_from defs) start n
      ∧ inherits_from defs n p ∧ defs !! p = None
  | _ => False
  end.

(** ** Reading definitions from disk *)

Section Definitions.

(** The helpers of package [utils] and of the Go library that
    [BuildDefinition] reads the disk through.  Nothing is written while
    definitions are loaded, so they are functions of their arguments. *)
Variable ExpandPath : string → string.
Variable path_Join : string → string → string.
Variable DirectoryExists : string → bool.
Variable FileExists : string → bool.
Variable GetChildDirectories : string → result (list string).
Variable ReadFile : string → result string.

(** [encoding/json]: decode [data] as an object and read the string under
    [key]; [Err] for data that does not decode, [Ok None] for a missing
    key. *)
Variable json_field : string → string → result (option string).

(** Go's [range] over a map yields its entries in an unspecified order. *)
Variable range : gmap string ImageDefinition → list (string * ImageDefinition).

(** [json.Unmarshal(data, &cfg)]: a key absent from the data leaves the
    field of the struct as it was. *)
Definition json_Unmarshal (data : string) (cfg : imageConfiguration)
    : result imageConfiguration :=
  match json_field data "inherits" with
  | Err e => Err e
  | Ok None => Ok cfg
  | Ok (Some v) => Ok {| cfg_Inherits := v |}
  end.

Definition loadImageConfiguration (image : ImageDefinition)
    : result imageConfiguration :=
  let imageConfigurationPath := path_Join (ImageDir image) "config.json" in
  let imageConfiguration := {| cfg_Inherits := EmptyString |} in
  if negb (FileExists imageConfigurationPath) then
    Err (ErrNoConfiguration imageConfigurationPath)
  else
    match ReadFile imageConfigurationPath with
    | Err err => Err err
    | Ok jsonData =>
        match json_Unmarshal jsonData imageConfiguration with
        | Err err => Err err
        | Ok imageConfiguration =>
            if is_empty (cfg_Inherits imageConfiguration) then
              Err (ErrNoInherit (Name image))
            else Ok imageConfiguration
        end
    end.

Definition BuildDefinition (imageName imagesDir : string)
    : result ImageDefinition :=
  if is_empty imageName then Err ErrImageRequired
  else if is_empty imagesDir then Err ErrImagesDirRequired
  else
    let image_ImagesDir := ExpandPath imagesDir in
    let image_ImageDir := path_Join image_ImagesDir imageName in
    let image := {| Name := imageName; ImageDir := image_ImageDir;
                    ImagesDir := image_ImagesDir; Inherits := EmptyString |} in
    if negb (DirectoryExists image_ImageDir) then
      Err (ErrImageDirMissing image_ImageDir)
    else
      match loadImageConfiguration image with
      | Err err => Err err
      | Ok imageConfiguration =>
          Ok {| Name := imageName; ImageDir := image_ImageDir;
                ImagesDir := image_ImagesDir;
                Inherits := cfg_Inherits imageConfiguration |}
      end.

(** The first loop of [BuildAllDefinitions]. *)
Fixpoint loadDefinitions (imageNames : list string) (imagesDir : string)
    (imageDefinitions : gmap string ImageDefinition)
    : result (gmap string ImageDefinition) :=
  match imageNames with
  | [] => Ok imageDefinitions
  | imageName :: imageNames =>
      match BuildDefinition imageName imagesDir with
      | Err err => Err err
      | Ok imageDefinition =>
          loadDefinitions imageNames imagesDir
            (<[imageName := imageDefinition]> imageDefinitions)
      end
  end.

Definition BuildAllDefinitions (fuel : nat) (imagesDir : string)
    : option (result (gmap string ImageDefinition)) :=
  if is_empty imagesDir then Some (Err ErrImagesDirRequired)
  else
    match GetChildDirectories imagesDir with
    | Err err => Some (Err err)
    | Ok imageNames =>
        match loadDefinitions imageNames imagesDir ∅ with
        | Err err => Some (Err err)
        | Ok imageDefinitions =>
            (* verify dependencies are satisfied and no circular dependencies *)
            match verifyAll fuel (range imageDefinitions) imageDefinitions with
            | None => None
            | Some (Some err) => Some (Err err)
            | Some None => Some (Ok imageDefinitions)
            end
        end
    end.

End Definitions.

(** ** The host and the docker command line *)

(** What a run of [BuildImageLayer] or [ExtractImage] leaves behind, in the
    order it happens.  [EvDestroy] marks an entry into [destroyContainer];
    [EvWrite] is a file that [docker cp] wrote on the host. *)
Inductive event : Type :=
  | EvMkdirAll (path : string) (res : option error)
  | EvCleanDirectory (path : string) (res : option error)
  | EvRun (program : string) (args : list string) (res : option error)
  | EvWrite (path : string) (content : string)
  | EvDestroy (containerName : string).

#[global] Instance event_eq_dec : EqDecision event.
Proof. solve_decision. Defined.

(** The host as these functions see it: the files (path to content) and the
    directories of its file system, and [backend], everything else that
    decides how a command ends (the docker daemon, its containers and
    images, the conditions under which a system call fails). *)
Record World (B : Type) : Type := mkWorld {
  files : gmap string string;
  dirs : gset string;
  backend : B
}.
Arguments mkWorld {B} files dirs backend.
Arguments files {B} w.
Arguments dirs {B} w.
Arguments backend {B} w.

(** A computation on the host. *)
Abbreviation M B := (Run (World B) event).

(** The characters ["/"] and the double quote. *)
Definition slash : Ascii.ascii := Ascii.Ascii true true true true false true false false.
Definition dquote : string :=
  String (Ascii.Ascii false true false false false true false false) EmptyString.

(** [strings.Replace] of every ["/"] by the empty string. *)
Fixpoint remove_slashes (s : string) : string :=
  match s with
  | EmptyString => EmptyString
  | String c s =>
      if Ascii.eqb c slash then remove_slashes s
      else String c (remove_slashes s)
  end.

(** A path below a directory: the path of the directory, a separator, and
    more. *)
Definition inside_dir (dir path : string) : bool := HasPrefix path (dir +:+ "/").

(** Whether a string holds a ["/"]. *)
Fixpoint contains_slash (s : string) : bool :=
  match s with
  | EmptyString => false
  | String c s => Ascii.eqb c slash || contains_slash s
  end.

(** The name of the container a build runs in (line 140). *)
Definition BuildImageLayer_tmpImageName (imageDefinition : ImageDefinition) : string :=
  "darch-building-" +:+ Name imageDefinition.

(** The name of the container an extraction runs in (line 232). *)
Definition ExtractImage_tmpImageName (name : string) : string :=
  "darch-extracting-" +:+ remove_slashes name.

(** *** The directories on the way to a path *)

Definition is_separator (c : Ascii.ascii) : bool := Ascii.eqb c slash.

Fixpoint drop_while {A} (f : A → bool) (l : list A) : list A :=
  match l with
  | [] => []
  | x :: l' => if f x then drop_while f l' else l
  end.

(** The parent that [os.MkdirAll] makes sure of before it makes [path]: it
    skips the trailing separators of [path], scans backward over the last
    element to its start [j], and recurses on [path[:j-1]] when [j > 1].
    The characters of the path are read last one first. *)
Definition parent_dir (path : string) : option string :=
  let upto_j :=
    drop_while (λ c, negb (is_separator c))
      (drop_while is_separator (reverse (String.list_ascii_of_string path))) in
  match upto_j with
  | _ :: ((_ :: _) as parent) => Some (String.string_of_list_ascii (reverse parent))
  | _ => None
  end.

(** The parents of a path, the nearest first.  A parent is shorter than its
    path, so the length of the path bounds their number. *)
Fixpoint ancestors_upto (n : nat) (path : string) : list string :=
  match n with
  | 0 => []
  | S n =>
      match parent_dir path with
      | Some parent => parent :: ancestors_upto n parent
      | None => []
      end
  end.

Definition ancestors (path : string) : list string :=
  ancestors_upto (String.length path) path.

(** The directories [os.MkdirAll] has to make: it goes up from the path and
    stops at the first directory that exists. *)
Fixpoint absent_prefix (existing : gset string) (chain : list string) : list string :=
  match chain with
  | [] => []
  | d :: chain =>
      if bool_decide (d ∈ existing) then [] else d :: absent_prefix existing chain
  end.

Section Docker.

Context {B : Type}.

(** [cmd.Run()] for every command but [docker cp]. *)
Variable exec_Run : string → list string → B → option error * B.
(** [docker cp container:path dst]: the content read out of the container,
    or the error. *)
Variable docker_cp : string → B → result string * B.
(** Whether [os.Mkdir], which [os.MkdirAll] calls on every directory it has
    to make, fails on a path; and whether [utils.CleanDirectory] does. *)
Variable MkdirAll_fault : string → B → option error * B.
Variable CleanDirectory_fault : string → B → option error * B.
(** Whether a path lies inside a directory. *)
Variable inside : string → string → bool.
Variable path_Join : string → string → string.
(** Go's [range] over the environment variables. *)
Variable range_env : gmap string string → list (string * string).

(** Modelled from the spec: [utils.DirectoryExists], the predicate of the
    file system copy utility, which package [utils] (not among the
    sources) defines. *)
Definition DirectoryExists (path : string) : M B bool :=
  λ w, (bool_decide (path ∈ dirs w), w, []).

(** The calls of [os.Mkdir] in [os.MkdirAll], outermost directory first: the
    first one that fails ends them, and what was made before it stays. *)
Fixpoint mkdirs (todo : list string) (made : gset string) (b : B)
    : option error * gset string * B :=
  match todo with
  | [] => (None, made, b)
  | d :: todo =>
      match MkdirAll_fault d b with
      | (Some err, b) => (Some err, made, b)
      | (None, b) => mkdirs todo ({[d]} ∪ made) b
      end
  end.

(** [os.MkdirAll(path, os.ModePerm)] of the Go library: nothing to do when
    the path is a directory; otherwise the parents that are missing are made,
    from the outermost down, and then the path itself. *)
Definition MkdirAll (path : string) : M B (option error) :=
  λ w, let todo := reverse (absent_prefix (dirs w) (path :: ancestors path)) in
       let '(res, made, b) := mkdirs todo (dirs w) (backend w) in
       (res, mkWorld (files w) made b, [EvMkdirAll path res]).

(** Modelled from the spec: [utils.CleanDirectory], "removing all contents
    without removing the directory itself"; package [utils] is not among
    the sources. *)
Definition CleanDirectory (path : string) : M B (option error) :=
  λ w, match CleanDirectory_fault path (backend w) with
       | (Some err, b) =>
           (Some err, mkWorld (files w) (dirs w) b,
            [EvCleanDirectory path (Some err)])
       | (None, b) =>
           (None,
            mkWorld (filter (λ kv, inside path kv.1 = false) (files w))
                    (filter (λ d, d = path ∨ inside path d = false) (dirs w)) b,
            [EvCleanDirectory path None])
       end.

Definition runCommand (program : string) (args : list string) : M B (option error) :=
  λ w, match args with
       | [sub; src; dst] =>
           if decide (program = "docker" ∧ sub = "cp") then
             match docker_cp src (backend w) with
             | (Err err, b) =>
                 (Some err, mkWorld (files w) (dirs w) b,
                  [EvRun program args (Some err)])
             | (Ok content, b) =>
                 (None, mkWorld (<[dst := content]> (files w)) (dirs w) b,
                  [EvWrite dst content; EvRun program args None])
             end
           else
             let '(res, b) := exec_Run program args (backend w) in
             (res, mkWorld (files w) (dirs w) b, [EvRun program args res])
       | _ =>
           let '(res, b) := exec_Run program args (backend w) in
           (res, mkWorld (files w) (dirs w) b, [EvRun program args res])
       end.

Definition destroyContainer (containerName : string) : M B (option error) :=
  do _u <- emit (EvDestroy containerName) in
  do err <- runCommand "docker" ["stop"; containerName] in
  match err with
  | Some _ => ret err
  | None =>
      do err <- runCommand "docker" ["rm"; containerName] in
      match err with
      | Some _ => ret err
      | None => ret None
      end
  end.

(** [if !utils.DirectoryExists(path) { err := os.MkdirAll(path, os.ModePerm);
    if err != nil { return err } }], with [k] the rest of the function. *)
Definition ensure_dir (path : string) (k : M B (option error)) : M B (option error) :=
  do exists_ <- DirectoryExists path in
  if exists_ then k
  else
    do err <- MkdirAll path in
    match err with
    | Some _ => ret err
    | None => k
    end.

(** [err = runCommand(...); if err != nil { destroyContainer(name); return err }],
    the shape of every step once the container runs: [k] is the rest of
    the function. *)
Definition step (tmpImageName : string) (args : list string)
    (k : M B (option error)) : M B (option error) :=
  do err <- runCommand "docker" args in
  match err with
  | Some _ => do _u <- destroyContainer tmpImageName in ret err
  | None => k
  end.

(** The outcomes of a chain of steps that ends in [k]: every command
    succeeds and [k] takes over, or a command fails, the container is
    destroyed and the error of the command is returned. *)
Inductive chain (tmpImageName : string) (k : M B (option error))
    : list (list string) → World B → option error * World B * list event → Prop :=
  | chain_end w :
      chain tmpImageName k [] w (k w)
  | chain_next args steps w out :
      result_of (runCommand "docker" args w) = None →
      chain tmpImageName k steps (state_of (runCommand "docker" args w)) out →
      chain tmpImageName k (args :: steps) w
        (result_of out, state_of out,
         events_of (runCommand "docker" args w) ++ events_of out)
  | chain_abort args steps w err :
      let failed := runCommand "docker" args w in
      let cleanup := destroyContainer tmpImageName (state_of failed) in
      result_of failed = Some err →
      chain tmpImageName k (args :: steps) w
        (Some err, state_of cleanup, events_of failed ++ events_of cleanup).

(** The loop over [environmentVariables] (lines 187-190). *)
Fixpoint env_arguements (vars : list (string * string)) : list string :=
  match vars with
  | [] => []
  | (environmentVariableName, environmentVariableValue) :: vars =>
      "-e" :: (environmentVariableName +:+ "=" +:+ environmentVariableValue)
           :: env_arguements vars
  end.

(** The loop over [tags] (lines 219-225); [k] is what follows the loop. *)
Fixpoint tag_loop (imageDefinition : ImageDefinition) (buildPrefix : string)
    (tmpImageName : string) (tags : list string)
    (k : M B (option error)) : M B (option error) :=
  match tags with
  | [] => k
  | tag :: tags =>
      step tmpImageName
        ["tag"; Name imageDefinition;
         buildPrefix +:+ Name imageDefinition +:+ ":" +:+ tag]
        (tag_loop imageDefinition buildPrefix tmpImageName tags k)
  end.

Definition BuildImageLayer (imageDefinition : ImageDefinition)
    (tags : list string) (buildPrefix packageCache : string)
    (environmentVariables : gmap string string) : M B (option error) :=
  let inherits :=
    if HasPrefix (Inherits imageDefinition) "external:"
    then string_drop (String.length "external:") (Inherits imageDefinition)
    else buildPrefix +:+ Inherits imageDefinition in
  let tmpImageName := BuildImageLayer_tmpImageName imageDefinition in
  let start :=
    ["run"; "-d"; "-v"; ImagesDir imageDefinition +:+ ":/images"]
    ++ (if is_empty packageCache then []
        else ["-v"; packageCache +:+ ":/packages"])
    ++ ["--privileged"; "--name"; tmpImageName; inherits] in
  let script :=
    ["exec"; "--privileged"]
    ++ env_arguements (range_env environmentVariables)
    ++ [tmpImageName; "arch-chroot-custom"; "/root.x86_64"; "/bin/bash"; "-c";
        "cd /images/" +:+ Name imageDefinition +:+ " && ./script"] in
  let build :=
    do err <- runCommand "docker" start in
    match err with
    | Some _ => ret err
    | None =>
        step tmpImageName
          ["exec"; "--privileged"; tmpImageName; "mkdir"; "/root.x86_64/images/"] $
        step tmpImageName
          ["exec"; "--privileged"; tmpImageName; "bash"; "-c";
           "echo " +:+ dquote +:+ "chroot_add_mount /images \" +:+ dquote
           +:+ "/root.x86_64/images\" +:+ dquote +:+ " --bind" +:+ dquote
           +:+ " >> /arch-chroot-customizations"] $
        (if is_empty packageCache then λ k, k
         else λ k,
           step tmpImageName
             ["exec"; "--privileged"; tmpImageName; "mkdir"; "-p";
              "/root.x86_64/var/cache/pacman/pkg/"] $
           step tmpImageName
             ["exec"; "--privileged"; tmpImageName; "bash"; "-c";
              "echo " +:+ dquote +:+ "chroot_add_mount /packages \" +:+ dquote
              +:+ "/root.x86_64/var/cache/pacman/pkg/\" +:+ dquote +:+ " --bind"
              +:+ dquote +:+ " >> /arch-chroot-customizations"]
             k) $
        step tmpImageName script $
        step tmpImageName
          ["exec"; "--privileged"; tmpImageName; "rm"; "-r"; "/root.x86_64/images"] $
        step tmpImageName
          ["exec"; "--privileged"; tmpImageName; "rm"; "-r"; "-f";
           "/root.x86_64/var/cache/pacman/pkg/"] $
        step tmpImageName
          ["commit"; tmpImageName; buildPrefix +:+ Name imageDefinition] $
        tag_loop imageDefinition buildPrefix tmpImageName tags $
        destroyContainer tmpImageName
    end in
  if is_empty packageCache then build
  else ensure_dir packageCache build.

(** The commands of [ExtractImage]: the start of the container (line 251)
    and the steps up to its teardown (lines 256-278). *)
Definition ExtractImage_steps (name destination : string) : list (list string) :=
  let tmpImageName := ExtractImage_tmpImageName name in
  [ ["exec"; tmpImageName; "mksquashfs"; "root.x86_64"; "/rootfs.squash"];
    ["cp"; tmpImageName +:+ ":/rootfs.squash";
     path_Join destination "rootfs.squash"];
    ["cp"; tmpImageName +:+ ":/root.x86_64/boot/vmlinuz-linux";
     path_Join destination "vmlinuz-linux"];
    ["cp"; tmpImageName +:+ ":/root.x86_64/boot/initramfs-linux.img";
     path_Join destination "initramfs-linux.img"] ].

Definition ExtractImage_start (name tag : string) : list string :=
  ["run"; "-d"; "--privileged"; "--name"; ExtractImage_tmpImageName name;
   if is_empty tag then name else name +:+ ":" +:+ tag].

Definition ExtractImage (name tag destination : string) : M B (option error) :=
  let tmpImageName := ExtractImage_tmpImageName name in
  let imageName := if is_empty tag then name else name +:+ ":" +:+ tag in
  let extract :=
    do err <- CleanDirectory destination in
    match err with
    | Some _ => ret err
    | None =>
        do err <- runCommand "docker"
                ["run"; "-d"; "--privileged"; "--name"; tmpImageName; imageName] in
        match err with
        | Some _ => ret err
        | None =>
            step tmpImageName
              ["exec"; tmpImageName; "mksquashfs"; "root.x86_64"; "/rootfs.squash"] $
            step tmpImageName
              ["cp"; tmpImageName +:+ ":/rootfs.squash";
               path_Join destination "rootfs.squash"] $
            step tmpImageName
              ["cp"; tmpImageName +:+ ":/root.x86_64/boot/vmlinuz-linux";
               path_Join destination "vmlinuz-linux"] $
            step tmpImageName
              ["cp"; tmpImageName +:+ ":/root.x86_64/boot/initramfs-linux.img";
               path_Join destination "initramfs-linux.img"] $
            destroyContainer tmpImageName
        end
    end in
  ensure_dir destination extract.

End Docker.

(** ** What a history shows *)

(** The containers on which [destroyContainer] was entered. *)
Definition destroyed (evs : list event) : list string :=
  omap (λ ev, match ev with EvDestroy n => Some n | _ => None end) evs.

(** The docker commands that were run, with how each ended. *)
Definition results (evs : list event) : list (list string * option error) :=
  omap (λ ev, match ev with
              | EvRun program args res =>
                  if decide (program = "docker") then Some (args, res) else None
              | _ => None
              end) evs.

Definition commands (evs : list event) : list (list string) := (results evs).*1.

(** A step of a build between the start of the container and its
    teardown: [docker exec], [docker commit] or [docker tag]. *)
Definition is_build_step (args : list string) : bool :=
  match args with
  | sub :: _ => bool_decide (sub = "exec" ∨ sub = "commit" ∨ sub = "tag")
  | [] => false
  end.

(** The errors of the build steps that failed. *)
Definition failed_steps (evs : list event) : list error :=
  omap (λ ar : list string * option error,
          if is_build_step ar.1 then ar.2 else None) (results evs).

(** The commands that start a container, [docker run ...]. *)
Definition started (evs : list event) : list (list string) :=
  filter (λ args, head args = Some "run") (commands evs).

(** The files [docker cp] wrote on the host, and what they do to it. *)
Definition written (evs : list event) : list (string * string) :=
  omap (λ ev, match ev with EvWrite p c => Some (p, c) | _ => None end) evs.

Definition apply_writes (ws : list (string * string)) (m : gmap string string)
    : gmap string string :=
  foldl (λ m pc, <[pc.1 := pc.2]> m) m ws.

(** The name given to the container by a [docker run] command. *)
Fixpoint container_name (args : list string) : option string :=
  match args with
  | [] => None
  | flag :: args =>
      if decide (flag = "--name") then head args else container_name args
  end.

(** The command by which [BuildImageLayer] starts its container (lines
    142-155). *)
Definition BuildImageLayer_start (imageDefinition : ImageDefinition)
    (buildPrefix packageCache : string) : list string :=
  ["run"; "-d"; "-v"; ImagesDir imageDefinition +:+ ":/images"]
  ++ (if is_empty packageCache then []
      else ["-v"; packageCache +:+ ":/packages"])
  ++ ["--privileged"; "--name"; BuildImageLayer_tmpImageName imageDefinition;
      if HasPrefix (Inherits imageDefinition) "external:"
      then string_drop (String.length "external:") (Inherits imageDefinition)
      else buildPrefix +:+ Inherits imageDefinition].

(** The commands of [BuildImageLayer] between the start of the container
    and its teardown (lines 162-225), in order. *)
Definition BuildImageLayer_steps (range_env : gmap string string → list (string * string))
    (imageDefinition : ImageDefinition) (tags : list string)
    (buildPrefix packageCache : string)
    (environmentVariables : gmap string string) : list (list string) :=
  let tmpImageName := BuildImageLayer_tmpImageName imageDefinition in
  [ ["exec"; "--privileged"; tmpImageName; "mkdir"; "/root.x86_64/images/"];
    ["exec"; "--privileged"; tmpImageName; "bash"; "-c";
     "echo " +:+ dquote +:+ "chroot_add_mount /images \" +:+ dquote
     +:+ "/root.x86_64/images\" +:+ dquote +:+ " --bind" +:+ dquote
     +:+ " >> /arch-chroot-customizations"] ]
  ++ (if is_empty packageCache then []
      else [ ["exec"; "--privileged"; tmpImageName; "mkdir"; "-p";
              "/root.x86_64/var/cache/pacman/pkg/"];
             ["exec"; "--privileged"; tmpImageName; "bash"; "-c";
              "echo " +:+ dquote +:+ "chroot_add_mount /packages \" +:+ dquote
              +:+ "/root.x86_64/var/cache/pacman/pkg/\" +:+ dquote +:+ " --bind"
              +:+ dquote +:+ " >> /arch-chroot-customizations"] ])
  ++ [ ["exec"; "--privileged"]
       ++ env_arguements (range_env environmentVariables)
       ++ [tmpImageName; "arch-chroot-custom"; "/root.x86_64"; "/bin/bash"; "-c";
           "cd /images/" +:+ Name imageDefinition +:+ " && ./script"];
       ["exec"; "--privileged"; tmpImageName; "rm"; "-r"; "/root.x86_64/images"];
       ["exec"; "--privileged"; tmpImageName; "rm"; "-r"; "-f";
        "/root.x86_64/var/cache/pacman/pkg/"];
       ["commit"; tmpImageName; buildPrefix +:+ Name imageDefinition] ]
  ++ map (λ tag, ["tag"; Name imageDefinition;
                  buildPrefix +:+ Name imageDefinition +:+ ":" +:+ tag]) tags.

(** Source and target of a [docker tag] command. *)
Definition tag_of (args : list string) : option (string * string) :=
  match args with
  | [sub; source; target] =>
      if decide (sub = "tag") then Some (source, target) else None
  | _ => None
  end.

(** The targets of the [docker commit] commands that succeeded, and source
    and target of the [docker tag] commands that were run. *)
Definition committed (evs : list event) : list string :=
  omap (λ ar : list string * option error,
          match ar with
          | ([sub; _; target], None) =>
              if decide (sub = "commit") then Some target else None
          | _ => None
          end) (results evs).

Definition tagged (evs : list event) : list (string * string) :=
  omap tag_of (commands evs).

(** The directories after [os.MkdirAll] of a path: those there before, and
    of the path and its parents those that were made. *)
Definition grown_by (path : string) (before after : gset string) : Prop :=
  (∀ d, d ∈ before → d ∈ after)
  ∧ (∀ d, d ∈ after → d ∈ before ∨ d ∈ path :: ancestors path).

(** The file on the host that a [docker cp] command writes. *)
Definition cp_target (args : list string) : option string :=
  match args with
  | [sub; _; target] => if decide (sub = "cp") then Some target else None
  | _ => None
  end.

(** The results a teardown can leave: the stop failed and nothing was
    removed, or the stop succeeded and the removal was run. *)
Definition teardown_results (containerName : string)
    (td : list (list string * option error)) : Prop :=
  (∃ err, td = [(["stop"; containerName], Some err)])
  ∨ (∃ res, td = [(["stop"; containerName], None); (["rm"; containerName], res)]).

(** The errors of the actions that failed, in the order of the history. *)
Definition errors (evs : list event) : list error :=
  omap (λ ev, match ev with
              | EvMkdirAll _ res | EvCleanDirectory _ res | EvRun _ _ res => res
              | _ => None
              end) evs.

(** The results of commands that all succeed. *)
Definition all_succeed (cmds : list (list string))
    : list (list string * option error) :=
  (λ args, (args, None)) <$> cmds.

End Images.

(** ** Package [path] of the Go library *)

Module Path.

(** The elements of a path between its slashes, [cur] being the element read
    so far, last character first. *)
Fixpoint split_go (cur : string) (s : string) : list string :=
  match s with
  | EmptyString => [String.rev cur]
  | String c s =>
      if Ascii.eqb c Images.slash then String.rev cur :: split_go EmptyString s
      else split_go (String c cur) s
  end.
Definition split (s : string) : list string := split_go EmptyString s.

(** One element pushed on the elements kept so far (last one first), by the
    rules of [path.Clean]: empty and [.] elements vanish, [..] removes the
    element before it, stays in front of a relative path, and vanishes at
    the root. *)
Definition clean_step (rooted : bool) (kept : list string) (elem : string)
    : list string :=
  if decide (elem = EmptyString ∨ elem = ".") then kept
  else if decide (elem = "..") then
    match kept with
    | top :: rest => if decide (top = "..") then elem :: kept else rest
    | [] => if rooted then [] else [elem]
    end
  else elem :: kept.

Fixpoint join_slash (elems : list string) : string :=
  match elems with
  | [] => EmptyString
  | [e] => e
  | e :: elems => e +:+ "/" +:+ join_slash elems
  end.

(** [path.Clean] *)
Definition Clean (p : string) : string :=
  let rooted := Images.HasPrefix p "/" in
  let kept := rev (foldl (clean_step rooted) [] (split p)) in
  if rooted then "/" +:+ join_slash kept
  else if decide (kept = []) then "." else join_slash kept.

(** [path.Join] of two elements. *)
Definition Join (a b : string) : string :=
  if Images.is_empty a then
    if Images.is_empty b then EmptyString else Clean b
  else if Images.is_empty b then Clean a
  else Clean (a +:+ "/" +:+ b).

End Path.

(** ** Extraction through containerd *)

Module Repository.

Export Images(error, ErrExternal, result, Ok, Err, HasPrefix, string_drop).

(** What [os.Lstat] tells about an entry that is not a directory. *)
Inductive FileKind : Type :=
  | Regular | Symlink | NamedPipe | Socket | Device | CharDevice | Irregular.

#[global] Instance FileKind_eq_dec : EqDecision FileKind.
Proof. solve_decision. Defined.

(** [os.FileInfo], as far as the walk looks at it. *)
Inductive FileInfo : Type :=
  | InfoDir
  | InfoFile (kind : FileKind).

Definition IsDir (f : FileInfo) : bool :=
  match f with InfoDir => true | InfoFile _ => false end.

(** A mounted file tree.  The entries of a directory are in the order
    [readDirNames] returns them (sorted by name); [readErr] is the error of
    reading the directory, [NoStat] an entry on which [os.Lstat] fails. *)
Inductive Node : Type :=
  | File (kind : FileKind)
  | Dir (entries : list (string * Node)) (readErr : option error)
  | NoStat (err : error).

(** The three ways [filepath.Walk] calls its function: with the info of the
    entry, with the error of [os.Lstat] and no info, with the info of a
    directory and the error of reading it. *)
Inductive visit : Type :=
  | Visited (info : FileInfo)
  | StatFailed (err : error)
  | ReadFailed (info : FileInfo) (err : error).

Inductive event : Type :=
  | EvWithLease (res : option error)
  | EvLeaseDone
  | EvGetImage (fullName : string) (res : option error)
  | EvNewWorkspace (res : option error)
  | EvWorkspaceDestroy (wsPath : string)
  | EvCreateTempMounts (wsPath : string) (res : option error)
  | EvNewID (id : string)
  | EvCreateSnapshot (key : string) (res : option error)
  | EvDeleteSnapshot (key : string)
  | EvRunContainer (snapshotKey : string) (args : list string) (res : option error)
  | EvMounts (key : string) (res : option error)
  | EvTempMount (res : option error)
  | EvUnmount
  | EvCopyFile (src dst : string) (res : option error).

#[global] Instance event_eq_dec : EqDecision event.
Proof. solve_decision. Defined.

(** [reference.ImageRef], of which the extraction reads the full name. *)
Record ImageRef : Type := mkImageRef { FullName : string }.

(** The containerd client, the snapshotter, the workspace and the helpers of
    package [utils] behind a [Session]: each answers from the state [B] of
    the backend and moves it on. *)
Class Backend (B : Type) : Type := {
  Image : Type;
  Mounts : Type;
  client_WithLease : B → option error * B;
  lease_done : B → B;
  client_GetImage : string → B → result Image * B;
  NewWorkspace : B → result string * B;
  Workspace_Destroy : string → B → B;
  (** [createTempMounts(path)], which returns the mounts and an error. *)
  createTempMounts : string → B → (Mounts * option error) * B;
  NewID : B → string * B;
  session_createSnapshot : string → Image → B → option error * B;
  session_deleteSnapshot : string → B → B;
  session_RunContainer : string → Image → Mounts → list string → B → option error * B;
  snapshotter_Mounts : string → B → option error * B;
  (** [mount.WithTempMount]: the directory the upper layer is mounted on and
      the tree found there, or the error of mounting. *)
  temp_mount : string → B → result (string * Node) * B;
  temp_unmount : B → B;
  CopyFile_fault : string → string → B → option error * B
}.

Section Extract.

Context {B : Type} `{Backend B}.

Abbreviation R := (Run B event).

(** One call of the backend, with the event that records it. *)
Definition call {A} (f : B → A * B) (ev : A → event) : R A :=
  λ b, let '(a, b') := f b in (a, b', [ev a]).
Definition call_ (f : B → B) (ev : event) : R unit :=
  λ b, (tt, f b, [ev]).

Definition err_of {A} (r : result A) : option error :=
  match r with Ok _ => None | Err e => Some e end.

(** Modelled from the spec: [utils.CopyFile], the file copy utility
    "creating intermediate directories as needed", of package [utils]
    which is not among the sources; the copy is recorded and may fail. *)
Definition CopyFile (src dst : string) : R (option error) :=
  call (CopyFile_fault src dst) (EvCopyFile src dst).

(** [filepath.Join(path, name)] for the path of a directory being walked
    and the name of one of its entries. *)
Definition entry_path (path name : string) : string := path +:+ "/" +:+ name.

(** The loop of [filepath.Walk] over the entries of the directory at
    [path] (the [for] of [walk]), [walk_child] being the walk of one
    entry. *)
Fixpoint walk_entries (walk_child : string → Node → R (option error))
    (path : string) (entries : list (string * Node)) : R (option error) :=
  match entries with
  | [] => ret None
  | (name, child) :: entries =>
      do err <- walk_child (entry_path path name) child in
      match err with
      | Some _ => ret err
      | None => walk_entries walk_child path entries
      end
  end.

(** [filepath.Walk], for a function that never answers [SkipDir]. *)
Fixpoint walk (path : string) (node : Node)
    (walkFn : string → visit → R (option error)) : R (option error) :=
  match node with
  | NoStat err => walkFn path (StatFailed err)
  | File kind => walkFn path (Visited (InfoFile kind))
  | Dir entries readErr =>
      do err1 <- walkFn path (match readErr with
                              | None => Visited InfoDir
                              | Some err => ReadFailed InfoDir err
                              end) in
      match readErr, err1 with
      | None, None =>
          walk_entries (λ path child, walk path child walkFn) path entries
      | _, _ => ret err1
      end
  end.

(** [os.Lstat] of the entry [name] of a mounted tree. *)
Definition lstat_entry (mount : Node) (name : string) : Node :=
  match mount with
  | Dir entries _ =>
      match list_find (λ e, e.1 = name) entries with
      | Some (_, (_, node)) => node
      | None => NoStat (ErrExternal "no such file or directory")
      end
  | File _ => NoStat (ErrExternal "not a directory")
  | NoStat err => NoStat err
  end.

(** The function handed to [filepath.Walk] (lines 78-86). *)
Definition copy_entry (srcDir destination : string) (_path : string) (v : visit)
    : R (option error) :=
  match v with
  | StatFailed _err | ReadFailed _ _err => ret (Some _err)
  | Visited _f =>
      if negb (IsDir _f) && HasPrefix _path srcDir then
        CopyFile _path
          (Path.Join destination (string_drop (String.length srcDir) _path))
      else ret None
  end.

(** The function handed to [mount.WithTempMount] (lines 76-87). *)
Definition copy_staged (destination : string) (root : string) (mount : Node)
    : R (option error) :=
  let srcDir := Path.Join root "extract" in
  walk (Path.Join root "extract") (lstat_entry mount "extract")
       (copy_entry srcDir destination).

(** [mount.WithTempMount(ctx, upperMounts, f)] *)
Definition WithTempMount (snapshotKey : string)
    (f : string → Node → R (option error)) : R (option error) :=
  do mounted <- call (temp_mount snapshotKey) (λ r, EvTempMount (err_of r)) in
  match mounted with
  | Err err => ret (Some err)
  | Ok (root, mount) =>
      do err <- f root mount in
      do _u <- call_ temp_unmount EvUnmount in
      ret err
  end.

Definition ExtractImage (imageRef : ImageRef) (destination : string)
    : R (option error) :=
  do err <- call client_WithLease EvWithLease in
  match err with
  | Some _ => ret err
  | None =>
  defer (call_ lease_done EvLeaseDone) (
  do img <- call (client_GetImage (FullName imageRef))
              (λ r, EvGetImage (FullName imageRef) (err_of r)) in
  match img with
  | Err err => ret (Some err)
  | Ok img =>
  do tempMountsWs <- call NewWorkspace (λ r, EvNewWorkspace (err_of r)) in
  match tempMountsWs with
  | Err err => ret (Some err)
  | Ok tempMountsWs =>
  defer (call_ (Workspace_Destroy tempMountsWs) (EvWorkspaceDestroy tempMountsWs)) (
  (* [mounts, err := createTempMounts(tempMountsWs.Path)]: this [err] is not
     read, the next assignment to [err] overwrites it (line 43). *)
  do mounts_err <- call (createTempMounts tempMountsWs)
                     (λ r, EvCreateTempMounts tempMountsWs r.2) in
  let mounts := mounts_err.1 in
  (* Create the snapshot that our extraction will happen on. *)
  do snapshotKey <- call NewID EvNewID in
  do err <- call (session_createSnapshot snapshotKey img)
              (EvCreateSnapshot snapshotKey) in
  match err with
  | Some _ => ret err
  | None =>
  defer (call_ (session_deleteSnapshot snapshotKey) (EvDeleteSnapshot snapshotKey)) (
  let args := ["/usr/bin/env"; "bash"; "-c"; "/darch-extract"] in
  do err <- call (session_RunContainer snapshotKey img mounts args)
              (EvRunContainer snapshotKey args) in
  match err with
  | Some _ => ret err
  | None =>
  do err <- call (snapshotter_Mounts snapshotKey) (EvMounts snapshotKey) in
  match err with
  | Some _ => ret err
  | None =>
  do err <- WithTempMount snapshotKey (copy_staged destination) in
  match err with
  | Some _ => ret err
  | None => ret None
  end end end) end) end end) end.

End Extract.

(** The identifiers drawn from [utils.NewID] and the keys under which
    snapshots were created, used and deleted. *)
Definition new_ids (evs : list event) : list string :=
  omap (λ ev, match ev with EvNewID id => Some id | _ => None end) evs.

Definition snapshot_keys (evs : list event) : list string :=
  omap (λ ev, match ev with
              | EvCreateSnapshot key _ | EvDeleteSnapshot key
              | EvRunContainer key _ _ | EvMounts key _ => Some key
              | _ => None
              end) evs.

(** The copies that were asked of [utils.CopyFile]: source and target. *)
Definition copies (evs : list event) : list (string * string) :=
  omap (λ ev, match ev with EvCopyFile src dst _ => Some (src, dst) | _ => None end) evs.

(** The entries of a tree that are not directories, each with its kind and
    with its path below the root of the tree: the slash-separated names
    that lead to it. *)
Fixpoint entries_below (rel : string) (node : Node) : list (string * FileKind) :=
  match node with
  | File kind => [(rel, kind)]
  | NoStat _ => []
  | Dir entries _ =>
      flat_map (λ e, entries_below (rel +:+ "/" +:+ e.1) e.2) entries
  end.

(** A history that holds nothing but copies of files. *)
Definition only_copies (evs : list event) : Prop :=
  Forall (λ ev, match ev with EvCopyFile _ _ _ => True | _ => False end) evs.

(** The copy that the extraction expects for an entry of the staged tree. *)
Definition expected_copy (srcDir destination : string) (rk : string * FileKind)
    : string * string :=
  (srcDir +:+ rk.1, Path.Join destination rk.1).

(** The reading of the copy phase under which nothing but regular files is
    copied: every copy is that of a regular file of the staged tree. *)
Definition copies_only_regular {B : Type} `{Backend B}
    (destination root : string) (mount : Node) (b : B) : Prop :=
  ∀ src dst,
    (src, dst) ∈ copies (events_of (copy_staged destination root mount b)) →
    ∃ rel, src = Path.Join root "extract" +:+ rel
           ∧ (rel, Regular) ∈ entries_below EmptyString (lstat_entry mount "extract").

(** What an extraction holds while it works, and the events by which it
    takes and gives back each: the lease ([WithLease], [done]), the
    workspace of the mounts ([NewWorkspace], [Destroy]), the snapshot
    ([createSnapshot], [deleteSnapshot]) and the mount of the upper layer
    ([mount.WithTempMount]). *)
Inductive resource : Type :=
  | Lease
  | Workspace
  | Snapshot (key : string)
  | TempMount.

Definition acquired (evs : list event) : list resource :=
  omap (λ ev, match ev with
              | EvWithLease None => Some Lease
              | EvNewWorkspace None => Some Workspace
              | EvCreateSnapshot key None => Some (Snapshot key)
              | EvTempMount None => Some TempMount
              | _ => None
              end) evs.

Definition released (evs : list event) : list resource :=
  omap (λ ev, match ev with
              | EvLeaseDone => Some Lease
              | EvWorkspaceDestroy _ => Some Workspace
              | EvDeleteSnapshot key => Some (Snapshot key)
              | EvUnmount => Some TempMount
              | _ => None
              end) evs.

(** The error of a step whose error [ExtractImage] tests, and the errors of
    such steps in the order of the history.  [createTempMounts] is not among
    them: the error it returns is dropped (line 43). *)
Definition checked_error (ev : event) : option error :=
  match ev with
  | EvWithLease res | EvGetImage _ res | EvNewWorkspace res
  | EvCreateSnapshot _ res | EvRunContainer _ _ res | EvMounts _ res
  | EvTempMount res | EvCopyFile _ _ res => res
  | _ => None
  end.

Definition checked_errors (evs : list event) : list error :=
  omap checked_error evs.

(** The events by which what was taken is given back. *)
Definition is_release (ev : event) : Prop :=
  match ev with
  | EvLeaseDone | EvWorkspaceDestroy _ | EvDeleteSnapshot _ | EvUnmount => True
  | _ => False
  end.

(** A copy that succeeded; and a history of copies that stops at the first
    one that fails, with the error of that copy as the result [r]. *)
Definition succeeded_copy (ev : event) : Prop :=
  match ev with EvCopyFile _ _ None => True | _ => False end.

Definition stops_at_failure (r : option error) (evs : list event) : Prop :=
  ∃ ok, Forall succeeded_copy ok
        ∧ (evs = ok
           ∨ ∃ src dst e, evs = ok ++ [EvCopyFile src dst (Some e)] ∧ r = Some e).

End Repository.

(** ** Sample inputs *)

Module Examples.

Import Images.

(** *** An image directory with a base image and a child *)

Definition no_such_file : error := ErrExternal "no such file or directory".

Definition disk_ExpandPath (p : string) : string := p.

Definition disk_DirectoryExists (p : string) : bool :=
  bool_decide (p ∈ ["/images"; "/images/base"; "/images/child"; "/images/bare";
                    "/images/empty"]).

Definition disk_FileExists (p : string) : bool :=
  bool_decide (p ∈ ["/images/base/config.json"; "/images/child/config.json";
                    "/images/bare/config.json"]).

Definition disk_GetChildDirectories (p : string) : result (list string) :=
  if decide (p = "/images") then Ok ["base"; "child"] else Err no_such_file.

(** The manifests hold nothing but the value of [inherits], and [{}] is the
    manifest without the key. *)
Definition disk_ReadFile (p : string) : result string :=
  if decide (p = "/images/base/config.json") then Ok "external:os/base"
  else if decide (p = "/images/child/config.json") then Ok "base"
  else if decide (p = "/images/bare/config.json") then Ok "{}"
  else Err no_such_file.

Definition disk_json_field (data key : string) : result (option string) :=
  if decide (data = "{}") then Ok None else Ok (Some data).

Definition disk_BuildDefinition : string → string → result ImageDefinition :=
  BuildDefinition disk_ExpandPath Path.Join disk_DirectoryExists disk_FileExists
    disk_ReadFile disk_json_field.

Definition base : ImageDefinition :=
  {| Name := "base"; ImageDir := "/images/base"; ImagesDir := "/images";
     Inherits := "external:os/base" |}.

Definition child : ImageDefinition :=
  {| Name := "child"; ImageDir := "/images/child"; ImagesDir := "/images";
     Inherits := "base" |}.

Definition base_and_child : gmap string ImageDefinition :=
  <["child" := child]> (<["base" := base]> ∅).

(** *** Two images that inherit from each other, and an orphan *)

Definition ping : ImageDefinition :=
  {| Name := "ping"; ImageDir := "/images/ping"; ImagesDir := "/images";
     Inherits := "pong" |}.

Definition pong : ImageDefinition :=
  {| Name := "pong"; ImageDir := "/images/pong"; ImagesDir := "/images";
     Inherits := "ping" |}.

Definition ping_pong : gmap string ImageDefinition :=
  <["pong" := pong]> (<["ping" := ping]> ∅).

(** An image built on [ping]. *)
Definition follower : ImageDefinition :=
  {| Name := "follower"; ImageDir := "/images/follower"; ImagesDir := "/images";
     Inherits := "ping" |}.

Definition ping_pong_follower : gmap string ImageDefinition :=
  <["follower" := follower]> ping_pong.

(** *** Image directories that do not load or do not validate *)

(** The listing of [/images] with the image that has no parent in it. *)
Definition bare_GetChildDirectories (p : string) : result (list string) :=
  if decide (p = "/images") then Ok ["base"; "bare"; "child"] else Err no_such_file.

(** A disk on which [ping] and [pong] are the images. *)
Definition loop_exists (p : string) : bool := true.

Definition loop_GetChildDirectories (p : string) : result (list string) :=
  Ok ["ping"; "pong"].

Definition loop_ReadFile (p : string) : result string :=
  if decide (p = "/images/ping/config.json") then Ok "pong" else Ok "ping".

Definition orphan : ImageDefinition :=
  {| Name := "orphan"; ImageDir := "/images/orphan"; ImagesDir := "/images";
     Inherits := "ghost" |}.

(** An image built on [orphan], and the set of the two. *)
Definition heir : ImageDefinition :=
  {| Name := "heir"; ImageDir := "/images/heir"; ImagesDir := "/images";
     Inherits := "orphan" |}.

Definition orphan_and_heir : gmap string ImageDefinition :=
  <["heir" := heir]> (<["orphan" := orphan]> ∅).

(** *** A host on which chosen docker commands fail *)

(** The backend counts the commands it has run. *)
Definition host_exec_Run (fails : list string → bool) (program : string)
    (args : list string) (n : nat) : option error * nat :=
  (if fails args
   then Some (ErrExternal ("docker " +:+ default EmptyString (head args) +:+ " failed"))
   else None, S n).

Definition host_docker_cp (src : string) (n : nat) : result string * nat :=
  (Ok ("content of " +:+ src), S n).

Definition host_no_fault (path : string) (n : nat) : option error * nat := (None, n).

Definition host_inside : string → string → bool := inside_dir.

Definition host_range_env (m : gmap string string) : list (string * string) :=
  map_to_list m.

Definition fresh_host : World nat := mkWorld ∅ ∅ 0.

(** A host with a populated destination. *)
Definition used_host : World nat :=
  mkWorld (<["/out/old.squash" := "old"]> (<["/etc/keep" := "kept"]> ∅))
          ({["/out"]}) 0.

Definition never (args : list string) : bool := false.
Definition commit_and_stop (args : list string) : bool :=
  bool_decide (head args = Some "commit" ∨ head args = Some "stop").

(** A build of [base] whose commit fails, with a container that then cannot
    be stopped; and a build with two tags on which every command succeeds. *)
Definition failing_build : option error * World nat * list event :=
  BuildImageLayer (host_exec_Run commit_and_stop) host_docker_cp host_no_fault
    host_range_env base ["latest"] "darch-" EmptyString ∅ fresh_host.

Definition tagged_build : option error * World nat * list event :=
  BuildImageLayer (host_exec_Run never) host_docker_cp host_no_fault
    host_range_env base ["latest"; "v1"] "darch-" EmptyString ∅ fresh_host.

(** An extraction into the populated [/out] and a second one after it, on
    a backend in another state. *)
Definition extraction : option error * World nat * list event :=
  ExtractImage (host_exec_Run never) host_docker_cp host_no_fault host_no_fault
    host_inside Path.Join "godarch/base" "latest" "/out" used_host.


(** Two extractions of the image [base], one after the other. *)
Definition first_extraction : option error * World nat * list event :=
  ExtractImage (host_exec_Run never) host_docker_cp host_no_fault host_no_fault
    host_inside Path.Join "base" EmptyString "/out" fresh_host.

Definition second_extraction : option error * World nat * list event :=
  ExtractImage (host_exec_Run never) host_docker_cp host_no_fault host_no_fault
    host_inside Path.Join "base" EmptyString "/out" (state_of first_extraction).

(** A build of [child] with two environment variables. *)
Definition locale : gmap string string :=
  <["LANG" := "C"]> (<["TZ" := "UTC"]> ∅).

(** *** A containerd backend that hands out numbered identifiers *)

Fixpoint numbered (n : nat) : string :=
  match n with
  | 0 => "snapshot"
  | S n => numbered n +:+ "'"
  end.

(** The upper layer of the snapshot: the staged files, a link among them,
    and files outside the staging path. *)
Definition upper_layer : Repository.Node :=
  Repository.Dir
    [ ("etc", Repository.Dir [("passwd", Repository.File Repository.Regular)] None);
      ("extract",
       Repository.Dir
         [ ("boot", Repository.Dir [("vmlinuz", Repository.File Repository.Regular)] None);
           ("etc", Repository.Dir [("hostname", Repository.File Repository.Regular);
                                   ("localtime", Repository.File Repository.Symlink)] None) ]
         None);
      ("extract2", Repository.Dir [("stray", Repository.File Repository.Regular)] None) ]
    None.

#[export] Instance numbered_backend : Repository.Backend nat := {|
  Repository.Image := string;
  Repository.Mounts := unit;
  Repository.client_WithLease n := (None, n);
  Repository.lease_done n := n;
  Repository.client_GetImage fullName n := (Ok fullName, n);
  Repository.NewWorkspace n := (Ok "/tmp/workspace", n);
  Repository.Workspace_Destroy _ n := n;
  Repository.createTempMounts _ n := ((tt, None), n);
  Repository.NewID n := (numbered n, S n);
  Repository.session_createSnapshot _ _ n := (None, n);
  Repository.session_deleteSnapshot _ n := n;
  Repository.session_RunContainer _ _ _ _ n := (None, n);
  Repository.snapshotter_Mounts _ n := (None, n);
  Repository.temp_mount _ n := (Ok ("/tmp/mount", upper_layer), n);
  Repository.temp_unmount n := n;
  Repository.CopyFile_fault _ _ n := (None, n)
|}.

(** The same backend, on which [createTempMounts] fails. *)
Definition no_mounts : error := ErrExternal "cannot create the temporary mounts".

Definition mountless_backend : Repository.Backend nat := {|
  Repository.Image := string;
  Repository.Mounts := unit;
  Repository.client_WithLease n := (None, n);
  Repository.lease_done n := n;
  Repository.client_GetImage fullName n := (Ok fullName, n);
  Repository.NewWorkspace n := (Ok "/tmp/workspace", n);
  Repository.Workspace_Destroy _ n := n;
  Repository.createTempMounts _ n := ((tt, Some no_mounts), n);
  Repository.NewID n := (numbered n, S n);
  Repository.session_createSnapshot _ _ n := (None, n);
  Repository.session_deleteSnapshot _ n := n;
  Repository.session_RunContainer _ _ _ _ n := (None, n);
  Repository.snapshotter_Mounts _ n := (None, n);
  Repository.temp_mount _ n := (Ok ("/tmp/mount", upper_layer), n);
  Repository.temp_unmount n := n;
  Repository.CopyFile_fault _ _ n := (None, n)
|}.

Definition mountless_extraction : option error * nat * list Repository.event :=
  @Repository.ExtractImage nat mountless_backend
    (Repository.mkImageRef "godarch/base:latest") "/tmp/out" 0.

(** An extraction into a directory two levels below what the host has. *)
Definition deep_extraction : option error * World nat * list event :=
  ExtractImage (host_exec_Run never) host_docker_cp host_no_fault host_no_fault
    host_inside Path.Join "base" EmptyString "/tmp/a/b"
    (mkWorld ∅ {["/tmp"]} 0).

End Examples.

(** * Properties *)

(** ** Dependency validation *)

Section VerifyDependencies.

Import Images.

Implicit Types (d parent : ImageDefinition) (stack : gmap string bool).
Implicit Types defs : gmap string ImageDefinition.

Lemma verifyDependencies_nil_stack fuel d defs :
  verifyDependencies fuel d defs None = verifyDependencies fuel d defs (Some ∅).
Proof. by destruct fuel. Qed.

(** One invocation. *)
Lemma verifyDependencies_unfold fuel d defs stack :
  verifyDependencies (S fuel) d defs (Some stack)
  = if HasPrefix (Inherits d) "external:" then Some None
    else if decide (is_Some (stack !! Inherits d))
         then Some (Some (ErrCyclical (Name d)))
         else match defs !! Inherits d with
              | Some parent =>
                  verifyDependencies fuel parent defs
                    (Some (<[Name d := true]> stack))
              | None => Some (Some (ErrMissingParent (Name d) (Inherits d)))
              end.
Proof. reflexivity. Qed.

(** More fuel does not change a result. *)
Lemma verifyDependencies_fuel_mono fuel fuel' d defs st r :
  fuel ≤ fuel' →
  verifyDependencies fuel d defs st = Some r →
  verifyDependencies fuel' d defs st = Some r.
Proof.
  revert fuel' d st. induction fuel as [|fuel IH]; intros fuel' d st Hle; [done|].
  destruct fuel' as [|fuel']; [lia|]. simpl.
  destruct (HasPrefix _ _); [done|].
  destruct (decide _); [done|].
  destruct (defs !! Inherits d); [|done].
  apply IH. lia.
Qed.

(** One invocation on a definition whose parent is already stacked. *)
Lemma verifyDependencies_stacked fuel d defs stack :
  is_external (Inherits d) = false →
  is_Some (stack !! Inherits d) →
  verifyDependencies (S fuel) d defs (Some stack) = Some (Some (ErrCyclical (Name d))).
Proof.
  unfold is_external. intros Hext Hin. simpl. rewrite Hext.
  by destruct (decide _).
Qed.

(** The walk from a definition of the set whose name is not yet stacked
    needs at most one invocation per name of the set that is not stacked,
    and one more. *)
Lemma verifyDependencies_terminates_fresh defs :
  well_keyed defs →
  ∀ fuel d stack,
    defs !! Name d = Some d →
    stack !! Name d = None →
    size (dom defs ∖ dom stack) < fuel →
    is_Some (verifyDependencies fuel d defs (Some stack)).
Proof.
  intros Hkeys. induction fuel as [|fuel IH]; intros d stack Hd Hfresh Hsize; [lia|].
  simpl. destruct (HasPrefix _ _) eqn:Hext; [by eexists|].
  destruct (decide _) as [|Hnotin]; [by eexists|].
  destruct (defs !! Inherits d) as [parent|] eqn:Hparent; [|by eexists].
  assert (Name parent = Inherits d) as Hname by exact (Hkeys _ _ Hparent).
  assert (Name d ∈ dom defs ∖ dom stack) as Hmem.
  { apply elem_of_difference. split; [by apply elem_of_dom|].
    by apply not_elem_of_dom. }
  destruct (decide (Name parent = Name d)) as [Heq|Hne].
  - (* the definition is its own parent: the next invocation stops *)
    assert (parent = d) as -> by (rewrite <- Hname, Heq, Hd in Hparent; congruence).
    destruct fuel as [|fuel].
    { assert (size (dom defs ∖ dom stack) ≠ 0); [|lia].
      intros Hz%size_empty_inv. by apply Hz in Hmem. }
    rewrite verifyDependencies_stacked; [by eexists|done|].
    rewrite <- Hname, lookup_insert_eq. by eexists.
  - apply IH.
    + by rewrite Hname.
    + rewrite lookup_insert_ne; [|done].
      rewrite Hname. by apply eq_None_not_Some.
    + eapply Nat.lt_le_trans; [|apply Nat.lt_succ_r, Hsize].
      apply subset_size. rewrite dom_insert_L. split.
      * intros x [Hx Hnx]%elem_of_difference. apply elem_of_difference.
        split; [done|]. intros Hin. apply Hnx, elem_of_union. by right.
      * intros Hsub. specialize (Hsub _ Hmem).
        apply elem_of_difference in Hsub as [_ Hsub]. apply Hsub.
        apply elem_of_union. left. by apply elem_of_singleton.
Qed.

(** The walk from a definition of the set whose name is stacked. *)
Lemma verifyDependencies_terminates_member defs :
  well_keyed defs →
  ∀ fuel d stack,
    defs !! Name d = Some d →
    S (size defs) < fuel →
    is_Some (verifyDependencies fuel d defs (Some stack)).
Proof.
  intros Hkeys fuel d stack Hd Hfuel.
  assert (∀ st : gmap string bool, size (dom defs ∖ dom st) ≤ size defs) as Hbound.
  { intros st. rewrite <- (size_dom (D:=gset string) defs).
    apply subseteq_size. by intros x [Hx _]%elem_of_difference. }
  destruct (stack !! Name d) eqn:Hstacked.
  - destruct fuel as [|fuel]; [lia|]. simpl.
    destruct (HasPrefix _ _) eqn:Hext; [by eexists|].
    destruct (decide _) as [|Hnotin]; [by eexists|].
    destruct (defs !! Inherits d) as [parent|] eqn:Hparent; [|by eexists].
    assert (Name parent = Inherits d) as Hname by exact (Hkeys _ _ Hparent).
    apply verifyDependencies_terminates_fresh; [done|by rewrite Hname| |].
    + rewrite Hname. apply eq_None_not_Some. intros [? Hl]. apply Hnotin.
      destruct (decide (Name d = Inherits d)) as [<-|Hne]; [by eexists|].
      rewrite lookup_insert_ne in Hl; [|done]. by eexists.
    + specialize (Hbound (<[Name d:=true]> stack)). lia.
  - apply verifyDependencies_terminates_fresh; [done..|].
    specialize (Hbound stack). lia.
Qed.

(** In a set without cycle and with every parent resolved, a walk whose
    stack holds only ancestors of the current definition cannot fail. *)
Lemma verifyDependencies_valid_walk defs :
  well_keyed defs → acyclic defs → resolvable defs →
  ∀ fuel d stack r,
    defs !! Name d = Some d →
    (∀ s, is_Some (stack !! s) → tc (inherits_from defs) s (Name d)) →
    verifyDependencies fuel d defs (Some stack) = Some r →
    r = None.
Proof.
  intros Hkeys Hacyclic Hres.
  induction fuel as [|fuel IH]; intros d stack r Hd Hanc; [done|].
  simpl. destruct (HasPrefix _ _) eqn:Hext; [congruence|].
  assert (inherits_from defs (Name d) (Inherits d)) as Hedge by (by exists d).
  destruct (decide _) as [Hin|Hnotin].
  { destruct (Hacyclic (Name d)). eapply tc_l; [exact Hedge|by apply Hanc]. }
  destruct (defs !! Inherits d) as [parent|] eqn:Hparent.
  - assert (Name parent = Inherits d) as Hname by exact (Hkeys _ _ Hparent).
    apply IH; [by rewrite Hname|]. rewrite Hname. intros s [x Hs].
    destruct (decide (Name d = s)) as [<-|Hne]; [by apply tc_once|].
    rewrite lookup_insert_ne in Hs; [|done].
    eapply tc_r; [|exact Hedge]. apply Hanc. by eexists.
  - destruct (Hres _ _ Hd Hext) as [? ?]. congruence.
Qed.

Lemma verifyAll_nil fuel order defs :
  (∀ k d, (k, d) ∈ order → verifyDependencies fuel d defs None = Some None) →
  verifyAll fuel order defs = Some None.
Proof.
  induction order as [|[k d] order IH]; intros Hall; [done|]. simpl.
  rewrite (Hall k d); [|by left]. apply IH. intros k' d' Hin.
  apply (Hall k'). by right.
Qed.

Lemma verifyAll_nil_inv fuel order defs k d :
  verifyAll fuel order defs = Some None →
  (k, d) ∈ order →
  verifyDependencies fuel d defs None = Some None.
Proof.
  induction order as [|[k' d'] order IH]; intros Hall Hin; [by inversion Hin|].
  simpl in Hall.
  destruct (verifyDependencies fuel d' defs None) as [[err|]|] eqn:Hd'; [done| |done].
  apply elem_of_cons in Hin as [[= -> ->]|Hin]; [done|by apply IH].
Qed.

(** C1. In a definition set where [A] inherits from [B] and [B] from [A],
    the validation started on [A] with an empty stack, as
    [BuildAllDefinitions] starts it, fails with the cyclic dependency
    error (the one raised at [B]), and so does the validation started on
    [B] (raised at [A]). *)
Theorem verifyDependencies_two_cycle defs A B fuel :
  defs !! Name A = Some A →
  defs !! Name B = Some B →
  inherits_from defs (Name A) (Name B) →
  inherits_from defs (Name B) (Name A) →
  1 < fuel →
  verifyDependencies fuel A defs None = Some (Some (ErrCyclical (Name B)))
  ∧ verifyDependencies fuel B defs None = Some (Some (ErrCyclical (Name A))).
Proof.
  intros HA HB (a & Ha & HextA & HAB) (b & Hb & HextB & HBA) Hfuel.
  assert (a = A) as -> by congruence. assert (b = B) as -> by congruence.
  assert (∀ X Y : ImageDefinition,
            defs !! Name Y = Some Y → is_external (Inherits X) = false →
            is_external (Inherits Y) = false →
            Inherits X = Name Y → Inherits Y = Name X →
            verifyDependencies fuel X defs None
            = Some (Some (ErrCyclical (Name Y)))) as Hwalk.
  { intros X Y HY HextX HextY HXY HYX.
    destruct fuel as [|[|fuel]]; [lia..|].
    rewrite verifyDependencies_nil_stack, verifyDependencies_unfold.
    unfold is_external in HextX. rewrite HextX.
    destruct (decide _) as [[? Hin]|_]; [by rewrite lookup_empty in Hin|].
    rewrite HXY, HY. apply verifyDependencies_stacked; [done|].
    rewrite HYX, lookup_insert_eq. by eexists. }
  split; by apply Hwalk.
Qed.

(** C3. An image whose parent is not marked external and is not a
    definition of the set fails validation with the error that carries the
    name of the image and the name of the missing parent, and whose text
    spells out both; the loop of [BuildAllDefinitions] over a set with
    such an image does not end without error. *)
Theorem verifyDependencies_missing_parent defs d fuel :
  is_external (Inherits d) = false →
  defs !! Inherits d = None →
  0 < fuel →
  verifyDependencies fuel d defs None
  = Some (Some (ErrMissingParent (Name d) (Inherits d)))
  ∧ Error (ErrMissingParent (Name d) (Inherits d))
    = "Image defintion " +:+ Name d +:+ " inherits from " +:+ Inherits d
      +:+ ", which doesn't exist"
  ∧ ∀ k order, (k, d) ∈ order → verifyAll fuel order defs ≠ Some None.
Proof.
  intros Hext Hmissing Hfuel.
  assert (verifyDependencies fuel d defs None
          = Some (Some (ErrMissingParent (Name d) (Inherits d)))) as Hfail.
  { destruct fuel as [|fuel]; [lia|].
    rewrite verifyDependencies_nil_stack, verifyDependencies_unfold.
    unfold is_external in Hext. rewrite Hext.
    destruct (decide _) as [[? Hin]|_]; [by rewrite lookup_empty in Hin|].
    by rewrite Hmissing. }
  split; [done|]. split; [done|].
  intros k order Hin Hall.
  pose proof (verifyAll_nil_inv _ _ _ _ _ Hall Hin). congruence.
Qed.

(** The validation of an image of the set, started as [BuildAllDefinitions]
    starts it, returns within one invocation per definition and one more. *)
Lemma verifyDependencies_returns defs d :
  well_keyed defs →
  defs !! Name d = Some d →
  ∃ r, ∀ fuel, size defs < fuel → verifyDependencies fuel d defs None = Some r.
Proof.
  intros Hkeys Hd.
  destruct (verifyDependencies_terminates_fresh defs Hkeys (S (size defs)) d ∅)
    as [r Hr]; [done|done| |].
  { rewrite dom_empty_L, difference_empty_L, size_dom. lia. }
  exists r. intros fuel Hfuel. rewrite verifyDependencies_nil_stack.
  eapply verifyDependencies_fuel_mono; [|exact Hr]. lia.
Qed.

(** C10. On a definition set keyed by name, as [BuildAllDefinitions] builds
    it, the validation of any of its images returns, cycles or not, and
    returns the same for every fuel above the number of definitions: the
    invocation from [BuildAllDefinitions] recurses at most once per
    definition.  From any other starting image and any stack it returns as
    well, within two more invocations. *)
Theorem verifyDependencies_terminates defs :
  well_keyed defs →
  (∀ d, defs !! Name d = Some d →
        ∃ r, ∀ fuel, size defs < fuel →
                     verifyDependencies fuel d defs None = Some r)
  ∧ (∀ d st, ∃ r, ∀ fuel, size defs + 2 < fuel →
                          verifyDependencies fuel d defs st = Some r).
Proof.
  intros Hkeys. split.
  - intros d Hd. by apply verifyDependencies_returns.
  - intros d st.
    assert (is_Some (verifyDependencies (size defs + 3) d defs st)) as [r Hr].
    { replace (size defs + 3) with (S (S (S (size defs)))) by lia.
      destruct st as [stack|];
        [|rewrite verifyDependencies_nil_stack; generalize (∅ : gmap string bool);
          intros stack];
        rewrite verifyDependencies_unfold.
      all: destruct (HasPrefix _ _); [by eexists|].
      all: destruct (decide _); [by eexists|].
      all: destruct (defs !! Inherits d) as [parent|] eqn:Hparent; [|by eexists].
      all: apply verifyDependencies_terminates_member; [done| |lia].
      all: by rewrite (Hkeys _ _ Hparent). }
    exists r. intros fuel Hfuel.
    eapply verifyDependencies_fuel_mono; [|exact Hr]. lia.
Qed.

(** The hypothesis on the keys is needed: on a map that holds a definition
    under another name than its own the walk can go round for ever. *)
Remark verifyDependencies_ill_keyed_loops fuel :
  let d := mkImageDefinition "x" EmptyString EmptyString "a" in
  verifyDependencies fuel d {["a" := d]} None = None.
Proof.
  intros d. rewrite verifyDependencies_nil_stack.
  assert (∀ stack : gmap string bool,
            stack !! "a" = None →
            verifyDependencies fuel d {["a" := d]} (Some stack) = None) as Hloop.
  { induction fuel as [|fuel IH]; intros stack Hstack; [done|].
    rewrite verifyDependencies_unfold.
    change (HasPrefix (Inherits d) "external:") with false.
    cbn iota. change (Inherits d) with "a". change (Name d) with "x".
    destruct (decide _) as [[? Hin]|_]; [congruence|].
    rewrite lookup_singleton_eq. apply IH. by rewrite lookup_insert_ne. }
  by apply Hloop.
Qed.

End VerifyDependencies.

(** ** Reading the definitions *)

Section BuildDefinitions.

Import Images.

Variable ExpandPath : string → string.
Variable path_Join : string → string → string.
Variable DirectoryExists : string → bool.
Variable FileExists : string → bool.
Variable GetChildDirectories : string → result (list string).
Variable ReadFile : string → result string.
Variable json_field : string → string → result (option string).
Variable range : gmap string ImageDefinition → list (string * ImageDefinition).

(** Whatever the order, [range] yields the entries of the map. *)
Hypothesis range_perm : ∀ m, range m ≡ₚ map_to_list m.

#[local] Abbreviation loadImageConfiguration :=
  (loadImageConfiguration path_Join FileExists ReadFile json_field).
#[local] Abbreviation BuildDefinition :=
  (BuildDefinition ExpandPath path_Join DirectoryExists FileExists ReadFile json_field).
#[local] Abbreviation loadDefinitions :=
  (loadDefinitions ExpandPath path_Join DirectoryExists FileExists ReadFile json_field).
#[local] Abbreviation BuildAllDefinitions :=
  (BuildAllDefinitions ExpandPath path_Join DirectoryExists FileExists
     GetChildDirectories ReadFile json_field range).

Lemma is_empty_true s : is_empty s = true ↔ s = EmptyString.
Proof. by destruct s. Qed.

Lemma loadImageConfiguration_Ok image cfg :
  loadImageConfiguration image = Ok cfg → cfg_Inherits cfg ≠ EmptyString.
Proof.
  unfold Images.loadImageConfiguration.
  destruct (negb _); [done|]. destruct (ReadFile _); [|done].
  destruct (json_Unmarshal _ _ _) as [cfg'|]; [|done].
  destruct (is_empty _) eqn:Hempty; [done|]. intros [= <-].
  intros Heq%is_empty_true. congruence.
Qed.

Lemma BuildDefinition_Ok imageName imagesDir d :
  BuildDefinition imageName imagesDir = Ok d →
  Name d = imageName ∧ Inherits d ≠ EmptyString.
Proof.
  unfold Images.BuildDefinition.
  destruct (is_empty imageName); [done|]. destruct (is_empty imagesDir); [done|].
  destruct (negb _); [done|].
  destruct (loadImageConfiguration _) as [cfg|] eqn:Hcfg; [|done].
  intros [= <-]. split; [done|]. by eapply loadImageConfiguration_Ok.
Qed.

(** The first loop of [BuildAllDefinitions] files every definition under
    its name. *)
Lemma loadDefinitions_well_keyed imageNames imagesDir acc defs :
  well_keyed acc →
  loadDefinitions imageNames imagesDir acc = Ok defs →
  well_keyed defs.
Proof.
  revert acc. induction imageNames as [|imageName imageNames IH]; intros acc Hacc.
  - by intros [= <-].
  - simpl. destruct (BuildDefinition _ _) as [d|] eqn:Hd; [|done].
    apply IH. apply map_Forall_insert_2; [|done].
    by apply BuildDefinition_Ok in Hd as [? _].
Qed.

(** C2. In a definition set keyed by name in which no image is its own
    ancestor and every parent that is not external is a definition of the
    set, the validation of every image returns [nil]; and when this set is
    what the first loop of [BuildAllDefinitions] read from the image
    directory, [BuildAllDefinitions] returns the whole set and no error. *)
Theorem valid_definitions_verify defs fuel :
  well_keyed defs → acyclic defs → resolvable defs →
  size defs < fuel →
  (∀ k d, defs !! k = Some d →
          verifyDependencies fuel d defs None = Some None)
  ∧ (∀ imagesDir imageNames,
       is_empty imagesDir = false →
       GetChildDirectories imagesDir = Ok imageNames →
       loadDefinitions imageNames imagesDir ∅ = Ok defs →
       BuildAllDefinitions fuel imagesDir = Some (Ok defs)).
Proof.
  intros Hkeys Hacyclic Hres Hfuel.
  assert (∀ k d, defs !! k = Some d →
                 verifyDependencies fuel d defs None = Some None) as Hall.
  { intros k d Hd. assert (Name d = k) as <- by exact (Hkeys _ _ Hd).
    destruct (verifyDependencies_returns defs d Hkeys Hd) as [r Hr].
    rewrite (Hr fuel Hfuel). f_equal.
    specialize (Hr fuel Hfuel). rewrite verifyDependencies_nil_stack in Hr.
    eapply verifyDependencies_valid_walk; [done..| |exact Hr].
    intros s [? Hs]. by rewrite lookup_empty in Hs. }
  split; [done|].
  intros imagesDir imageNames Hdir Hnames Hload.
  unfold Images.BuildAllDefinitions. rewrite Hdir, Hnames, Hload.
  rewrite verifyAll_nil; [done|].
  intros k d Hin. apply (Hall k).
  apply elem_of_map_to_list. by rewrite <- (range_perm defs).
Qed.

(** C6. [BuildDefinition] returns an error when the directory of the image
    does not exist and when the directory has no [config.json]; when the
    manifest decodes and its [inherits] is missing or empty, the error is
    the one about the missing [inherit] property; and a definition it
    returns never has an empty [Inherits]. *)
Theorem BuildDefinition_requires_parent imageName imagesDir :
  let imageDir := path_Join (ExpandPath imagesDir) imageName in
  let config := path_Join imageDir "config.json" in
  (DirectoryExists imageDir = false →
     (∃ err, BuildDefinition imageName imagesDir = Err err)
     ∧ (is_empty imageName = false → is_empty imagesDir = false →
        BuildDefinition imageName imagesDir = Err (ErrImageDirMissing imageDir)))
  ∧ (FileExists config = false →
     (∃ err, BuildDefinition imageName imagesDir = Err err)
     ∧ (is_empty imageName = false → is_empty imagesDir = false →
        DirectoryExists imageDir = true →
        BuildDefinition imageName imagesDir = Err (ErrNoConfiguration config)))
  ∧ (∀ data,
       is_empty imageName = false → is_empty imagesDir = false →
       DirectoryExists imageDir = true → FileExists config = true →
       ReadFile config = Ok data →
       json_field data "inherits" = Ok None
       ∨ json_field data "inherits" = Ok (Some EmptyString) →
       BuildDefinition imageName imagesDir = Err (ErrNoInherit imageName))
  ∧ (∀ d, BuildDefinition imageName imagesDir = Ok d →
          Inherits d ≠ EmptyString).
Proof.
  intros imageDir config.
  split; [|split; [|split]].
  - intros Hdir. unfold Images.BuildDefinition. fold imageDir. rewrite Hdir.
    cbn [negb]. split.
    + destruct (is_empty imageName); [by eexists|].
      destruct (is_empty imagesDir); by eexists.
    + by intros -> ->.
  - intros Hfile. unfold Images.BuildDefinition, Images.loadImageConfiguration.
    cbn [ImageDir]. fold imageDir. fold config. rewrite Hfile. cbn [negb].
    split.
    + destruct (is_empty imageName); [by eexists|].
      destruct (is_empty imagesDir); [by eexists|].
      destruct (negb (DirectoryExists imageDir)); by eexists.
    + by intros -> -> ->.
  - intros data Hname Himages Hdir Hfile Hread Hjson.
    unfold Images.BuildDefinition, Images.loadImageConfiguration, json_Unmarshal.
    cbn [ImageDir Name]. fold imageDir. fold config.
    rewrite Hname, Himages, Hdir, Hfile, Hread.
    by destruct Hjson as [-> | ->].
  - intros d Hd. by apply BuildDefinition_Ok in Hd as [_ ?].
Qed.

End BuildDefinitions.

(** ** Histories of computations *)

Section RunLaws.

Context {S E : Type}.

Lemma bind_result {A A'} (m : Run S E A) (k : A → Run S E A') s :
  result_of (bind m k s) = result_of (k (result_of (m s)) (state_of (m s))).
Proof.
  unfold bind, result_of, state_of. destruct (m s) as [[a s1] evs1]. simpl.
  by destruct (k a s1) as [[a' s2] evs2].
Qed.

Lemma bind_state {A A'} (m : Run S E A) (k : A → Run S E A') s :
  state_of (bind m k s) = state_of (k (result_of (m s)) (state_of (m s))).
Proof.
  unfold bind, result_of, state_of. destruct (m s) as [[a s1] evs1]. simpl.
  by destruct (k a s1) as [[a' s2] evs2].
Qed.

Lemma bind_events {A A'} (m : Run S E A) (k : A → Run S E A') s :
  events_of (bind m k s)
  = events_of (m s) ++ events_of (k (result_of (m s)) (state_of (m s))).
Proof.
  unfold bind, result_of, state_of, events_of.
  destruct (m s) as [[a s1] evs1]. simpl.
  by destruct (k a s1) as [[a' s2] evs2].
Qed.

Lemma ret_state {A} (a : A) (s : S) : state_of (ret (E:=E) a s) = s.
Proof. done. Qed.

Lemma ret_events {A} (a : A) (s : S) : events_of (ret (E:=E) a s) = [].
Proof. done. Qed.

Lemma run_eta {A} (out : A * S * list E) :
  out = (result_of out, state_of out, events_of out).
Proof. by destruct out as [[? ?] ?]. Qed.

End RunLaws.

(** ** The parents of a path *)

Section Parents.

Import Images.

Lemma drop_while_length {A} (f : A → bool) (l : list A) :
  length (drop_while f l) ≤ length l.
Proof.
  induction l as [|x l IH]; [done|]. cbn [drop_while].
  destruct (f x); cbn [length]; lia.
Qed.

Lemma string_of_list_ascii_length l :
  String.length (String.string_of_list_ascii l) = length l.
Proof. induction l as [|c l IH]; [done|]. cbn. by rewrite IH. Qed.

Lemma list_ascii_of_string_length s :
  length (String.list_ascii_of_string s) = String.length s.
Proof. induction s as [|c s IH]; [done|]. cbn. by rewrite IH. Qed.

(** The parent [os.MkdirAll] recurses on is shorter than the path, so its
    recursion ends, and [ancestors] lists every parent. *)
Lemma parent_dir_shorter path parent :
  parent_dir path = Some parent → String.length parent < String.length path.
Proof.
  unfold parent_dir.
  pose proof (drop_while_length (λ c, negb (is_separator c))
                (drop_while is_separator
                   (reverse (String.list_ascii_of_string path)))) as Hlen1.
  pose proof (drop_while_length is_separator
                (reverse (String.list_ascii_of_string path))) as Hlen2.
  rewrite length_reverse, list_ascii_of_string_length in Hlen2.
  destruct (drop_while (λ c, negb (is_separator c)) _) as [|c [|c' up]]; [done..|].
  intros [= <-]. rewrite string_of_list_ascii_length, length_reverse.
  cbn [length] in *. lia.
Qed.

Lemma ancestors_upto_enough n path :
  String.length path ≤ n → ancestors_upto n path = ancestors path.
Proof.
  unfold ancestors.
  assert (∀ n m path, String.length path ≤ n → String.length path ≤ m →
                      ancestors_upto n path = ancestors_upto m path) as Hsame.
  { clear. induction n as [|n IH]; intros m path Hn Hm.
    - destruct path; [|cbn in Hn; lia]. by destruct m.
    - destruct m as [|m].
      { destruct path; [done|cbn in Hm; lia]. }
      cbn [ancestors_upto].
      destruct (parent_dir path) as [parent|] eqn:Hparent; [|done].
      apply parent_dir_shorter in Hparent. f_equal. apply IH; lia. }
  intros Hn. by apply Hsame.
Qed.

End Parents.

(** ** Files written over a cleaned directory *)

Section Writes.

Import Images.

(** Writes that fall on the same paths hide what was there before. *)
Lemma apply_writes_lookup_ne ws (m : gmap string string) p :
  p ∉ ws.*1 → apply_writes ws m !! p = m !! p.
Proof.
  revert m. induction ws as [|[p' c] ws IH]; intros m Hp; [done|].
  cbn in *. apply not_elem_of_cons in Hp as [Hne Hp].
  unfold apply_writes in IH. rewrite IH; [|done]. by apply lookup_insert_ne.
Qed.




End Writes.

(** ** The docker command line *)

Section DockerProperties.

Import Images.

Context {B : Type}.
Variable exec_Run : string → list string → B → option error * B.
Variable docker_cp : string → B → result string * B.
Variable MkdirAll_fault : string → B → option error * B.
Variable CleanDirectory_fault : string → B → option error * B.
Variable inside : string → string → bool.
Variable path_Join : string → string → string.
Variable range_env : gmap string string → list (string * string).

#[local] Abbreviation runCommand := (runCommand exec_Run docker_cp).
#[local] Abbreviation destroyContainer := (destroyContainer exec_Run docker_cp).
#[local] Abbreviation step := (step exec_Run docker_cp).
#[local] Abbreviation tag_loop := (tag_loop exec_Run docker_cp).
#[local] Abbreviation chain := (chain exec_Run docker_cp).
#[local] Abbreviation ensure_dir := (ensure_dir MkdirAll_fault).
#[local] Abbreviation MkdirAll := (MkdirAll MkdirAll_fault).
#[local] Abbreviation mkdirs := (mkdirs MkdirAll_fault).
#[local] Abbreviation CleanDirectory := (CleanDirectory CleanDirectory_fault inside).
#[local] Abbreviation BuildImageLayer :=
  (BuildImageLayer exec_Run docker_cp MkdirAll_fault range_env).
#[local] Abbreviation ExtractImage_steps := (ExtractImage_steps path_Join).
#[local] Abbreviation ExtractImage :=
  (ExtractImage exec_Run docker_cp MkdirAll_fault CleanDirectory_fault inside path_Join).

Implicit Types (w : World B) (evs : list event) (args : list string).

(** What one docker command leaves in the history and on the host. *)
Lemma runCommand_docker args w :
  let out := runCommand "docker" args w in
  results (events_of out) = [(args, result_of out)]
  ∧ destroyed (events_of out) = []
  ∧ files (state_of out) = apply_writes (written (events_of out)) (files w)
  ∧ dirs (state_of out) = dirs w.
Proof.
  unfold Images.runCommand.
  destruct args as [|sub [|src [|dst [|? ?]]]];
    try (destruct (exec_Run _ _ _) as [res b]; by cbn).
  destruct (decide _) as [[_ ->]|_].
  - destruct (docker_cp _ _) as [[content|err] b]; by cbn.
  - destruct (exec_Run _ _ _) as [res b]; by cbn.
Qed.

Lemma destroyContainer_history containerName w :
  let out := destroyContainer containerName w in
  destroyed (events_of out) = [containerName]
  ∧ ((∃ err, results (events_of out) = [(["stop"; containerName], Some err)]
             ∧ result_of out = Some err)
     ∨ results (events_of out)
       = [(["stop"; containerName], None);
          (["rm"; containerName], result_of out)])
  ∧ written (events_of out) = []
  ∧ files (state_of out) = files w
  ∧ dirs (state_of out) = dirs w.
Proof.
  unfold Images.destroyContainer, Images.runCommand, bind, emit, ret.
  destruct (exec_Run "docker" ["stop"; containerName] _) as [[e|] b]; cbn.
  { repeat split; eauto. }
  destruct (exec_Run "docker" ["rm"; containerName] _) as [[e|] b'];
    cbn; repeat split; auto.
Qed.

Lemma step_chain tmpImageName k steps w :
  chain tmpImageName k steps w (foldr (step tmpImageName) k steps w).
Proof.
  revert w. induction steps as [|args steps IH]; intros w; [constructor|].
  cbn [foldr]. unfold Images.step at 1.
  rewrite (run_eta (bind _ _ w)), bind_result, bind_state, bind_events.
  destruct (result_of (runCommand "docker" args w)) as [err|] eqn:Hres.
  - rewrite bind_result, bind_state, bind_events. cbn.
    rewrite app_nil_r. by apply chain_abort.
  - by apply chain_next.
Qed.

Lemma tag_loop_foldr imageDefinition buildPrefix tmpImageName tags k :
  tag_loop imageDefinition buildPrefix tmpImageName tags k
  = foldr (step tmpImageName) k
      (map (λ tag, ["tag"; Name imageDefinition;
                    buildPrefix +:+ Name imageDefinition +:+ ":" +:+ tag]) tags).
Proof. induction tags as [|tag tags IH]; [done|]. cbn. by rewrite IH. Qed.

(** *** Reading a history in pieces *)

Lemma destroyed_app evs1 evs2 :
  destroyed (evs1 ++ evs2) = destroyed evs1 ++ destroyed evs2.
Proof. apply omap_app. Qed.

Lemma results_app evs1 evs2 :
  results (evs1 ++ evs2) = results evs1 ++ results evs2.
Proof. apply omap_app. Qed.

Lemma failed_steps_app evs1 evs2 :
  failed_steps (evs1 ++ evs2) = failed_steps evs1 ++ failed_steps evs2.
Proof. unfold failed_steps. by rewrite results_app, omap_app. Qed.

Lemma started_app evs1 evs2 :
  started (evs1 ++ evs2) = started evs1 ++ started evs2.
Proof.
  unfold started, commands. by rewrite results_app, fmap_app, filter_app.
Qed.

Lemma written_app evs1 evs2 :
  written (evs1 ++ evs2) = written evs1 ++ written evs2.
Proof. apply omap_app. Qed.

Lemma apply_writes_app ws1 ws2 m :
  apply_writes (ws1 ++ ws2) m = apply_writes ws2 (apply_writes ws1 m).
Proof. apply foldl_app. Qed.

Lemma runCommand_failed_steps args w :
  failed_steps (events_of (runCommand "docker" args w))
  = if is_build_step args
    then option_list (result_of (runCommand "docker" args w)) else [].
Proof.
  destruct (runCommand_docker args w) as (Hres & _). unfold failed_steps.
  rewrite Hres. cbn. destruct (is_build_step args); [|done].
  by destruct (result_of _).
Qed.

Lemma runCommand_started args w :
  started (events_of (runCommand "docker" args w))
  = if decide (head args = Some "run") then [args] else [].
Proof.
  destruct (runCommand_docker args w) as (Hres & _). unfold started, commands.
  rewrite Hres. change ([(args, result_of (runCommand "docker" args w))].*1)
    with [args].
  rewrite filter_cons, filter_nil. by destruct (decide _).
Qed.

Lemma destroyContainer_failed_steps containerName w :
  failed_steps (events_of (destroyContainer containerName w)) = [].
Proof.
  destruct (destroyContainer_history containerName w)
    as (_ & [(err & Hres & _)|Hres] & _); unfold failed_steps; by rewrite Hres.
Qed.

Lemma destroyContainer_started containerName w :
  started (events_of (destroyContainer containerName w)) = [].
Proof.
  destruct (destroyContainer_history containerName w)
    as (_ & [(err & Hres & _)|Hres] & _); unfold started, commands;
    by rewrite Hres.
Qed.

(** *** Teardown *)

(** A chain that ends in the teardown destroys the container once, and
    when one of its build steps failed, that failure is the only one and
    is what the chain returns. *)
Lemma chain_teardown tmpImageName steps w out :
  chain tmpImageName (destroyContainer tmpImageName) steps w out →
  destroyed (events_of out) = [tmpImageName]
  ∧ (failed_steps (events_of out) = []
     ∨ ∃ err, failed_steps (events_of out) = [err] ∧ result_of out = Some err).
Proof.
  induction 1 as [w|args steps w out Hok _ [IHd IHf]|args steps w err failed cleanup Herr].
  - split; [apply destroyContainer_history|].
    left. apply destroyContainer_failed_steps.
  - cbn [events_of result_of fst snd].
    rewrite destroyed_app, failed_steps_app, runCommand_failed_steps, Hok.
    destruct (runCommand_docker args w) as (_ & -> & _).
    split; [done|]. by destruct (is_build_step args).
  - cbn [events_of result_of fst snd]. subst failed cleanup.
    rewrite destroyed_app, failed_steps_app, runCommand_failed_steps, Herr.
    rewrite destroyContainer_failed_steps.
    destruct (runCommand_docker args w) as (_ & -> & _).
    split; [apply destroyContainer_history|].
    destruct (is_build_step args); [right; by exists err|by left].
Qed.

Lemma absent_prefix_elem existing chain d :
  d ∈ absent_prefix existing chain → d ∈ chain.
Proof.
  induction chain as [|c chain IH]; [done|]. cbn [absent_prefix].
  destruct (bool_decide (c ∈ existing)); [by intros ?%elem_of_nil|].
  intros [->|?]%elem_of_cons; [by left|right; by apply IH].
Qed.

Lemma mkdirs_dirs todo made b :
  let out := mkdirs todo made b in
  (∀ d, d ∈ made → d ∈ out.1.2)
  ∧ (∀ d, d ∈ out.1.2 → d ∈ made ∨ d ∈ todo)
  ∧ (out.1.1 = None → ∀ d, d ∈ todo → d ∈ out.1.2).
Proof.
  revert made b. induction todo as [|c todo IH]; intros made b; cbn [Images.mkdirs].
  { cbn. split; [done|]. split; [by left|]. by intros _ d ?%elem_of_nil. }
  destruct (MkdirAll_fault c b) as [[err|] b'].
  { cbn. split; [done|]. split; [by left|done]. }
  destruct (IH ({[c]} ∪ made) b') as (Hkept & Hmade & Hall). split; [|split].
  - intros d Hd. apply Hkept, elem_of_union. by right.
  - intros d [[->%elem_of_singleton|?]%elem_of_union|?]%Hmade; [right; by left|by left|].
    right. by right.
  - intros Hres d [->|Hd]%elem_of_cons; [|by apply Hall].
    apply Hkept, elem_of_union. left. by apply elem_of_singleton.
Qed.

(** [os.MkdirAll] leaves one event, keeps the files and the directories
    there were, makes none but the path and its parents, and has made the
    path when it succeeds. *)
Lemma MkdirAll_cases path w :
  ∃ res w1,
    MkdirAll path w = (res, w1, [EvMkdirAll path res])
    ∧ files w1 = files w
    ∧ grown_by path (dirs w) (dirs w1)
    ∧ (res = None → path ∈ dirs w1).
Proof.
  unfold Images.MkdirAll.
  pose proof (mkdirs_dirs (reverse (absent_prefix (dirs w) (path :: ancestors path)))
                (dirs w) (backend w)) as Hdirs.
  cbv zeta in Hdirs.
  destruct (mkdirs _ _ _) as [[res made] b]. cbn [fst snd] in Hdirs.
  destruct Hdirs as (Hkept & Hmade & Hall).
  exists res, (mkWorld (files w) made b). split; [done|]. split; [done|].
  split; [split|].
  - exact Hkept.
  - intros d [?|Hd%elem_of_reverse%absent_prefix_elem]%Hmade; [by left|by right].
  - intros Hres. destruct (decide (path ∈ dirs w)) as [Hin|Hnot]; [by apply Hkept|].
    apply (Hall Hres), elem_of_reverse. cbn [absent_prefix].
    rewrite bool_decide_eq_false_2; [by left|done].
Qed.

(** The two ways out of [ensure_dir]: the directory could not be made, or
    [k] runs on a host where it exists and where only it and its parents
    may be new. *)
Lemma ensure_dir_cases path (k : M B (option error)) w :
  (∃ err w1,
     (path ∉ dirs w)
     ∧ ensure_dir path k w = (Some err, w1, [EvMkdirAll path (Some err)])
     ∧ files w1 = files w
     ∧ grown_by path (dirs w) (dirs w1))
  ∨ (∃ pre w1,
       ensure_dir path k w
       = (result_of (k w1), state_of (k w1), pre ++ events_of (k w1))
       ∧ files w1 = files w
       ∧ path ∈ dirs w1
       ∧ grown_by path (dirs w) (dirs w1)
       ∧ (pre = [] ∧ path ∈ dirs w ∧ w1 = w
          ∨ pre = [EvMkdirAll path None] ∧ path ∉ dirs w)).
Proof.
  unfold Images.ensure_dir, Images.DirectoryExists, bind, ret.
  destruct (bool_decide (path ∈ dirs w)) eqn:Hdir.
  - apply bool_decide_eq_true in Hdir. right. exists [], w.
    destruct (k w) as [[r w2] evs2]. cbn.
    split; [done|]. split; [done|]. split; [done|].
    split; [split; [done|by left]|]. by left.
  - apply bool_decide_eq_false in Hdir.
    destruct (MkdirAll_cases path w) as (res & w1 & Hrun & Hfiles & Hgrown & Hmade).
    rewrite Hrun. destruct res as [err|].
    + left. by exists err, w1.
    + right. exists [EvMkdirAll path None], w1.
      destruct (k w1) as [[r w2] evs2]. cbn.
      split; [done|]. split; [done|]. split; [by apply Hmade|].
      split; [done|]. by right.
Qed.

(** [BuildImageLayer], with its steps between start and teardown as the
    list they form. *)
Lemma BuildImageLayer_unfold imageDefinition tags buildPrefix packageCache
    environmentVariables :
  let tmpImageName := BuildImageLayer_tmpImageName imageDefinition in
  let build :=
    do err <- runCommand "docker"
                (BuildImageLayer_start imageDefinition buildPrefix packageCache) in
    match err with
    | Some _ => ret err
    | None =>
        foldr (step tmpImageName) (destroyContainer tmpImageName)
          (BuildImageLayer_steps range_env imageDefinition tags buildPrefix
             packageCache environmentVariables)
    end in
  BuildImageLayer imageDefinition tags buildPrefix packageCache environmentVariables
  = if is_empty packageCache then build else ensure_dir packageCache build.
Proof.
  unfold Images.BuildImageLayer, BuildImageLayer_steps, BuildImageLayer_start.
  rewrite tag_loop_foldr. rewrite !foldr_app.
  by destruct (is_empty packageCache).
Qed.

(** C4. In any run of [BuildImageLayer], for any outcome of its commands: if
    a step between the start of the container and its teardown failed
    ([docker exec], [docker commit] or [docker tag]), then
    [destroyContainer] was entered exactly once, on the container of the
    build, and the function returns the error of that step, whatever the
    teardown itself answered. *)
Theorem BuildImageLayer_teardown imageDefinition tags buildPrefix packageCache
    environmentVariables w err :
  let out := BuildImageLayer imageDefinition tags buildPrefix packageCache
               environmentVariables w in
  err ∈ failed_steps (events_of out) →
  result_of out = Some err
  ∧ destroyed (events_of out) = [BuildImageLayer_tmpImageName imageDefinition].
Proof.
  intros out. subst out. rewrite BuildImageLayer_unfold.
  set (tmpImageName := BuildImageLayer_tmpImageName imageDefinition).
  set (start := BuildImageLayer_start _ _ _).
  set (steps := BuildImageLayer_steps _ _ _ _ _ _).
  set (build := bind _ _).
  assert (∀ w1, err ∈ failed_steps (events_of (build w1)) →
                result_of (build w1) = Some err
                ∧ destroyed (events_of (build w1)) = [tmpImageName]) as Hbuild.
  { intros w1. unfold build.
    rewrite bind_result, bind_events, failed_steps_app, destroyed_app.
    rewrite runCommand_failed_steps.
    destruct (runCommand_docker start w1) as (_ & -> & _).
    change (is_build_step start) with false.
    destruct (result_of (runCommand "docker" start w1)) as [e|].
    { cbn. by intros ?%elem_of_nil. }
    destruct (chain_teardown _ _ _ _ (step_chain tmpImageName
                (destroyContainer tmpImageName) steps
                (state_of (runCommand "docker" start w1))))
      as [-> [-> | (e & -> & ->)]].
    - by intros ?%elem_of_nil.
    - by intros ->%list_elem_of_singleton. }
  assert (∀ w1, err ∈ failed_steps (events_of (ensure_dir packageCache build w1)) →
                result_of (ensure_dir packageCache build w1) = Some err
                ∧ destroyed (events_of (ensure_dir packageCache build w1))
                  = [tmpImageName]) as Hensure.
  { intros w1.
    destruct (ensure_dir_cases packageCache build w1)
      as [(e & b & _ & -> & _)|(pre & w2 & -> & _ & _ & _ & Hpre)].
    { cbn. by intros ?%elem_of_nil. }
    cbn [events_of result_of fst snd].
    rewrite failed_steps_app, destroyed_app.
    destruct Hpre as [[-> _]|[-> _]]; apply Hbuild. }
  destruct (is_empty packageCache); [apply Hbuild|apply Hensure].
Qed.

(** *** Extraction into a directory *)

Lemma chain_writes tmpImageName steps w out :
  chain tmpImageName (destroyContainer tmpImageName) steps w out →
  files (state_of out) = apply_writes (written (events_of out)) (files w)
  ∧ dirs (state_of out) = dirs w.
Proof.
  induction 1 as [w|args steps w out Hok _ [IHf IHd]|args steps w err failed cleanup Herr].
  - destruct (destroyContainer_history tmpImageName w) as (_ & _ & -> & -> & ->).
    done.
  - cbn [events_of state_of fst snd].
    destruct (runCommand_docker args w) as (_ & _ & Hf & Hd).
    by rewrite written_app, apply_writes_app, <- Hf, IHf, IHd, Hd.
  - cbn [events_of state_of fst snd]. subst failed cleanup.
    destruct (runCommand_docker args w) as (_ & _ & Hf & Hd).
    destruct (destroyContainer_history tmpImageName
                (state_of (runCommand "docker" args w)))
      as (_ & _ & Hw & -> & ->).
    by rewrite written_app, Hw, app_nil_r.
Qed.

Lemma chain_started tmpImageName steps w out :
  chain tmpImageName (destroyContainer tmpImageName) steps w out →
  Forall (λ args, head args ≠ Some "run") steps →
  started (events_of out) = [].
Proof.
  induction 1 as [w|args steps w out Hok _ IH|args steps w err failed cleanup Herr];
    intros Hsteps.
  - apply destroyContainer_started.
  - apply Forall_cons in Hsteps as [Hargs Hsteps]. cbn [events_of snd].
    rewrite started_app, runCommand_started, IH; [|done].
    by destruct (decide _).
  - apply Forall_cons in Hsteps as [Hargs Hsteps]. cbn [events_of snd].
    subst failed cleanup.
    rewrite started_app, runCommand_started, destroyContainer_started.
    by destruct (decide _).
Qed.

Lemma ExtractImage_unfold name tag destination :
  ExtractImage name tag destination
  = ensure_dir destination (
      do err <- CleanDirectory destination in
      match err with
      | Some _ => ret err
      | None =>
          do err <- runCommand "docker" (ExtractImage_start name tag) in
          match err with
          | Some _ => ret err
          | None =>
              foldr (step (ExtractImage_tmpImageName name))
                (destroyContainer (ExtractImage_tmpImageName name))
                (ExtractImage_steps name destination)
          end
      end).
Proof. reflexivity. Qed.

(** What follows the cleaning of the destination: the start of the
    container and, when it started, the chain of steps. *)
Lemma ExtractImage_container name tag destination w :
  let tmpImageName := ExtractImage_tmpImageName name in
  let out :=
    (do err <- runCommand "docker" (ExtractImage_start name tag) in
     match err with
     | Some _ => ret err
     | None =>
         foldr (step tmpImageName) (destroyContainer tmpImageName)
           (ExtractImage_steps name destination)
     end) w in
  files (state_of out) = apply_writes (written (events_of out)) (files w)
  ∧ dirs (state_of out) = dirs w
  ∧ started (events_of out) = [ExtractImage_start name tag].
Proof.
  intros tmpImageName out. subst out.
  rewrite bind_state, bind_events, written_app, apply_writes_app, started_app.
  rewrite runCommand_started.
  destruct (runCommand_docker (ExtractImage_start name tag) w) as (_ & _ & Hf & Hd).
  rewrite <- Hf.
  destruct (result_of (runCommand "docker" (ExtractImage_start name tag) w)).
  { by rewrite ret_state, ret_events, Hd. }
  pose proof (step_chain tmpImageName (destroyContainer tmpImageName)
                (ExtractImage_steps name destination)
                (state_of (runCommand "docker" (ExtractImage_start name tag) w)))
    as Hchain.
  destruct (chain_writes _ _ _ _ Hchain) as [-> ->].
  rewrite (chain_started _ _ _ _ Hchain); [by rewrite Hd|].
  unfold Images.ExtractImage_steps. by repeat constructor.
Qed.

Lemma CleanDirectory_cases path w :
  (∃ err b, CleanDirectory path w
            = (Some err, mkWorld (files w) (dirs w) b,
               [EvCleanDirectory path (Some err)]))
  ∨ (∃ b, CleanDirectory path w
          = (None,
             mkWorld (filter (λ kv, inside path kv.1 = false) (files w))
                     (filter (λ d, d = path ∨ inside path d = false) (dirs w)) b,
             [EvCleanDirectory path None])).
Proof.
  unfold Images.CleanDirectory.
  destruct (CleanDirectory_fault path (backend w)) as [[err|] b]; eauto.
Qed.

(** The runs of [ExtractImage]: the destination could not be made; it
    could not be cleaned; or it was cleaned, and the files on the host
    afterwards are those that were outside the destination with the
    files [docker cp] wrote on top.  [dirs1] are the directories once the
    destination is there. *)
Lemma ExtractImage_history name tag destination w :
  let out := ExtractImage name tag destination w in
  ((destination ∉ dirs w)
   ∧ ∃ err, events_of out = [EvMkdirAll destination (Some err)]
            ∧ result_of out = Some err
            ∧ files (state_of out) = files w
            ∧ grown_by destination (dirs w) (dirs (state_of out)))
  ∨ ∃ pre dirs1,
      (pre = [] ∧ destination ∈ dirs w ∧ dirs1 = dirs w
       ∨ pre = [EvMkdirAll destination None] ∧ destination ∉ dirs w)
      ∧ destination ∈ dirs1
      ∧ grown_by destination (dirs w) dirs1
      ∧ ((∃ err, events_of out = pre ++ [EvCleanDirectory destination (Some err)]
                 ∧ result_of out = Some err
                 ∧ files (state_of out) = files w
                 ∧ dirs (state_of out) = dirs1)
         ∨ ∃ rest,
             events_of out = pre ++ EvCleanDirectory destination None :: rest
             ∧ files (state_of out)
               = apply_writes (written rest)
                   (filter (λ kv, inside destination kv.1 = false) (files w))
             ∧ dirs (state_of out)
               = filter (λ d, d = destination ∨ inside destination d = false) dirs1
             ∧ started rest = [ExtractImage_start name tag]).
Proof.
  intros out. subst out. rewrite ExtractImage_unfold.
  set (extract := bind _ _).
  destruct (ensure_dir_cases destination extract w)
    as [(err & w1 & Hdir & -> & Hf & Hgrown)
       |(pre & w1 & -> & Hf & Hin & Hgrown & Hpre)].
  { left. split; [done|]. by exists err. }
  right. exists pre, (dirs w1). split.
  { destruct Hpre as [(-> & ? & ->)|[-> ?]]; [by left|by right]. }
  split; [done|]. split; [done|].
  cbn [events_of result_of state_of fst snd]. unfold extract.
  rewrite bind_result, bind_state, bind_events.
  destruct (CleanDirectory_cases destination w1) as [(err & b & ->)|(b & ->)].
  { left. exists err. by cbn. }
  right. cbn [events_of result_of state_of fst snd].
  eexists. split; [reflexivity|].
  match goal with |- context [bind _ _ ?w2] =>
    destruct (ExtractImage_container name tag destination w2) as (-> & -> & ->)
  end.
  cbn [files dirs]. by rewrite Hf.
Qed.

(** *** The name of the container *)

Lemma ExtractImage_started name tag destination w :
  let evs := events_of (ExtractImage name tag destination w) in
  started evs = [] ∨ started evs = [ExtractImage_start name tag].
Proof.
  intros evs. subst evs.
  destruct (ExtractImage_history name tag destination w)
    as [(_ & err & -> & _)
       |(pre & dirs1 & Hpre & _ & _
         & [(err & -> & _)|(rest & -> & _ & _ & Hrest)])].
  - by left.
  - left. by destruct Hpre as [(-> & _)|[-> _]].
  - right. rewrite started_app.
    change (EvCleanDirectory destination None :: rest)
      with ([EvCleanDirectory destination None] ++ rest).
    rewrite started_app, Hrest. by destruct Hpre as [(-> & _)|[-> _]].
Qed.

Lemma BuildImageLayer_steps_not_run imageDefinition tags buildPrefix packageCache
    environmentVariables :
  Forall (λ args, head args ≠ Some "run")
    (BuildImageLayer_steps range_env imageDefinition tags buildPrefix
       packageCache environmentVariables).
Proof.
  unfold BuildImageLayer_steps. rewrite !Forall_app. repeat split.
  - by repeat constructor.
  - destruct (is_empty packageCache); by repeat constructor.
  - by repeat constructor.
  - apply Forall_fmap, Forall_true. by intros tag.
Qed.

Lemma BuildImageLayer_started imageDefinition tags buildPrefix packageCache
    environmentVariables w :
  let evs := events_of (BuildImageLayer imageDefinition tags buildPrefix
                          packageCache environmentVariables w) in
  started evs = []
  ∨ started evs = [BuildImageLayer_start imageDefinition buildPrefix packageCache].
Proof.
  intros evs. subst evs. rewrite BuildImageLayer_unfold.
  set (tmpImageName := BuildImageLayer_tmpImageName imageDefinition).
  set (start := BuildImageLayer_start _ _ _).
  set (steps := BuildImageLayer_steps _ _ _ _ _ _).
  set (build := bind _ _).
  assert (∀ w1, started (events_of (build w1)) = [start]) as Hbuild.
  { intros w1. unfold build. rewrite bind_events, started_app, runCommand_started.
    assert (head start = Some "run") as Hhead by done.
    destruct (decide _); [|done].
    destruct (result_of (runCommand "docker" start w1)); [done|].
    rewrite (chain_started _ _ _ _ (step_chain tmpImageName _ steps _)); [done|].
    apply BuildImageLayer_steps_not_run. }
  destruct (is_empty packageCache); [right; apply Hbuild|].
  destruct (ensure_dir_cases packageCache build w)
    as [(e & b & _ & -> & _)|(pre & w2 & -> & _ & _ & _ & Hpre)]; [by left|].
  right. cbn [events_of snd]. rewrite started_app, Hbuild.
  by destruct Hpre as [[-> _]|[-> _]].
Qed.

(** *** The commands of a build *)

Lemma commands_app evs1 evs2 :
  commands (evs1 ++ evs2) = commands evs1 ++ commands evs2.
Proof. unfold commands. by rewrite results_app, fmap_app. Qed.

Lemma runCommand_commands args w :
  commands (events_of (runCommand "docker" args w)) = [args].
Proof.
  destruct (runCommand_docker args w) as (Hres & _). unfold commands.
  by rewrite Hres.
Qed.

Lemma destroyContainer_commands containerName w :
  commands (events_of (destroyContainer containerName w))
  `prefix_of` [["stop"; containerName]; ["rm"; containerName]].
Proof.
  destruct (destroyContainer_history containerName w)
    as (_ & [(err & Hres & _)|Hres] & _); unfold commands; rewrite Hres.
  - by exists [["rm"; containerName]].
  - by exists [].
Qed.

(** The commands of a chain that ends in the teardown: its steps in order,
    up to the first that fails, and then nothing but the stop and the
    removal of the container. *)
Lemma chain_commands tmpImageName steps w out :
  chain tmpImageName (destroyContainer tmpImageName) steps w out →
  ∃ cmds cleanup,
    commands (events_of out) = cmds ++ cleanup
    ∧ cmds `prefix_of` steps
    ∧ cleanup `prefix_of` [["stop"; tmpImageName]; ["rm"; tmpImageName]].
Proof.
  induction 1 as [w|args steps w out Hok _ (cmds & cleanup & Hcmds & Hpre & Hclean)
                 |args steps w err failed cleanup Herr].
  - exists [], (commands (events_of (destroyContainer tmpImageName w))).
    split; [done|]. split; [apply prefix_nil|apply destroyContainer_commands].
  - exists (args :: cmds), cleanup. cbn [events_of snd].
    rewrite commands_app, runCommand_commands, Hcmds.
    split; [done|]. split; [by apply prefix_cons|done].
  - exists [args], (commands (events_of cleanup)). cbn [events_of snd].
    subst failed cleanup. rewrite commands_app, runCommand_commands.
    split; [done|]. split; [|apply destroyContainer_commands].
    apply prefix_cons, prefix_nil.
Qed.

Lemma omap_prefix {A A'} (f : A → option A') (l1 l2 : list A) :
  l1 `prefix_of` l2 → omap f l1 `prefix_of` omap f l2.
Proof. intros [k ->]. rewrite omap_app. by eexists. Qed.

Lemma BuildImageLayer_steps_tags imageDefinition tags buildPrefix packageCache
    environmentVariables :
  omap tag_of (BuildImageLayer_steps range_env imageDefinition tags buildPrefix
                 packageCache environmentVariables)
  = (λ tag, (Name imageDefinition,
             buildPrefix +:+ Name imageDefinition +:+ ":" +:+ tag)) <$> tags.
Proof.
  unfold BuildImageLayer_steps. rewrite !omap_app.
  assert (∀ l, omap tag_of
                 (map (λ tag, ["tag"; Name imageDefinition;
                               buildPrefix +:+ Name imageDefinition +:+ ":" +:+ tag]) l)
               = (λ tag, (Name imageDefinition,
                          buildPrefix +:+ Name imageDefinition +:+ ":" +:+ tag)) <$> l)
    as ->.
  { induction l as [|tag l IH]; [done|]. cbn. by rewrite IH. }
  destruct (is_empty packageCache);
    by destruct (env_arguements (range_env environmentVariables)) as [|? [|? ?]].
Qed.

(** In every run of [BuildImageLayer] the [docker tag] commands that are run
    are those of the requested tags, in order and up to the first that
    fails, each with the bare name of the image as its source and the
    prefixed name as its target. *)
Lemma BuildImageLayer_tagged imageDefinition tags buildPrefix packageCache
    environmentVariables w :
  let evs := events_of (BuildImageLayer imageDefinition tags buildPrefix
                          packageCache environmentVariables w) in
  tagged evs
  `prefix_of` (λ tag, (Name imageDefinition,
                       buildPrefix +:+ Name imageDefinition +:+ ":" +:+ tag))
              <$> tags.
Proof.
  intros evs. subst evs. rewrite BuildImageLayer_unfold.
  set (tmpImageName := BuildImageLayer_tmpImageName imageDefinition).
  set (start := BuildImageLayer_start _ _ _).
  set (steps := BuildImageLayer_steps _ _ _ _ _ _).
  set (build := bind _ _).
  set (expected := _ <$> tags).
  assert (∀ w1, tagged (events_of (build w1)) `prefix_of` expected) as Hbuild.
  { intros w1. unfold build, tagged.
    rewrite bind_events, commands_app, runCommand_commands, omap_app.
    assert (omap tag_of [start] = []) as ->.
    { unfold start, BuildImageLayer_start. by destruct (is_empty packageCache). }
    destruct (result_of (runCommand "docker" start w1)); [apply prefix_nil|].
    destruct (chain_commands _ _ _ _ (step_chain tmpImageName
                (destroyContainer tmpImageName) steps
                (state_of (runCommand "docker" start w1))))
      as (cmds & cleanup & -> & Hcmds & Hcleanup).
    rewrite omap_app. apply (omap_prefix tag_of) in Hcmds, Hcleanup.
    unfold steps in Hcmds. rewrite BuildImageLayer_steps_tags in Hcmds.
    apply prefix_nil_inv in Hcleanup as ->. by rewrite app_nil_r. }
  destruct (is_empty packageCache); [apply Hbuild|].
  destruct (ensure_dir_cases packageCache build w)
    as [(e & b & _ & -> & _)|(pre & w2 & -> & _ & _ & _ & Hpre)]; [apply prefix_nil|].
  cbn [events_of snd]. unfold tagged. rewrite commands_app, omap_app.
  destruct Hpre as [[-> _]|[-> _]]; apply Hbuild.
Qed.

End DockerProperties.

(** ** Extraction twice *)

Section Idempotence.

Import Images.

Context {B : Type}.
Variable exec_Run : string → list string → B → option error * B.
Variable docker_cp : string → B → result string * B.
Variable MkdirAll_fault : string → B → option error * B.
Variable CleanDirectory_fault : string → B → option error * B.
Variable path_Join : string → string → string.

#[local] Abbreviation ExtractImage :=
  (ExtractImage exec_Run docker_cp MkdirAll_fault CleanDirectory_fault
     inside_dir path_Join).

Implicit Types (w : World B).


End Idempotence.

(** ** Extraction through containerd *)

Section StringFacts.

Import Images.

Lemma HasPrefix_app s t : HasPrefix (s +:+ t) s = true.
Proof.
  unfold HasPrefix. induction s as [|a s IH]; [by destruct t|].
  change (String.prefix (String a s) (String a (s +:+ t)) = true).
  cbn [String.prefix]. by destruct (Ascii.ascii_dec a a).
Qed.

Lemma string_drop_app s t : string_drop (String.length s) (s +:+ t) = t.
Proof. induction s as [|a s IH]; [reflexivity|exact IH]. Qed.

Lemma string_app_empty_r s : s +:+ EmptyString = s.
Proof.
  induction s as [|a s IH]; [done|].
  change (String a (s +:+ EmptyString) = String a s). by rewrite IH.
Qed.

Lemma string_app_assoc s t u : (s +:+ t) +:+ u = s +:+ (t +:+ u).
Proof.
  induction s as [|a s IH]; [done|].
  change (String a ((s +:+ t) +:+ u) = String a (s +:+ (t +:+ u))).
  by rewrite IH.
Qed.

End StringFacts.

Section ExtractProperties.

Import Repository.

Context {B : Type} `{Backend B}.

Implicit Types (b : B) (node : Node) (rel : string).

(** Induction on a tree along the entries of its directories. *)
Lemma Node_entries_ind (P : Node → Prop) :
  (∀ kind, P (File kind)) →
  (∀ err, P (NoStat err)) →
  (∀ entries readErr, Forall (λ e, P e.2) entries → P (Dir entries readErr)) →
  ∀ node, P node.
Proof.
  intros Hfile Hnostat Hdir. fix IH 1. intros [kind|entries readErr|err]; [done| |done].
  apply Hdir. induction entries as [|[name child] entries IHentries]; constructor.
  - apply IH.
  - apply IHentries.
Qed.

Lemma copies_app evs1 evs2 : copies (evs1 ++ evs2) = copies evs1 ++ copies evs2.
Proof. apply omap_app. Qed.

Lemma new_ids_app evs1 evs2 : new_ids (evs1 ++ evs2) = new_ids evs1 ++ new_ids evs2.
Proof. apply omap_app. Qed.

Lemma snapshot_keys_app evs1 evs2 :
  snapshot_keys (evs1 ++ evs2) = snapshot_keys evs1 ++ snapshot_keys evs2.
Proof. apply omap_app. Qed.

Lemma only_copies_keys evs :
  only_copies evs → new_ids evs = [] ∧ snapshot_keys evs = [].
Proof.
  induction 1 as [|ev evs Hev _ [IH1 IH2]]; [done|]. by destruct ev.
Qed.

(** What the function of the walk does on an entry that is not a
    directory, found at [rel] below the staging path. *)
Lemma copy_entry_file srcDir destination rel kind b :
  let out := copy_entry srcDir destination (srcDir +:+ rel) (Visited (InfoFile kind)) b in
  copies (events_of out) = [expected_copy srcDir destination (rel, kind)]
  ∧ only_copies (events_of out).
Proof.
  unfold copy_entry, CopyFile, call, expected_copy. cbn [IsDir negb andb fst].
  rewrite HasPrefix_app, string_drop_app.
  destruct (CopyFile_fault _ _ b) as [res b']. cbn. split; [done|].
  by repeat constructor.
Qed.

Lemma entry_path_app srcDir rel name :
  entry_path (srcDir +:+ rel) name = srcDir +:+ rel +:+ "/" +:+ name.
Proof. unfold entry_path. by rewrite string_app_assoc. Qed.

(** The walk of a tree found at [rel] below the staging path: the copies
    it asks for are those expected for the entries of the tree that are
    not directories, in order, up to the point where it stops; it asks for
    all of them when it returns no error. *)
Lemma walk_copies srcDir destination node :
  ∀ rel b,
    let out := walk (srcDir +:+ rel) node (copy_entry srcDir destination) b in
    let expected := expected_copy srcDir destination <$> entries_below rel node in
    copies (events_of out) `prefix_of` expected
    ∧ (result_of out = None → copies (events_of out) = expected)
    ∧ only_copies (events_of out).
Proof.
  induction node as [kind|err|entries readErr IH] using Node_entries_ind;
    intros rel b out expected; subst out expected.
  - destruct (copy_entry_file srcDir destination rel kind b) as [Hcopies Honly].
    cbn [walk entries_below fmap list_fmap] in *. by rewrite Hcopies.
  - cbn. split; [done|split; [done|constructor]].
  - cbn [walk entries_below]. rewrite bind_result, bind_events.
    destruct readErr as [err|].
    { cbn. split; [apply prefix_nil|split; [done|constructor]]. }
    change (copy_entry srcDir destination (srcDir +:+ rel) (Visited InfoDir) b)
      with (ret (S:=B) (E:=event) (None : option error) b).
    cbn [ret result_of state_of events_of fst snd app].
    revert b. induction IH as [|[name child] entries Hchild _ IHentries]; intros b.
    { cbn. split; [done|split; [done|constructor]]. }
    cbn [fst snd] in Hchild.
    cbn [walk_entries flat_map fst snd].
    rewrite bind_result, bind_events, fmap_app, copies_app.
    rewrite !entry_path_app.
    destruct (Hchild (rel +:+ "/" +:+ name) b) as (Hprefix & Hall & Honly).
    destruct (result_of (walk _ child _ b)) as [err|] eqn:Hres.
    + cbn [ret result_of state_of events_of fst snd]. rewrite ?app_nil_r.
      split; [by apply prefix_app_r|split; [done|done]].
    + rewrite (Hall eq_refl).
      destruct (IHentries (state_of (walk (srcDir +:+ rel +:+ "/" +:+ name) child
                                       (copy_entry srcDir destination) b)))
        as (Hprefix' & Hall' & Honly').
      split; [|split].
      * by apply prefix_app.
      * intros Hnone. by rewrite (Hall' Hnone).
      * by apply Forall_app.
Qed.

(** C8, as the code has it. The copies asked of [utils.CopyFile] during
    the copy phase are, in the order of the walk and up to the point where
    it stops, those of the entries of the staged tree (what the mount
    holds at [extract]) that are not directories, whatever their kind:
    each is copied from its path to the destination joined with its
    path below the staging path.  Directories are walked and never copied,
    nothing of the mount outside the staged tree is copied, and when the
    phase returns no error every such entry was copied. *)
Theorem copy_staged_copies destination root mount b :
  let srcDir := Path.Join root "extract" in
  let out := copy_staged destination root mount b in
  let expected :=
    expected_copy srcDir destination
      <$> entries_below EmptyString (lstat_entry mount "extract") in
  copies (events_of out) `prefix_of` expected
  ∧ (result_of out = None → copies (events_of out) = expected).
Proof.
  intros srcDir out expected. subst out expected. unfold copy_staged. fold srcDir.
  destruct (walk_copies srcDir destination (lstat_entry mount "extract")
              EmptyString b) as (Hprefix & Hall & _).
  rewrite string_app_empty_r in Hprefix, Hall. by split.
Qed.

(** *** The key of the snapshot *)

Lemma call_run {A} (f : B → A * B) (ev : A → event) b :
  call f ev b = ((f b).1, (f b).2, [ev (f b).1]).
Proof. unfold call. by destruct (f b). Qed.

Lemma defer_events {A C} (cleanup : Run B event C) (body : Run B event A) b :
  events_of (defer cleanup body b)
  = events_of (body b) ++ events_of (cleanup (state_of (body b))).
Proof.
  unfold defer. rewrite !bind_events, ret_events.
  by rewrite app_nil_r.
Qed.

Lemma WithTempMount_copy_keys snapshotKey destination b :
  let evs := events_of (WithTempMount snapshotKey (copy_staged destination) b) in
  new_ids evs = [] ∧ snapshot_keys evs = [].
Proof.
  intros evs. subst evs. unfold WithTempMount.
  rewrite bind_events, call_run.
  destruct (temp_mount snapshotKey b) as [[[root mount]|err] b1];
    cbn [result_of state_of events_of fst snd]; [|done].
  rewrite !bind_events, ret_events, !new_ids_app, !snapshot_keys_app.
  unfold copy_staged.
  destruct (walk_copies (Path.Join root "extract") destination
              (lstat_entry mount "extract") EmptyString b1)
    as (_ & _ & Honly).
  rewrite string_app_empty_r in Honly.
  by apply only_copies_keys in Honly as [-> ->].
Qed.

(** An extraction draws at most one identifier from [utils.NewID], and
    whenever it touches a snapshot it does so under the identifier drawn in
    this very call. *)
Lemma ExtractImage_snapshot_key imageRef destination b :
  let evs := events_of (ExtractImage imageRef destination b) in
  (new_ids evs = [] ∧ snapshot_keys evs = [])
  ∨ ∃ id, new_ids evs = [id]
          ∧ snapshot_keys evs ≠ []
          ∧ Forall (eq id) (snapshot_keys evs).
Proof.
  intros evs. subst evs. unfold ExtractImage.
  rewrite bind_events, call_run. cbn [result_of state_of events_of fst snd].
  destruct (client_WithLease b) as [[err|] b1]; [by left|]. cbn [fst snd].
  rewrite defer_events, bind_events, call_run.
  cbn [result_of state_of events_of fst snd].
  destruct (client_GetImage (FullName imageRef) b1) as [[img|err] b2]; [|by left].
  cbn [fst snd]. rewrite bind_events, call_run.
  cbn [result_of state_of events_of fst snd].
  destruct (NewWorkspace b2) as [[ws|err] b3]; [|by left]. cbn [fst snd].
  rewrite defer_events, bind_events, call_run.
  cbn [result_of state_of events_of fst snd].
  destruct (createTempMounts ws b3) as [[mounts dropped] b4]. cbn [fst snd].
  rewrite bind_events, call_run. cbn [result_of state_of events_of fst snd].
  destruct (NewID b4) as [id b5]. cbn [fst snd].
  right. exists id.
  rewrite bind_events, call_run. cbn [result_of state_of events_of fst snd].
  destruct (session_createSnapshot id img b5) as [[err|] b6]; cbn [fst snd].
  { cbn. split; [done|]. split; [done|]. by repeat constructor. }
  rewrite defer_events, bind_events, call_run.
  cbn [result_of state_of events_of fst snd].
  destruct (session_RunContainer id img mounts _ b6) as [[err|] b7]; cbn [fst snd].
  { cbn. split; [done|]. split; [done|]. by repeat constructor. }
  rewrite bind_events, call_run. cbn [result_of state_of events_of fst snd].
  destruct (snapshotter_Mounts id b7) as [[err|] b8]; cbn [fst snd].
  { cbn. split; [done|]. split; [done|]. by repeat constructor. }
  rewrite bind_events.
  destruct (WithTempMount_copy_keys id destination b8) as [Hids Hkeys].
  assert (∀ r b', events_of
            (match r : option error with Some _ => ret r | None => ret None end b')
            = ([] : list event)) as Hret by (by intros [?|] ?).
  rewrite Hret, app_nil_r.
  repeat (rewrite ?new_ids_app, ?snapshot_keys_app, ?Hids, ?Hkeys; cbn).
  split; [done|]. split; [done|]. by repeat constructor.
Qed.

End ExtractProperties.

(** ** The key of an operation *)

Section OperationKeys.

Import Images.

Lemma string_app_length s t :
  String.length (s +:+ t) = String.length s + String.length t.
Proof.
  induction s as [|a s IH]; [done|].
  change (S (String.length (s +:+ t)) = S (String.length s + String.length t)).
  by rewrite IH.
Qed.

Lemma ExtractImage_start_name name tag :
  container_name (ExtractImage_start name tag) = Some (ExtractImage_tmpImageName name).
Proof. reflexivity. Qed.

Lemma BuildImageLayer_start_name imageDefinition buildPrefix packageCache :
  container_name (BuildImageLayer_start imageDefinition buildPrefix packageCache)
  = Some (BuildImageLayer_tmpImageName imageDefinition).
Proof.
  assert (∀ s t, 6 < String.length t → s +:+ t ≠ "--name") as Hne.
  { intros s t Hlen Heq. apply (f_equal String.length) in Heq.
    rewrite string_app_length in Heq. cbn in Heq. lia. }
  unfold BuildImageLayer_start.
  destruct (is_empty packageCache); cbn [app];
    repeat (cbn [container_name];
            lazymatch goal with
            | |- (if decide (?x = "--name") then _ else _) = _ =>
                destruct (decide (x = "--name")) as [Heq|Hdiff];
                [first [discriminate Heq
                       |by apply Hne in Heq; [|cbn; lia]
                       |reflexivity]
                |try (by destruct Hdiff); try clear Hdiff]
            end).
Qed.

(** C9, as the code has it. The docker based operations start their
    container under a name made of a fixed prefix and the name of the
    image (without its slashes, for an extraction), whatever the state of
    the host: the key is a function of the image name alone.  The
    extraction through containerd draws one identifier from [utils.NewID]
    per call and touches its snapshot under that identifier only. *)
Theorem operation_keys :
  (∀ B exec_Run docker_cp MkdirAll_fault CleanDirectory_fault inside path_Join
     name tag destination (w : World B),
     let evs := events_of (ExtractImage exec_Run docker_cp MkdirAll_fault
                             CleanDirectory_fault inside path_Join
                             name tag destination w) in
     (started evs = [] ∨ started evs = [ExtractImage_start name tag])
     ∧ container_name (ExtractImage_start name tag)
       = Some ("darch-extracting-" +:+ remove_slashes name))
  ∧ (∀ B exec_Run docker_cp MkdirAll_fault range_env
       imageDefinition tags buildPrefix packageCache environmentVariables
       (w : World B),
       let evs := events_of (BuildImageLayer exec_Run docker_cp MkdirAll_fault
                               range_env imageDefinition tags buildPrefix
                               packageCache environmentVariables w) in
       (started evs = []
        ∨ started evs
          = [BuildImageLayer_start imageDefinition buildPrefix packageCache])
       ∧ container_name (BuildImageLayer_start imageDefinition buildPrefix
                           packageCache)
         = Some ("darch-building-" +:+ Name imageDefinition))
  ∧ (∀ B (backend : Repository.Backend B) imageRef destination (b : B),
       let evs := events_of (Repository.ExtractImage imageRef destination b) in
       (Repository.new_ids evs = [] ∧ Repository.snapshot_keys evs = [])
       ∨ ∃ id, Repository.new_ids evs = [id]
               ∧ Repository.snapshot_keys evs ≠ []
               ∧ Forall (eq id) (Repository.snapshot_keys evs)).
Proof.
  split; [|split].
  - intros. split; [apply ExtractImage_started|apply ExtractImage_start_name].
  - intros. split; [apply BuildImageLayer_started|apply BuildImageLayer_start_name].
  - intros. apply ExtractImage_snapshot_key.
Qed.

End OperationKeys.

(** ** The properties on the sample inputs *)

Section Samples.

Import Images Examples.

Lemma acyclic_ranked (defs : gmap string ImageDefinition) (rank : string → nat) :
  (∀ a b, inherits_from defs a b → rank b < rank a) → acyclic defs.
Proof.
  intros Hrank a Hcycle.
  assert (∀ x y, tc (inherits_from defs) x y → rank y < rank x) as Hdown.
  { induction 1 as [x y Hxy|x y z Hxy _ IH]; [by apply Hrank|].
    apply Hrank in Hxy. lia. }
  apply Hdown in Hcycle. lia.
Qed.

Lemma base_and_child_well_keyed : well_keyed base_and_child.
Proof.
  unfold well_keyed, base_and_child.
  apply map_Forall_insert_2; [done|]. apply map_Forall_insert_2; [done|].
  apply map_Forall_empty.
Qed.

Lemma base_and_child_resolvable : resolvable base_and_child.
Proof.
  unfold resolvable, base_and_child.
  apply map_Forall_insert_2; [intros _; by eexists|].
  apply map_Forall_insert_2; [done|]. apply map_Forall_empty.
Qed.

Lemma base_and_child_acyclic : acyclic base_and_child.
Proof.
  apply (acyclic_ranked _ (λ n, if decide (n = "child") then 1 else 0)).
  intros a b (d & Hd & Hext & <-). unfold base_and_child in Hd.
  apply lookup_insert_Some in Hd as [[<- <-]|[_ Hd]]; [vm_compute; lia|].
  apply lookup_insert_Some in Hd as [[<- <-]|[_ Hd]]; [by vm_compute in Hext|].
  by rewrite lookup_empty in Hd.
Qed.

Lemma ping_pong_well_keyed : well_keyed ping_pong.
Proof.
  unfold well_keyed, ping_pong.
  apply map_Forall_insert_2; [done|]. apply map_Forall_insert_2; [done|].
  apply map_Forall_empty.
Qed.

(** In the set of [ping] and [pong], validation fails from either. *)
Lemma verifyDependencies_two_cycle_sample :
  verifyDependencies 2 ping ping_pong None = Some (Some (ErrCyclical "pong"))
  ∧ verifyDependencies 2 pong ping_pong None = Some (Some (ErrCyclical "ping")).
Proof.
  apply (verifyDependencies_two_cycle ping_pong ping pong 2).
  - reflexivity.
  - reflexivity.
  - exists ping. repeat split; reflexivity.
  - exists pong. repeat split; reflexivity.
  - lia.
Defined.

(** The orphan names a parent that the set of [base] and [child] lacks. *)
Lemma verifyDependencies_missing_parent_sample :
  verifyDependencies 1 orphan base_and_child None
  = Some (Some (ErrMissingParent "orphan" "ghost"))
  ∧ Error (ErrMissingParent "orphan" "ghost")
    = "Image defintion orphan inherits from ghost, which doesn't exist".
Proof.
  destruct (verifyDependencies_missing_parent base_and_child orphan 1)
    as (Hfail & Htext & _).
  - reflexivity.
  - reflexivity.
  - lia.
  - split; [exact Hfail|exact Htext].
Defined.

(** Validation of [ping] and of [pong] returns within three invocations. *)
Lemma verifyDependencies_terminates_sample :
  (∃ r, ∀ fuel, 2 < fuel → verifyDependencies fuel ping ping_pong None = Some r)
  ∧ (∃ r, ∀ fuel, 4 < fuel →
                  verifyDependencies fuel orphan ping_pong None = Some r).
Proof.
  destruct (verifyDependencies_terminates ping_pong ping_pong_well_keyed)
    as [Hmember Hany].
  split.
  - apply (Hmember ping). reflexivity.
  - apply (Hany orphan None).
Defined.

(** The image directory of [base] and [child] loads and validates. *)
Lemma valid_definitions_verify_sample :
  (∀ k d, base_and_child !! k = Some d →
          verifyDependencies 3 d base_and_child None = Some None)
  ∧ BuildAllDefinitions disk_ExpandPath Path.Join disk_DirectoryExists
      disk_FileExists disk_GetChildDirectories disk_ReadFile disk_json_field
      map_to_list 3 "/images"
    = Some (Ok base_and_child).
Proof.
  destruct (valid_definitions_verify disk_ExpandPath Path.Join
              disk_DirectoryExists disk_FileExists disk_GetChildDirectories
              disk_ReadFile disk_json_field map_to_list
              (λ m, reflexivity (map_to_list m))
              base_and_child 3
              base_and_child_well_keyed base_and_child_acyclic
              base_and_child_resolvable)
    as [Hverify Hbuild].
  - vm_compute. lia.
  - split; [exact Hverify|].
    apply (Hbuild "/images" ["base"; "child"]); vm_compute; reflexivity.
Defined.

(** The four ways [BuildDefinition] refuses an image without a parent. *)
Lemma BuildDefinition_requires_parent_sample :
  disk_BuildDefinition "ghost" "/images" = Err (ErrImageDirMissing "/images/ghost")
  ∧ disk_BuildDefinition "empty" "/images"
    = Err (ErrNoConfiguration "/images/empty/config.json")
  ∧ disk_BuildDefinition "bare" "/images" = Err (ErrNoInherit "bare")
  ∧ Inherits child ≠ EmptyString.
Proof.
  pose proof (BuildDefinition_requires_parent disk_ExpandPath Path.Join
                disk_DirectoryExists disk_FileExists disk_ReadFile
                disk_json_field) as Hspec.
  split; [|split; [|split]].
  - destruct (Hspec "ghost" "/images") as (Hdir & _).
    by apply Hdir.
  - destruct (Hspec "empty" "/images") as (_ & Hfile & _).
    by apply Hfile.
  - destruct (Hspec "bare" "/images") as (_ & _ & Hinherit & _).
    apply (Hinherit "{}"); try reflexivity. by left.
  - destruct (Hspec "child" "/images") as (_ & _ & _ & Hok).
    by apply (Hok child).
Defined.

(** The commit of the build fails and so does the stop of the container:
    the build returns the failure of the commit and has destroyed its
    container once. *)
Lemma BuildImageLayer_teardown_sample :
  ErrExternal "docker commit failed" ∈ failed_steps (events_of failing_build)
  ∧ result_of failing_build = Some (ErrExternal "docker commit failed")
  ∧ destroyed (events_of failing_build) = ["darch-building-base"].
Proof.
  assert (ErrExternal "docker commit failed"
          ∈ failed_steps (events_of failing_build))
    as Hfailed by (vm_compute; constructor).
  split; [exact Hfailed|].
  exact (BuildImageLayer_teardown (host_exec_Run commit_and_stop) host_docker_cp
           host_no_fault host_range_env base ["latest"] "darch-"
           EmptyString ∅ fresh_host _ Hfailed).
Defined.

(** C5. A build of [base] under the prefix [darch-] with two tags, every
    command succeeding: the container is committed as [darch-base], and
    both [docker tag] commands name [base] as the image to tag, another
    artifact than the one just committed. *)
Theorem BuildImageLayer_tags_other_artifact :
  result_of tagged_build = None
  ∧ committed (events_of tagged_build) = ["darch-base"]
  ∧ tagged (events_of tagged_build)
    = [("base", "darch-base:latest"); ("base", "darch-base:v1")].
Proof. vm_compute. done. Qed.


(** The copy phase on the sample upper layer copies the three entries
    staged under [extract], the link among them, and nothing else. *)
Lemma copy_staged_copies_sample :
  Repository.copies
    (events_of (Repository.copy_staged "/tmp/out" "/tmp/mount" upper_layer 0))
  = [("/tmp/mount/extract/boot/vmlinuz", "/tmp/out/boot/vmlinuz");
     ("/tmp/mount/extract/etc/hostname", "/tmp/out/etc/hostname");
     ("/tmp/mount/extract/etc/localtime", "/tmp/out/etc/localtime")].
Proof.
  destruct (copy_staged_copies "/tmp/out" "/tmp/mount" upper_layer 0)
    as [_ Hall].
  rewrite Hall; reflexivity.
Defined.

Lemma copy_staged_copies_sample_eq :
  Repository.copies
    (events_of (Repository.copy_staged "/tmp/out" "/tmp/mount" upper_layer 0))
  = [("/tmp/mount/extract/boot/vmlinuz", "/tmp/out/boot/vmlinuz");
     ("/tmp/mount/extract/etc/hostname", "/tmp/out/etc/hostname");
     ("/tmp/mount/extract/etc/localtime", "/tmp/out/etc/localtime")].
Proof. reflexivity. Qed.

(** Against C8 as stated: [etc/localtime] of the staged tree is a symbolic
    link, and the copy phase copies it. *)
Lemma copy_staged_copies_link :
  ¬ Repository.copies_only_regular "/tmp/out" "/tmp/mount" upper_layer 0.
Proof.
  intros Honly.
  destruct (Honly "/tmp/mount/extract/etc/localtime" "/tmp/out/etc/localtime")
    as (rel & Hrel & Hin).
  { rewrite copy_staged_copies_sample_eq. do 2 right. left. }
  change (Path.Join "/tmp/mount" "extract") with "/tmp/mount/extract" in Hrel.
  change "/tmp/mount/extract/etc/localtime"
    with ("/tmp/mount/extract" +:+ "/etc/localtime") in Hrel.
  apply (inj _) in Hrel. subst rel.
  assert (("/etc/localtime", Repository.Regular)
          ∉ Repository.entries_below EmptyString
              (Repository.lstat_entry upper_layer "extract")) as Hnot.
  { apply (bool_decide_unpack _). by vm_compute. }
  by apply Hnot.
Qed.

(** Against C9 as stated: two extractions of the image [base], one after
    the other, start their container under the same name. *)
Lemma ExtractImage_same_container_name :
  (container_name <$> started (events_of first_extraction))
  = [Some "darch-extracting-base"]
  ∧ (container_name <$> started (events_of second_extraction))
    = [Some "darch-extracting-base"]
  ∧ ExtractImage_tmpImageName "go/darch" = ExtractImage_tmpImageName "godarch".
Proof. vm_compute. done. Qed.

End Samples.

(** * Further properties *)

(** ** What the validation tells about the inheritance graph *)

Section Validator.

Import Images.

Implicit Types (d cur parent : ImageDefinition) (stack : gmap string bool).
Implicit Types defs : gmap string ImageDefinition.

(** An image has one parent. *)
Lemma inherits_from_functional defs a b b' :
  inherits_from defs a b → inherits_from defs a b' → b = b'.
Proof. intros (d & Hd & _ & <-) (d' & Hd' & _ & <-). congruence. Qed.

Lemma on_cycle_step defs a b :
  tc (inherits_from defs) a a → inherits_from defs a b →
  tc (inherits_from defs) b b.
Proof.
  intros Hcycle Hab. inversion Hcycle as [? ? Haa|? c ? Hac Hca]; subst.
  - rewrite (inherits_from_functional _ _ _ _ Hab Haa). by apply tc_once.
  - rewrite (inherits_from_functional _ _ _ _ Hab Hac). by eapply tc_r.
Qed.

Lemma leads_to_cycle_step defs a b :
  leads_to_cycle defs a → inherits_from defs a b → leads_to_cycle defs b.
Proof.
  intros (c & Hac & Hcycle) Hab. inversion Hac as [|? a' ? Haa' Ha'c]; subst.
  - exists b. split; [done|]. by eapply on_cycle_step.
  - exists c. by rewrite (inherits_from_functional _ _ _ _ Hab Haa').
Qed.

Lemma leads_to_cycle_parent defs a :
  leads_to_cycle defs a → ∃ b, inherits_from defs a b.
Proof.
  intros (c & Hac & Hcycle). inversion Hac as [|? a' ? Haa' _]; subst.
  - inversion Hcycle; subst; by eexists.
  - by eexists.
Qed.

(** A walk that starts at an image from which a cycle is reached can only
    end in the cyclical dependency error. *)
Lemma verifyDependencies_cycle_walk defs :
  well_keyed defs →
  ∀ fuel cur stack r,
    defs !! Name cur = Some cur →
    leads_to_cycle defs (Name cur) →
    verifyDependencies fuel cur defs (Some stack) = Some r →
    ∃ n, r = Some (ErrCyclical n).
Proof.
  intros Hkeys. induction fuel as [|fuel IH]; intros cur stack r Hcur Hleads; [done|].
  rewrite verifyDependencies_unfold.
  destruct (leads_to_cycle_parent _ _ Hleads) as (b & Hedge).
  pose proof Hedge as (d & Hd & Hext & Hb).
  assert (d = cur) as -> by congruence. unfold is_external in Hext. rewrite Hext.
  destruct (decide _); [intros [= <-]; by eexists|].
  pose proof (leads_to_cycle_step _ _ _ Hleads Hedge) as Hnext.
  destruct (leads_to_cycle_parent _ _ Hnext) as (c & parent & Hparent & _).
  rewrite Hb, Hparent.
  assert (Name parent = b) as Hname by exact (Hkeys _ _ Hparent).
  apply IH; by rewrite Hname.
Qed.

Lemma verifyDependencies_error_walk defs :
  well_keyed defs →
  ∀ fuel cur stack e,
    defs !! Name cur = Some cur →
    (∀ s, is_Some (stack !! s) → tc (inherits_from defs) s (Name cur)) →
    verifyDependencies fuel cur defs (Some stack) = Some (Some e) →
    error_holds defs (Name cur) e.
Proof.
  intros Hkeys. induction fuel as [|fuel IH]; intros cur stack e Hcur Hanc; [done|].
  rewrite verifyDependencies_unfold.
  destruct (HasPrefix _ _) eqn:Hext; [done|].
  assert (inherits_from defs (Name cur) (Inherits cur)) as Hedge by (by exists cur).
  destruct (decide _) as [Hin|Hnotin].
  { intros [= <-]. split; [done|]. eapply tc_l; [exact Hedge|by apply Hanc]. }
  destruct (defs !! Inherits cur) as [parent|] eqn:Hparent.
  - assert (Name parent = Inherits cur) as Hname by exact (Hkeys _ _ Hparent).
    intros Hrec. apply IH in Hrec; [|by rewrite Hname|].
    + rewrite Hname in Hrec.
      destruct e; try done; destruct Hrec as [Hreach Hrest];
        (split; [by eapply rtc_l|done]).
    + rewrite Hname. intros s [x Hs].
      destruct (decide (Name cur = s)) as [<-|Hne]; [by apply tc_once|].
      rewrite lookup_insert_ne in Hs; [|done].
      eapply tc_r; [|exact Hedge]. apply Hanc. by eexists.
  - intros [= <-]. by repeat split.
Qed.

(** X1. The validation is sound: when it returns [nil] for every image of
    a set keyed by name, no image of the set is its own ancestor and every
    parent that is not external is a definition of the set. *)
Theorem verifyDependencies_nil_sound defs :
  well_keyed defs →
  (∀ k d, defs !! k = Some d →
          ∃ fuel, verifyDependencies fuel d defs None = Some None) →
  acyclic defs ∧ resolvable defs.
Proof.
  intros Hkeys Hvalid. split.
  - intros a Hcycle.
    assert (leads_to_cycle defs a) as Hleads by (by exists a).
    destruct (leads_to_cycle_parent _ _ Hleads) as (b & d & Hd & _).
    destruct (Hvalid a d Hd) as [fuel Hnil].
    assert (Name d = a) as Hname by exact (Hkeys _ _ Hd).
    rewrite verifyDependencies_nil_stack in Hnil.
    apply (verifyDependencies_cycle_walk defs Hkeys) in Hnil as [n [=]];
      by rewrite Hname.
  - intros k d Hd Hext. destruct (Hvalid k d Hd) as [[|fuel] Hnil]; [done|].
    rewrite verifyDependencies_nil_stack, verifyDependencies_unfold in Hnil.
    unfold is_external in Hext. rewrite Hext in Hnil.
    destruct (decide _); [done|]. by destruct (defs !! Inherits d).
Qed.

(** X2. The errors of the validation are true: started on an image of a set
    keyed by name, a cyclical dependency error names an image that is its own
    ancestor, a missing parent error names an image and the parent it
    declares, which is not marked external and is no definition of the set;
    the image named is the one validated or one of its ancestors, and the
    validation returns no other error. *)
Theorem verifyDependencies_errors_hold defs d fuel e :
  well_keyed defs →
  defs !! Name d = Some d →
  verifyDependencies fuel d defs None = Some (Some e) →
  error_holds defs (Name d) e.
Proof.
  intros Hkeys Hd. rewrite verifyDependencies_nil_stack.
  apply verifyDependencies_error_walk; [done|done|].
  intros s [x Hs]. by rewrite lookup_empty in Hs.
Qed.

(** X3. A cycle of any length is found from every image that leads to it:
    the validation of an image whose chain of parents runs into a cycle
    returns the cyclical dependency error, raised at an image of that
    cycle. *)
Theorem verifyDependencies_finds_cycle defs d fuel :
  well_keyed defs →
  defs !! Name d = Some d →
  leads_to_cycle defs (Name d) →
  size defs < fuel →
  ∃ n, verifyDependencies fuel d defs None = Some (Some (ErrCyclical n))
       ∧ rtc (inherits_from defs) (Name d) n
       ∧ tc (inherits_from defs) n n.
Proof.
  intros Hkeys Hd Hleads Hfuel.
  destruct (verifyDependencies_returns defs d Hkeys Hd) as [r Hr].
  specialize (Hr fuel Hfuel). pose proof Hr as Hr'.
  rewrite verifyDependencies_nil_stack in Hr'.
  apply (verifyDependencies_cycle_walk defs Hkeys) in Hr' as [n ->]; [|done..].
  exists n. split; [done|].
  rewrite verifyDependencies_nil_stack in Hr.
  apply (verifyDependencies_error_walk defs Hkeys) in Hr; [done|done|].
  intros s [x Hs]. by rewrite lookup_empty in Hs.
Qed.

(** An image on a cycle cannot lead to a missing parent: whatever it
    reaches is on the cycle, and has its parent among the definitions. *)
Lemma on_cycle_reaches defs a n :
  tc (inherits_from defs) a a → rtc (inherits_from defs) a n →
  tc (inherits_from defs) n n.
Proof.
  intros Hcycle Hreach. induction Hreach as [|a b n Hab _ IH]; [done|].
  apply IH. by eapply on_cycle_step.
Qed.

Lemma on_cycle_resolves defs a n p :
  tc (inherits_from defs) a a → rtc (inherits_from defs) a n →
  inherits_from defs n p → is_Some (defs !! p).
Proof.
  intros Hcycle Hreach Hedge.
  pose proof (on_cycle_step _ _ _ (on_cycle_reaches _ _ _ Hcycle Hreach) Hedge)
    as Hp.
  assert (leads_to_cycle defs p) as Hleads by (by exists p).
  destruct (leads_to_cycle_parent _ _ Hleads) as (b & d & Hd & _). by eexists.
Qed.

(** A walk that starts at an image whose chain of parents ends at a parent
    that is no definition can only end in the error about that parent. *)
Lemma verifyDependencies_missing_walk defs n p :
  well_keyed defs →
  inherits_from defs n p → defs !! p = None →
  ∀ fuel cur stack r,
    defs !! Name cur = Some cur →
    rtc (inherits_from defs) (Name cur) n →
    (∀ s, is_Some (stack !! s) → tc (inherits_from defs) s (Name cur)) →
    verifyDependencies fuel cur defs (Some stack) = Some r →
    r = Some (ErrMissingParent n p).
Proof.
  intros Hkeys Hnp Hp.
  induction fuel as [|fuel IH]; intros cur stack r Hcur Hreach Hanc; [done|].
  rewrite verifyDependencies_unfold.
  assert (inherits_from defs (Name cur) (Inherits cur)) as Hedge.
  { inversion Hreach as [|? b ? (d & Hd & Hext & Hb) _]; subst.
    - destruct Hnp as (d & Hd & Hext & _). exists cur.
      assert (d = cur) as -> by congruence. by split.
    - exists cur. assert (d = cur) as -> by congruence. by split. }
  pose proof Hedge as (d & Hd & Hext & _).
  assert (d = cur) as -> by congruence. unfold is_external in Hext. rewrite Hext.
  destruct (decide _) as [Hin|_].
  { exfalso. apply Hanc in Hin.
    assert (tc (inherits_from defs) (Name cur) (Name cur)) as Hcycle
      by (by eapply tc_l).
    destruct (on_cycle_resolves _ _ _ _ Hcycle Hreach Hnp) as [x Hx]. congruence. }
  inversion Hreach as [|? b ? Hcb Hbn]; subst.
  - rewrite (inherits_from_functional _ _ _ _ Hedge Hnp), Hp. by intros [= <-].
  - rewrite <- (inherits_from_functional _ _ _ _ Hcb Hedge).
    destruct (defs !! b) as [parent|] eqn:Hparent.
    + assert (Name parent = b) as Hname by exact (Hkeys _ _ Hparent).
      apply IH; [by rewrite Hname|by rewrite Hname|].
      rewrite Hname. intros s [x Hs].
      destruct (decide (Name cur = s)) as [<-|Hne]; [by apply tc_once|].
      rewrite lookup_insert_ne in Hs; [|done].
      eapply tc_r; [|exact Hcb]. apply Hanc. by eexists.
    + exfalso. inversion Hbn as [|? c ? (x & Hx & _) _]; subst.
      * destruct Hnp as (x & Hx & _). congruence.
      * congruence.
Qed.

(** X23. A parent that is missing anywhere up the chain is found: the
    validation of an image whose chain of parents reaches an image that
    declares a parent which is not marked external and is no definition of
    the set returns the missing parent error, naming that image and that
    parent. *)
Theorem verifyDependencies_finds_missing_parent defs d fuel n p :
  well_keyed defs →
  defs !! Name d = Some d →
  rtc (inherits_from defs) (Name d) n →
  inherits_from defs n p →
  defs !! p = None →
  size defs < fuel →
  verifyDependencies fuel d defs None = Some (Some (ErrMissingParent n p)).
Proof.
  intros Hkeys Hd Hreach Hnp Hp Hfuel.
  destruct (verifyDependencies_returns defs d Hkeys Hd) as [r Hr].
  specialize (Hr fuel Hfuel). rewrite Hr. f_equal.
  rewrite verifyDependencies_nil_stack in Hr.
  eapply verifyDependencies_missing_walk; [done..| |exact Hr].
  intros s [x Hs]. by rewrite lookup_empty in Hs.
Qed.

End Validator.

(** ** What loading the definitions returns *)

Section Loading.

Import Images.

Variable ExpandPath : string → string.
Variable path_Join : string → string → string.
Variable DirectoryExists : string → bool.
Variable FileExists : string → bool.
Variable GetChildDirectories : string → result (list string).
Variable ReadFile : string → result string.
Variable json_field : string → string → result (option string).
Variable range : gmap string ImageDefinition → list (string * ImageDefinition).

Hypothesis range_perm : ∀ m, range m ≡ₚ map_to_list m.

#[local] Abbreviation BuildDefinition :=
  (BuildDefinition ExpandPath path_Join DirectoryExists FileExists ReadFile json_field).
#[local] Abbreviation loadDefinitions :=
  (loadDefinitions ExpandPath path_Join DirectoryExists FileExists ReadFile json_field).
#[local] Abbreviation BuildAllDefinitions :=
  (BuildAllDefinitions ExpandPath path_Join DirectoryExists FileExists
     GetChildDirectories ReadFile json_field range).

Implicit Types defs acc : gmap string ImageDefinition.

(** The map the first loop of [BuildAllDefinitions] ends with: the
    definition of every name it was given, and what the map held under the
    other names. *)
Lemma loadDefinitions_lookup imageNames imagesDir acc defs :
  loadDefinitions imageNames imagesDir acc = Ok defs →
  ∀ k d, defs !! k = Some d ↔
         (k ∈ imageNames ∧ BuildDefinition k imagesDir = Ok d)
         ∨ ((k ∉ imageNames) ∧ acc !! k = Some d).
Proof.
  revert acc. induction imageNames as [|n imageNames IH]; intros acc.
  - intros [= <-] k d. split.
    + intros Hk. right. split; [by intros ?%elem_of_nil|done].
    + by intros [[?%elem_of_nil _]|[_ ?]].
  - cbn [Images.loadDefinitions].
    destruct (BuildDefinition n imagesDir) as [dn|] eqn:Hn; [|done].
    intros Hload k d. rewrite (IH _ Hload k d), !elem_of_cons.
    destruct (decide (k = n)) as [->|Hne].
    + rewrite lookup_insert_eq. split.
      * intros [[_ Hd]|[_ [= <-]]]; left; split; auto.
      * intros [[_ Hd]|[Hnot _]]; [|destruct Hnot; by left].
        destruct (decide (n ∈ imageNames)); [left; by split|].
        right. split; [done|congruence].
    + rewrite lookup_insert_ne; [|done]. split.
      * intros [[Hin Hd]|[Hnot Hacc]]; [left; by split; [right|]|].
        right. split; [|done]. by intros [?|?].
      * intros [[[?|Hin] Hd]|[Hnot Hacc]]; [done|left; by split|].
        right. split; [|done]. intros Hin. apply Hnot. by right.
Qed.

Lemma loadDefinitions_size imageNames imagesDir acc defs :
  loadDefinitions imageNames imagesDir acc = Ok defs →
  size defs ≤ size acc + length imageNames.
Proof.
  revert acc. induction imageNames as [|n imageNames IH]; intros acc.
  - intros [= <-]. cbn. lia.
  - cbn [Images.loadDefinitions length].
    destruct (BuildDefinition n imagesDir) as [dn|]; [|done].
    intros Hload%IH. rewrite map_size_insert in Hload.
    destruct (acc !! n); unfold id in Hload; lia.
Qed.

Lemma loadDefinitions_first_failure pre n post imagesDir acc e :
  Forall (λ m, ∃ d, BuildDefinition m imagesDir = Ok d) pre →
  BuildDefinition n imagesDir = Err e →
  loadDefinitions (pre ++ n :: post) imagesDir acc = Err e.
Proof.
  intros Hpre Hn. revert acc.
  induction Hpre as [|m pre [d Hd] _ IH]; intros acc; cbn [app Images.loadDefinitions].
  - by rewrite Hn.
  - rewrite Hd. apply IH.
Qed.

Lemma verifyAll_returns fuel order defs :
  (∀ k d, (k, d) ∈ order → is_Some (verifyDependencies fuel d defs None)) →
  is_Some (verifyAll fuel order defs).
Proof.
  induction order as [|[k d] order IH]; intros Hall; [by eexists|].
  cbn [verifyAll]. destruct (Hall k d) as [[err|] ->]; [by left|by eexists|].
  apply IH. intros k' d' Hin. apply (Hall k'). by right.
Qed.

Lemma verifyAll_error fuel order defs e :
  verifyAll fuel order defs = Some (Some e) →
  ∃ k d, (k, d) ∈ order ∧ verifyDependencies fuel d defs None = Some (Some e).
Proof.
  induction order as [|[k d] order IH]; [done|]. cbn [verifyAll].
  destruct (verifyDependencies fuel d defs None) as [[err|]|] eqn:Hd; [|..|done].
  - intros [= <-]. exists k, d. split; [by left|done].
  - intros (k' & d' & Hin & Hd')%IH. exists k', d'. split; [by right|done].
Qed.

(** X4. [BuildDefinition] returns a definition exactly when the image name
    and the image directory are not empty, the directory of the image and its
    [config.json] exist, the file can be read and decodes with an [inherits]
    that is not empty; the definition carries the image name, the expanded
    image directory, the path of the image in it and that [inherits]. *)
Theorem BuildDefinition_Ok_iff imageName imagesDir d :
  let imageDir := path_Join (ExpandPath imagesDir) imageName in
  let config := path_Join imageDir "config.json" in
  BuildDefinition imageName imagesDir = Ok d ↔
  is_empty imageName = false ∧ is_empty imagesDir = false
  ∧ DirectoryExists imageDir = true ∧ FileExists config = true
  ∧ (∃ data, ReadFile config = Ok data
             ∧ json_field data "inherits" = Ok (Some (Inherits d)))
  ∧ Inherits d ≠ EmptyString
  ∧ Name d = imageName ∧ ImageDir d = imageDir
  ∧ ImagesDir d = ExpandPath imagesDir.
Proof.
  intros imageDir config.
  unfold Images.BuildDefinition, Images.loadImageConfiguration, json_Unmarshal.
  cbn [ImageDir Name]. fold imageDir. fold config. split.
  - destruct (is_empty imageName); [done|]. destruct (is_empty imagesDir); [done|].
    destruct (DirectoryExists imageDir); [|done].
    destruct (FileExists config); [|done]. cbn [negb].
    destruct (ReadFile config) as [data|]; [|done].
    destruct (json_field data "inherits") as [[v|]|] eqn:Hjson; [|done..].
    cbn [cfg_Inherits]. destruct (is_empty v) eqn:Hv; [done|].
    intros [= <-]. cbn. repeat split; [by exists data|].
    intros ->. done.
  - intros (-> & -> & -> & -> & (data & -> & ->) & Hne & <- & <- & <-).
    cbn [negb cfg_Inherits]. destruct (is_empty (Inherits d)) eqn:Hempty.
    + by destruct (Inherits d).
    + by destruct d.
Qed.

(** X5. What a successful [BuildAllDefinitions] returns: the map holds an
    entry for every directory listed under the image directory and for
    nothing else, each entry is the definition [BuildDefinition] reads for
    that name, and every one of them passed the validation. *)
Theorem BuildAllDefinitions_Ok fuel imagesDir defs :
  BuildAllDefinitions fuel imagesDir = Some (Ok defs) →
  ∃ imageNames,
    GetChildDirectories imagesDir = Ok imageNames
    ∧ (∀ k, is_Some (defs !! k) ↔ k ∈ imageNames)
    ∧ (∀ k d, defs !! k = Some d → BuildDefinition k imagesDir = Ok d)
    ∧ (∀ k d, defs !! k = Some d →
              verifyDependencies fuel d defs None = Some None).
Proof.
  unfold Images.BuildAllDefinitions. destruct (is_empty imagesDir); [done|].
  destruct (GetChildDirectories imagesDir) as [imageNames|]; [|done].
  destruct (loadDefinitions imageNames imagesDir ∅) as [loaded|] eqn:Hload; [|done].
  destruct (verifyAll fuel (range loaded) loaded) as [[err|]|] eqn:Hverify; [done| |done].
  intros [= <-]. exists imageNames. split; [done|].
  pose proof (loadDefinitions_lookup _ _ _ _ Hload) as Hlookup.
  split; [|split].
  - intros k. split.
    + intros [d Hd]. apply Hlookup in Hd as [[? _]|[_ Hd]]; [done|].
      by rewrite lookup_empty in Hd.
    + intros Hin.
      destruct (BuildDefinition k imagesDir) as [d|e] eqn:Hk.
      * exists d. apply Hlookup. left. by split.
      * apply list_elem_of_split in Hin as (pre & post & ->).
        exfalso. revert Hload Hk. clear. revert loaded.
        generalize (∅ : gmap string ImageDefinition).
        induction pre as [|m pre IH]; intros acc loaded; cbn [app Images.loadDefinitions].
        -- intros Hload Hk. by rewrite Hk in Hload.
        -- destruct (BuildDefinition m imagesDir); [apply IH|done].
  - intros k d Hd. apply Hlookup in Hd as [[_ ?]|[_ Hd]]; [done|].
    by rewrite lookup_empty in Hd.
  - intros k d Hd. eapply verifyAll_nil_inv; [exact Hverify|].
    rewrite (range_perm loaded). by apply elem_of_map_to_list.
Qed.

(** X6. [BuildAllDefinitions] stops at the first image that cannot be read:
    when the images listed before it load and it does not, its error is
    returned, whatever comes after it and without any validation. *)
Theorem BuildAllDefinitions_first_failure fuel imagesDir pre n post e :
  is_empty imagesDir = false →
  GetChildDirectories imagesDir = Ok (pre ++ n :: post) →
  Forall (λ m, ∃ d, BuildDefinition m imagesDir = Ok d) pre →
  BuildDefinition n imagesDir = Err e →
  BuildAllDefinitions fuel imagesDir = Some (Err e).
Proof.
  intros Hdir Hnames Hpre Hn. unfold Images.BuildAllDefinitions.
  by rewrite Hdir, Hnames, (loadDefinitions_first_failure _ _ _ _ _ _ Hpre Hn).
Qed.

(** X7. [BuildAllDefinitions] returns, and a fuel above the number of
    directories listed is enough for it: its validation loop never runs out
    of invocations on the map it has just read. *)
Theorem BuildAllDefinitions_returns fuel imagesDir :
  (∀ imageNames, GetChildDirectories imagesDir = Ok imageNames →
                 length imageNames < fuel) →
  is_Some (BuildAllDefinitions fuel imagesDir).
Proof.
  intros Hfuel. unfold Images.BuildAllDefinitions.
  destruct (is_empty imagesDir); [by eexists|].
  destruct (GetChildDirectories imagesDir) as [imageNames|]; [|by eexists].
  specialize (Hfuel imageNames eq_refl).
  destruct (loadDefinitions imageNames imagesDir ∅) as [loaded|] eqn:Hload;
    [|by eexists].
  pose proof (loadDefinitions_size _ _ _ _ Hload) as Hsize.
  rewrite map_size_empty in Hsize.
  pose proof (loadDefinitions_well_keyed ExpandPath path_Join DirectoryExists
                FileExists ReadFile json_field _ _ _ _ (map_Forall_empty _) Hload)
    as Hkeys.
  destruct (verifyAll_returns fuel (range loaded) loaded) as [[err|] ->];
    [|by eexists..].
  intros k d Hin. rewrite (range_perm loaded) in Hin.
  apply elem_of_map_to_list in Hin.
  assert (Name d = k) as <- by exact (Hkeys _ _ Hin).
  destruct (verifyDependencies_returns loaded d Hkeys Hin) as [r Hr].
  exists r. apply Hr. lia.
Qed.

(** X8. When the images load and [BuildAllDefinitions] still returns an
    error, the error is true of the inheritance graph of what was loaded: it
    is the cyclical dependency or the missing parent of an image of the map
    or of one of its ancestors. *)
Theorem BuildAllDefinitions_validation_error fuel imagesDir imageNames defs e :
  is_empty imagesDir = false →
  GetChildDirectories imagesDir = Ok imageNames →
  loadDefinitions imageNames imagesDir ∅ = Ok defs →
  BuildAllDefinitions fuel imagesDir = Some (Err e) →
  ∃ k, is_Some (defs !! k) ∧ error_holds defs k e.
Proof.
  intros Hdir Hnames Hload. unfold Images.BuildAllDefinitions.
  rewrite Hdir, Hnames, Hload.
  destruct (verifyAll fuel (range defs) defs) as [[err|]|] eqn:Hverify; [|done..].
  intros [= ->]. apply verifyAll_error in Hverify as (k & d & Hin & Hd).
  rewrite (range_perm defs) in Hin. apply elem_of_map_to_list in Hin.
  pose proof (loadDefinitions_well_keyed ExpandPath path_Join DirectoryExists
                FileExists ReadFile json_field _ _ _ _ (map_Forall_empty _) Hload)
    as Hkeys.
  assert (Name d = k) as Hname by exact (Hkeys _ _ Hin).
  exists k. split; [by eexists|]. rewrite <- Hname.
  rewrite verifyDependencies_nil_stack in Hd.
  eapply verifyDependencies_error_walk; [done|by rewrite Hname|..|exact Hd].
  intros s [x Hs]. by rewrite lookup_empty in Hs.
Qed.

End Loading.

(** ** The outcomes of a build and of an extraction *)

Section DockerOutcomes.

Import Images.

Context {B : Type}.
Variable exec_Run : string → list string → B → option error * B.
Variable docker_cp : string → B → result string * B.
Variable MkdirAll_fault : string → B → option error * B.
Variable CleanDirectory_fault : string → B → option error * B.
Variable inside : string → string → bool.
Variable path_Join : string → string → string.
Variable range_env : gmap string string → list (string * string).

#[local] Abbreviation runCommand := (runCommand exec_Run docker_cp).
#[local] Abbreviation destroyContainer := (destroyContainer exec_Run docker_cp).
#[local] Abbreviation step := (step exec_Run docker_cp).
#[local] Abbreviation chain := (chain exec_Run docker_cp).
#[local] Abbreviation ensure_dir := (ensure_dir MkdirAll_fault).
#[local] Abbreviation CleanDirectory := (CleanDirectory CleanDirectory_fault inside).
#[local] Abbreviation BuildImageLayer :=
  (BuildImageLayer exec_Run docker_cp MkdirAll_fault range_env).
#[local] Abbreviation BuildImageLayer_steps := (BuildImageLayer_steps range_env).
#[local] Abbreviation ExtractImage_steps := (ExtractImage_steps path_Join).
#[local] Abbreviation ExtractImage :=
  (ExtractImage exec_Run docker_cp MkdirAll_fault CleanDirectory_fault inside path_Join).

(** A container started by [start], the steps run in it, and its teardown:
    the body that [BuildImageLayer] and [ExtractImage] share. *)
#[local] Abbreviation in_container tmpImageName start steps :=
  (bind (runCommand "docker" start)
     (λ err, match err with
             | Some _ => ret err
             | None => foldr (step tmpImageName) (destroyContainer tmpImageName) steps
             end)).

Implicit Types (w : World B) (evs : list event) (args : list string).

Lemma all_succeed_no_error cmds args err : (args, Some err) ∉ all_succeed cmds.
Proof.
  unfold all_succeed. intros (a & [= _ ?] & _)%list_elem_of_fmap.
Qed.

Lemma all_succeed_app cmds1 cmds2 :
  all_succeed (cmds1 ++ cmds2) = all_succeed cmds1 ++ all_succeed cmds2.
Proof. apply fmap_app. Qed.

(** A chain of steps that ends in the teardown returns [nil] only after
    every step, the stop and the removal succeeded; and an error it returns
    is the error of a command it ran. *)
Lemma chain_outcome tmpImageName steps w out :
  chain tmpImageName (destroyContainer tmpImageName) steps w out →
  (result_of out = None →
   results (events_of out)
   = all_succeed (steps ++ [["stop"; tmpImageName]; ["rm"; tmpImageName]]))
  ∧ (∀ err, result_of out = Some err →
            ∃ args, (args, Some err) ∈ results (events_of out)).
Proof.
  induction 1 as [w|args steps w out Hok _ [IHnil IHerr]
                 |args steps w err failed cleanup Herr].
  - destruct (destroyContainer_history exec_Run docker_cp tmpImageName w)
      as (_ & [(e & Hresults & Hres)|Hresults] & _); rewrite Hresults.
    + split; [congruence|]. intros err Herr. exists ["stop"; tmpImageName].
      rewrite Hres in Herr. injection Herr as <-. by left.
    + split; [by intros ->|]. intros err ->. exists ["rm"; tmpImageName].
      right. by left.
  - cbn [events_of result_of fst snd]. rewrite results_app.
    destruct (runCommand_docker exec_Run docker_cp args w) as (-> & _).
    rewrite Hok. split.
    + intros Hnil. by rewrite (IHnil Hnil).
    + intros err (a & Ha)%IHerr. exists a. by right.
  - cbn [events_of result_of fst snd]. subst failed. rewrite results_app.
    destruct (runCommand_docker exec_Run docker_cp args w) as (-> & _).
    rewrite Herr. split; [done|]. intros ? [= <-]. exists args. by left.
Qed.

(** The docker commands that wrote a file on the host are the [docker cp]
    commands of the chain, up to the first step that fails. *)
Lemma runCommand_written args w :
  let out := runCommand "docker" args w in
  (written (events_of out)).*1
  = match result_of out with
    | None => option_list (cp_target args)
    | Some _ => []
    end.
Proof.
  unfold Images.runCommand, cp_target.
  destruct args as [|sub [|src [|dst [|? ?]]]];
    try (destruct (exec_Run _ _ _) as [[?|] b]; by cbn).
  destruct (decide (_ ∧ _)) as [[_ ->]|Hne].
  - destruct (docker_cp _ _) as [[content|err] b]; by cbn.
  - destruct (decide (sub = "cp")) as [->|_]; [by destruct Hne|].
    destruct (exec_Run _ _ _) as [[?|] b]; by cbn.
Qed.

Lemma chain_written tmpImageName steps w out :
  chain tmpImageName (destroyContainer tmpImageName) steps w out →
  (written (events_of out)).*1 `prefix_of` omap cp_target steps
  ∧ (result_of out = None →
     (written (events_of out)).*1 = omap cp_target steps).
Proof.
  induction 1 as [w|args steps w out Hok _ [IHpre IHnil]
                 |args steps w err failed cleanup Herr].
  - destruct (destroyContainer_history exec_Run docker_cp tmpImageName w)
      as (_ & _ & -> & _). by split.
  - cbn [events_of result_of fst snd]. rewrite written_app, fmap_app.
    rewrite runCommand_written, Hok.
    destruct (cp_target args) as [target|] eqn:Htarget;
      cbn [option_list app omap list_omap]; rewrite Htarget.
    + split; [by apply prefix_cons|]. intros Hnil. by rewrite (IHnil Hnil).
    + done.
  - cbn [events_of result_of fst snd]. subst failed cleanup.
    rewrite written_app, fmap_app, runCommand_written, Herr.
    destruct (destroyContainer_history exec_Run docker_cp tmpImageName
                (state_of (runCommand "docker" args w))) as (_ & _ & -> & _).
    split; [apply prefix_nil|done].
Qed.

(** The shared body: the start of the container comes first; the teardown
    is entered exactly when the start succeeded; [nil] is returned only
    after every command succeeded; an error returned is the error of a
    command that was run; and nothing is run but the start, the steps in
    order and the two commands of the teardown. *)
Lemma in_container_outcome tmpImageName start steps w :
  let out := in_container tmpImageName start steps w in
  let teardown := [["stop"; tmpImageName]; ["rm"; tmpImageName]] in
  head (results (events_of out))
  = Some (start, result_of (runCommand "docker" start w))
  ∧ destroyed (events_of out)
    = match result_of (runCommand "docker" start w) with
      | None => [tmpImageName]
      | Some _ => []
      end
  ∧ (result_of out = None →
     results (events_of out) = all_succeed (start :: steps ++ teardown))
  ∧ (∀ err, result_of out = Some err →
            ∃ args, (args, Some err) ∈ results (events_of out))
  ∧ (∃ cmds cleanup,
       commands (events_of out) = cmds ++ cleanup
       ∧ cmds `prefix_of` (start :: steps)
       ∧ cleanup `prefix_of` teardown)
  ∧ (∀ e, result_of (runCommand "docker" start w) = Some e →
          result_of out = Some e ∧ results (events_of out) = [(start, Some e)]).
Proof.
  intros out teardown. subst out.
  rewrite bind_result, bind_events, results_app, destroyed_app, commands_app.
  rewrite (runCommand_commands exec_Run docker_cp).
  destruct (runCommand_docker exec_Run docker_cp start w) as (-> & -> & _).
  destruct (result_of (runCommand "docker" start w)) as [e|].
  - cbn. split; [done|]. split; [done|]. split; [done|]. split; [|split].
    + intros ? [= <-]. exists start. by left.
    + exists [start], []. split; [done|]. split; [apply prefix_cons, prefix_nil|].
      apply prefix_nil.
    + by intros ? [= <-].
  - pose proof (step_chain exec_Run docker_cp tmpImageName
                  (destroyContainer tmpImageName) steps
                  (state_of (runCommand "docker" start w))) as Hchain.
    destruct (chain_teardown _ _ _ _ _ _ Hchain) as [-> _].
    destruct (chain_outcome _ _ _ _ Hchain) as [Hnil Herr].
    destruct (chain_commands _ _ _ _ _ _ Hchain)
      as (cmds & cleanup & -> & Hcmds & Hcleanup).
    split; [done|]. split; [done|]. split; [|split; [|split]].
    + intros Hres. by rewrite (Hnil Hres).
    + intros err (a & Ha)%Herr. exists a. by right.
    + exists (start :: cmds), cleanup. split; [done|].
      split; [by apply prefix_cons|done].
    + done.
Qed.

Lemma errors_app evs1 evs2 : errors (evs1 ++ evs2) = errors evs1 ++ errors evs2.
Proof. apply omap_app. Qed.

Lemma runCommand_errors program args w :
  errors (events_of (runCommand program args w))
  = option_list (result_of (runCommand program args w)).
Proof.
  unfold Images.runCommand.
  destruct args as [|sub [|src [|dst [|? ?]]]];
    try (destruct (exec_Run _ _ _) as [[?|] b]; by cbn).
  destruct (decide _) as [_|_].
  - destruct (docker_cp _ _) as [[content|err] b]; by cbn.
  - destruct (exec_Run _ _ _) as [[?|] b]; by cbn.
Qed.

Lemma destroyContainer_errors containerName w :
  result_of (destroyContainer containerName w)
  = head (errors (events_of (destroyContainer containerName w))).
Proof.
  unfold Images.destroyContainer, Images.runCommand, bind, emit, ret.
  destruct (exec_Run "docker" ["stop"; containerName] _) as [[e|] b]; cbn; [done|].
  by destruct (exec_Run "docker" ["rm"; containerName] _) as [[e|] b'].
Qed.

(** A chain returns the first error of its history, and [nil] when the
    history has none. *)
Lemma chain_first_error tmpImageName steps w out :
  chain tmpImageName (destroyContainer tmpImageName) steps w out →
  result_of out = head (errors (events_of out)).
Proof.
  induction 1 as [w|args steps w out Hok _ IH
                 |args steps w err failed cleanup Herr].
  - apply destroyContainer_errors.
  - cbn [events_of result_of fst snd].
    by rewrite errors_app, runCommand_errors, Hok.
  - cbn [events_of result_of fst snd]. subst failed.
    by rewrite errors_app, runCommand_errors, Herr.
Qed.

Lemma in_container_first_error tmpImageName start steps w :
  let out := in_container tmpImageName start steps w in
  result_of out = head (errors (events_of out)).
Proof.
  intros out. subst out. rewrite bind_result, bind_events, errors_app.
  rewrite runCommand_errors.
  destruct (result_of (runCommand "docker" start w)) as [e|]; [done|].
  eapply chain_first_error, step_chain.
Qed.

(** What holds of the result and the history of [k] on every host holds of
    [ensure_dir path k], once it holds of the failure of [os.MkdirAll] and
    is kept by the success of [os.MkdirAll] in front of the history. *)
Lemma ensure_dir_lift (P : option error → list event → Prop) path
    (k : M B (option error)) w :
  (∀ err, P (Some err) [EvMkdirAll path (Some err)]) →
  (∀ r evs, P r evs → P r (EvMkdirAll path None :: evs)) →
  (∀ w1, P (result_of (k w1)) (events_of (k w1))) →
  P (result_of (ensure_dir path k w)) (events_of (ensure_dir path k w)).
Proof.
  intros Hfail Hmade Hk.
  destruct (ensure_dir_cases MkdirAll_fault path k w)
    as [(e & b & _ & -> & _)|(pre & w1 & -> & _ & _ & _ & [[-> _]|[-> _]])].
  - apply Hfail.
  - apply Hk.
  - apply Hmade, Hk.
Qed.

(** The same for [utils.CleanDirectory] in front of [k]. *)
Lemma CleanDirectory_lift (P : option error → list event → Prop) path
    (k : M B (option error)) w :
  let cleaned :=
    bind (CleanDirectory path)
      (λ err, match err with Some _ => ret err | None => k end) in
  (∀ err, P (Some err) [EvCleanDirectory path (Some err)]) →
  (∀ r evs, P r evs → P r (EvCleanDirectory path None :: evs)) →
  (∀ w1, P (result_of (k w1)) (events_of (k w1))) →
  P (result_of (cleaned w)) (events_of (cleaned w)).
Proof.
  intros cleaned Hfail Hcleaned Hk. subst cleaned.
  rewrite bind_result, bind_events.
  destruct (CleanDirectory_cases CleanDirectory_fault inside path w)
    as [(e & b & ->)|(b & ->)]; cbn [result_of state_of events_of fst snd].
  - apply Hfail.
  - apply Hcleaned, Hk.
Qed.

(** *** Builds *)

(** The results of a chain that ends in the teardown: its steps succeeded
    one after the other up to one that failed, which the teardown follows
    at once; or they all succeeded and the teardown follows. *)
Lemma chain_results tmpImageName steps w out :
  chain tmpImageName (destroyContainer tmpImageName) steps w out →
  (∃ ok args err post td,
     steps = ok ++ args :: post
     ∧ results (events_of out) = all_succeed ok ++ (args, Some err) :: td
     ∧ teardown_results tmpImageName td)
  ∨ (∃ td, results (events_of out) = all_succeed steps ++ td
           ∧ teardown_results tmpImageName td).
Proof.
  assert (∀ w', teardown_results tmpImageName
                  (results (events_of (destroyContainer tmpImageName w'))))
    as Hteardown.
  { intros w'.
    destruct (destroyContainer_history exec_Run docker_cp tmpImageName w')
      as (_ & [(e & -> & _)| ->] & _); [left|right]; by eexists. }
  induction 1 as [w|args steps w out Hok _ IH
                 |args steps w err failed cleanup Herr].
  - right. by eexists.
  - cbn [events_of snd]. rewrite results_app.
    destruct (runCommand_docker exec_Run docker_cp args w) as (-> & _).
    rewrite Hok.
    destruct IH as [(ok & args' & err & post & td & -> & -> & Htd)|(td & -> & Htd)].
    + left. by exists (args :: ok), args', err, post, td.
    + right. by exists td.
  - cbn [events_of snd]. subst failed cleanup. rewrite results_app.
    destruct (runCommand_docker exec_Run docker_cp args w) as (-> & _).
    rewrite Herr. left. exists [], args, err, steps. by eexists.
Qed.

(** X9. The docker commands of a run of [BuildImageLayer] and how each
    ended, whatever fails: none (the cache directory could not be made);
    the start of the container alone, which failed; the start and the
    planned steps in the order of the plan, all successful up to one step
    that failed, followed at once by the teardown; or the start and every
    planned step, all successful, followed by the teardown.  So no step is
    run after one that failed, none is run out of order, and the teardown
    runs the removal only after a stop that succeeded. *)
Theorem BuildImageLayer_plan imageDefinition tags buildPrefix packageCache
    environmentVariables w :
  let tmpImageName := BuildImageLayer_tmpImageName imageDefinition in
  let start := BuildImageLayer_start imageDefinition buildPrefix packageCache in
  let steps := BuildImageLayer_steps imageDefinition tags buildPrefix packageCache
                 environmentVariables in
  let history := results (events_of (BuildImageLayer imageDefinition tags buildPrefix
                                       packageCache environmentVariables w)) in
  history = []
  ∨ (∃ err, history = [(start, Some err)])
  ∨ (∃ ok args err post td,
       steps = ok ++ args :: post
       ∧ history = all_succeed (start :: ok) ++ (args, Some err) :: td
       ∧ teardown_results tmpImageName td)
  ∨ (∃ td, history = all_succeed (start :: steps) ++ td
           ∧ teardown_results tmpImageName td).
Proof.
  intros tmpImageName start steps history. subst history.
  rewrite (BuildImageLayer_unfold exec_Run docker_cp MkdirAll_fault range_env).
  cbv zeta. fold tmpImageName. fold start. fold steps.
  set (P := λ (r : option error) evs,
              results evs = []
              ∨ (∃ err, results evs = [(start, Some err)])
              ∨ (∃ ok args err post td,
                   steps = ok ++ args :: post
                   ∧ results evs = all_succeed (start :: ok) ++ (args, Some err) :: td
                   ∧ teardown_results tmpImageName td)
              ∨ (∃ td, results evs = all_succeed (start :: steps) ++ td
                       ∧ teardown_results tmpImageName td)).
  assert (∀ w1, P (result_of (in_container tmpImageName start steps w1))
                  (events_of (in_container tmpImageName start steps w1))) as Hbody.
  { intros w1. unfold P.
    destruct (in_container_outcome tmpImageName start steps w1)
      as (_ & _ & _ & _ & _ & Hfailed).
    rewrite bind_events, results_app.
    destruct (runCommand_docker exec_Run docker_cp start w1) as (Hstart & _).
    destruct (result_of (runCommand "docker" start w1)) as [e|] eqn:Hres.
    { right. left. exists e. destruct (Hfailed e eq_refl) as [_ Hresults].
      by rewrite bind_events, results_app, Hres in Hresults. }
    rewrite Hstart.
    destruct (chain_results _ _ _ _
                (step_chain exec_Run docker_cp tmpImageName
                   (destroyContainer tmpImageName) steps
                   (state_of (runCommand "docker" start w1))))
      as [(ok & args & err & post & td & Hsteps & -> & Htd)|(td & -> & Htd)].
    - right. right. left. by exists ok, args, err, post, td.
    - right. right. right. by exists td. }
  destruct (is_empty packageCache); [apply Hbody|].
  apply (ensure_dir_lift P); [|done|done].
  intros err. by left.
Qed.

(** X10. [BuildImageLayer] tears the container down exactly when it started
    it: after a [docker run] that succeeded, whatever came next, the
    teardown is entered once on the container of the build; otherwise an
    error is returned, no teardown is entered, and no docker command was
    run but the [docker run] that failed. *)
Theorem BuildImageLayer_teardown_iff_started imageDefinition tags buildPrefix
    packageCache environmentVariables w :
  let out := BuildImageLayer imageDefinition tags buildPrefix packageCache
               environmentVariables w in
  let start := BuildImageLayer_start imageDefinition buildPrefix packageCache in
  (head (results (events_of out)) = Some (start, None)
   ∧ destroyed (events_of out) = [BuildImageLayer_tmpImageName imageDefinition])
  ∨ (∃ err, result_of out = Some err
            ∧ destroyed (events_of out) = []
            ∧ (results (events_of out) = []
               ∨ results (events_of out) = [(start, Some err)])).
Proof.
  intros out start. subst out.
  rewrite (BuildImageLayer_unfold exec_Run docker_cp MkdirAll_fault range_env).
  cbv zeta. fold start.
  set (tmpImageName := BuildImageLayer_tmpImageName imageDefinition).
  set (steps := Images.BuildImageLayer_steps _ _ _ _ _ _).
  set (P := λ (r : option error) evs,
              (head (results evs) = Some (start, None)
               ∧ destroyed evs = [tmpImageName])
              ∨ (∃ err, r = Some err ∧ destroyed evs = []
                        ∧ (results evs = [] ∨ results evs = [(start, Some err)]))).
  assert (∀ w1, P (result_of (in_container tmpImageName start steps w1))
                  (events_of (in_container tmpImageName start steps w1))) as Hbody.
  { intros w1.
    destruct (in_container_outcome tmpImageName start steps w1)
      as (Hhead & Hdestroyed & _ & _ & _ & Hfailed).
    destruct (result_of (runCommand "docker" start w1)) as [e|].
    - right. exists e. destruct (Hfailed e eq_refl) as [-> ->]. auto.
    - by left. }
  destruct (is_empty packageCache); [apply Hbody|].
  apply (ensure_dir_lift P); [|done|done].
  intros err. right. exists err. auto.
Qed.


(** X11. [BuildImageLayer] returns [nil] exactly when the start of the
    container, every planned step (the commit and every tag among them),
    the stop and the removal of the container were all run and all
    succeeded. *)
Theorem BuildImageLayer_complete imageDefinition tags buildPrefix packageCache
    environmentVariables w :
  let tmpImageName := BuildImageLayer_tmpImageName imageDefinition in
  let out := BuildImageLayer imageDefinition tags buildPrefix packageCache
               environmentVariables w in
  result_of out = None ↔
  results (events_of out)
  = all_succeed
      (BuildImageLayer_start imageDefinition buildPrefix packageCache
       :: BuildImageLayer_steps imageDefinition tags buildPrefix packageCache
            environmentVariables
       ++ [["stop"; tmpImageName]; ["rm"; tmpImageName]]).
Proof.
  intros tmpImageName out. subst out.
  rewrite (BuildImageLayer_unfold exec_Run docker_cp MkdirAll_fault range_env).
  cbv zeta. fold tmpImageName.
  set (start := BuildImageLayer_start _ _ _).
  set (steps := BuildImageLayer_steps _ _ _ _ _).
  set (full := all_succeed _).
  set (P := λ (r : option error) evs, r = None ↔ results evs = full).
  assert (∀ w1, P (result_of (in_container tmpImageName start steps w1))
                  (events_of (in_container tmpImageName start steps w1))) as Hbody.
  { intros w1.
    destruct (in_container_outcome tmpImageName start steps w1)
      as (_ & _ & Hnil & Herr & _).
    split; [exact Hnil|]. intros Hfull.
    destruct (result_of (in_container tmpImageName start steps w1)) as [err|];
      [|done].
    destruct (Herr err eq_refl) as [args Hargs]. rewrite Hfull in Hargs.
    by apply all_succeed_no_error in Hargs. }
  destruct (is_empty packageCache); [apply Hbody|].
  apply (ensure_dir_lift P); [|done|done].
  intros err. by split.
Qed.

(** X12. The error [BuildImageLayer] returns is the first error of the run:
    that of [os.MkdirAll], of the start of the container, of the first step
    that failed (what the teardown then answers is dropped), or of the
    teardown after a build whose steps all succeeded; and it returns [nil]
    when nothing failed. *)
Theorem BuildImageLayer_first_error imageDefinition tags buildPrefix packageCache
    environmentVariables w :
  let out := BuildImageLayer imageDefinition tags buildPrefix packageCache
               environmentVariables w in
  result_of out = head (errors (events_of out)).
Proof.
  intros out. subst out.
  rewrite (BuildImageLayer_unfold exec_Run docker_cp MkdirAll_fault range_env).
  cbv zeta.
  set (tmpImageName := BuildImageLayer_tmpImageName imageDefinition).
  set (start := BuildImageLayer_start _ _ _).
  set (steps := Images.BuildImageLayer_steps _ _ _ _ _ _).
  destruct (is_empty packageCache); [apply in_container_first_error|].
  apply (ensure_dir_lift (λ r evs, r = head (errors evs))); [done|done|].
  intros w1. apply in_container_first_error.
Qed.

(** *** Extractions *)

Lemma apply_writes_lookup_in ws (m : gmap string string) p :
  p ∈ ws.*1 → is_Some (apply_writes ws m !! p).
Proof.
  revert m. induction ws as [|[p' c] ws IH]; intros m; [by intros ?%elem_of_nil|].
  intros Hin. change (apply_writes ((p', c) :: ws) m)
    with (apply_writes ws (<[p' := c]> m)).
  destruct (decide (p ∈ ws.*1)) as [Hlater|Hnot]; [by apply IH|].
  rewrite apply_writes_lookup_ne; [|done].
  cbn in Hin. apply elem_of_cons in Hin as [->|?]; [|done].
  rewrite lookup_insert_eq. by eexists.
Qed.

(** The files and directories that the shared body leaves on the host. *)
Lemma in_container_host tmpImageName start steps w :
  let out := in_container tmpImageName start steps w in
  cp_target start = None →
  files (state_of out) = apply_writes (written (events_of out)) (files w)
  ∧ dirs (state_of out) = dirs w
  ∧ (written (events_of out)).*1 `prefix_of` omap cp_target steps
  ∧ (result_of out = None →
     (written (events_of out)).*1 = omap cp_target steps).
Proof.
  intros out Hstart. subst out.
  rewrite bind_result, bind_state, bind_events, written_app, fmap_app.
  rewrite apply_writes_app.
  pose proof (runCommand_written start w) as Hwritten. cbv zeta in Hwritten.
  rewrite Hstart in Hwritten.
  assert ((written (events_of (runCommand "docker" start w))).*1 = []) as Hnone.
  { rewrite Hwritten. by destruct (result_of _). }
  apply fmap_nil_inv in Hnone.
  destruct (runCommand_docker exec_Run docker_cp start w) as (_ & _ & Hf & Hd).
  rewrite Hnone in Hf |- *. cbn [apply_writes foldl fmap list_fmap app] in Hf |- *.
  destruct (result_of (runCommand "docker" start w)) as [e|].
  - cbn. rewrite Hf, Hd. split; [done|]. split; [done|]. split; [apply prefix_nil|done].
  - pose proof (step_chain exec_Run docker_cp tmpImageName
                  (destroyContainer tmpImageName) steps
                  (state_of (runCommand "docker" start w))) as Hchain.
    destruct (chain_writes _ _ _ _ _ _ Hchain) as [-> ->].
    destruct (chain_written _ _ _ _ Hchain) as [Hpre Hnil].
    by rewrite Hf, Hd.
Qed.

(** The host after [ExtractImage], whatever the outcome: the files are
    those found, or those found outside the destination, under what
    [docker cp] wrote; [docker cp] wrote the three artifacts, in order, up
    to the first command that failed; and the directories outside the
    destination that are not on the way to it are those found. *)
Lemma ExtractImage_host name tag destination w :
  let out := ExtractImage name tag destination w in
  let outside := filter (λ kv : string * string, inside destination kv.1 = false) in
  let targets := [path_Join destination "rootfs.squash";
                  path_Join destination "vmlinuz-linux";
                  path_Join destination "initramfs-linux.img"] in
  ∃ base,
    (base = files w ∧ result_of out ≠ None ∨ base = outside (files w))
    ∧ files (state_of out) = apply_writes (written (events_of out)) base
    ∧ (written (events_of out)).*1 `prefix_of` targets
    ∧ (result_of out = None → (written (events_of out)).*1 = targets)
    ∧ (∀ d, d ∉ destination :: ancestors destination →
            inside destination d = false →
            d ∈ dirs (state_of out) ↔ d ∈ dirs w).
Proof.
  intros out outside targets. subst out.
  rewrite (ExtractImage_unfold exec_Run docker_cp MkdirAll_fault
             CleanDirectory_fault inside path_Join).
  set (tmpImageName := ExtractImage_tmpImageName name).
  set (start := ExtractImage_start name tag).
  set (steps := Images.ExtractImage_steps path_Join name destination).
  set (cleaned := bind _ _).
  assert (∀ dirs1 : gset string,
            grown_by destination (dirs w) dirs1 →
            ∀ d, d ∉ destination :: ancestors destination →
                 d ∈ dirs1 ↔ d ∈ dirs w) as Hgrown.
  { intros dirs1 [Hkept Hmade] d Hd. split; [|apply Hkept].
    by intros [?|?]%Hmade. }
  destruct (ensure_dir_cases MkdirAll_fault destination cleaned w)
    as [(e & w1 & _ & -> & Hfiles & Hdirs)
       |(pre & w1 & -> & Hfiles & _ & Hdirs & Hpre)].
  { exists (files w). cbn. split; [by left|]. split; [done|].
    split; [apply prefix_nil|]. split; [done|].
    intros d Hd _. by apply Hgrown. }
  cbn [result_of state_of events_of fst snd].
  destruct w1 as [files1 dirs1 b1]. cbn [files dirs] in Hfiles, Hdirs.
  subst files1.
  assert (written pre = []) as Hwritten by (by destruct Hpre as [(-> & _)|[-> _]]).
  rewrite written_app, Hwritten. cbn [app].
  unfold cleaned. rewrite bind_result, bind_state, bind_events.
  destruct (CleanDirectory_cases CleanDirectory_fault inside destination
              (mkWorld (files w) dirs1 b1))
    as [(e & b & ->)|(b & ->)];
    cbn [result_of state_of events_of fst snd files dirs].
  { exists (files w). cbn. split; [by left|]. split; [done|].
    split; [apply prefix_nil|]. split; [done|].
    intros d Hd _. by apply Hgrown. }
  set (w2 := mkWorld _ _ b).
  change (written (EvCleanDirectory destination None
                   :: events_of (in_container tmpImageName start steps w2)))
    with (written (events_of (in_container tmpImageName start steps w2))).
  destruct (in_container_host tmpImageName start steps w2)
    as (Hf & Hd & Hprefix & Hnil); [done|].
  exists (outside (files w)). split; [by right|].
  rewrite Hf, Hd. unfold w2. cbn [files dirs].
  split; [done|]. split; [exact Hprefix|]. split; [exact Hnil|].
  intros d Hne Hout. rewrite elem_of_filter, (Hgrown dirs1 Hdirs d Hne).
  split; [by intros [_ ?]|]. intros Hin. split; [by right|done].
Qed.

(** X13. The error [ExtractImage] returns is the first error of the run:
    that of [os.MkdirAll], of the cleaning of the destination, of the start
    of the container, of the first step that failed, or of the teardown
    after steps that all succeeded; and it returns [nil] when nothing
    failed. *)
Theorem ExtractImage_first_error name tag destination w :
  let out := ExtractImage name tag destination w in
  result_of out = head (errors (events_of out)).
Proof.
  intros out. subst out.
  rewrite (ExtractImage_unfold exec_Run docker_cp MkdirAll_fault
             CleanDirectory_fault inside path_Join).
  apply (ensure_dir_lift (λ r evs, r = head (errors evs))); [done|done|].
  intros w1.
  apply (CleanDirectory_lift (λ r evs, r = head (errors evs))); [done|done|].
  intros w2. apply in_container_first_error.
Qed.

(** X14. [ExtractImage] tears the container down exactly when it started
    it: after a [docker run] that succeeded the teardown is entered once, on
    the container of the extraction; otherwise an error is returned, no
    teardown is entered, nothing was copied out, and no docker command was
    run but the [docker run] that failed: none at all when the destination
    could not be made or cleaned. *)
Theorem ExtractImage_teardown_iff_started name tag destination w :
  let out := ExtractImage name tag destination w in
  let start := ExtractImage_start name tag in
  (head (results (events_of out)) = Some (start, None)
   ∧ destroyed (events_of out) = [ExtractImage_tmpImageName name])
  ∨ (∃ err, result_of out = Some err
            ∧ destroyed (events_of out) = []
            ∧ written (events_of out) = []
            ∧ (results (events_of out) = []
               ∨ results (events_of out) = [(start, Some err)])).
Proof.
  intros out start. subst out.
  rewrite (ExtractImage_unfold exec_Run docker_cp MkdirAll_fault
             CleanDirectory_fault inside path_Join).
  fold start.
  set (tmpImageName := ExtractImage_tmpImageName name).
  set (steps := Images.ExtractImage_steps path_Join name destination).
  set (P := λ (r : option error) evs,
              (head (results evs) = Some (start, None)
               ∧ destroyed evs = [tmpImageName])
              ∨ (∃ err, r = Some err ∧ destroyed evs = [] ∧ written evs = []
                        ∧ (results evs = [] ∨ results evs = [(start, Some err)]))).
  apply (ensure_dir_lift P); [|done|].
  { intros err. right. exists err. auto. }
  intros w1. apply (CleanDirectory_lift P); [|done|].
  { intros err. right. exists err. auto. }
  intros w2.
  destruct (in_container_outcome tmpImageName start steps w2)
    as (Hhead & Hdestroyed & _ & _ & _ & Hfailed).
  destruct (in_container_host tmpImageName start steps w2)
    as (_ & _ & Hwritten & _); [done|].
  destruct (result_of (runCommand "docker" start w2)) as [e|] eqn:Hstart;
    [|by left].
  right. exists e. destruct (Hfailed e eq_refl) as [Hres Hresults].
  split; [done|]. split; [done|]. split; [|by right].
  pose proof (runCommand_written start w2) as Hcp. cbv zeta in Hcp.
  rewrite Hstart in Hcp. apply fmap_nil_inv in Hcp.
  by rewrite bind_events, Hstart, written_app, Hcp.
Qed.

(** X15. [ExtractImage] returns [nil] exactly when the start of the
    container, the [mksquashfs], the three copies out of the container, the
    stop and the removal of the container were all run and all
    succeeded. *)
Theorem ExtractImage_complete name tag destination w :
  let tmpImageName := ExtractImage_tmpImageName name in
  let out := ExtractImage name tag destination w in
  result_of out = None ↔
  results (events_of out)
  = all_succeed
      (ExtractImage_start name tag
       :: ExtractImage_steps name destination
       ++ [["stop"; tmpImageName]; ["rm"; tmpImageName]]).
Proof.
  intros tmpImageName out. subst out.
  rewrite (ExtractImage_unfold exec_Run docker_cp MkdirAll_fault
             CleanDirectory_fault inside path_Join).
  fold tmpImageName.
  set (start := ExtractImage_start name tag).
  set (steps := Images.ExtractImage_steps path_Join name destination).
  set (full := all_succeed _).
  set (P := λ (r : option error) evs, r = None ↔ results evs = full).
  apply (ensure_dir_lift P); [by split|done|].
  intros w1. apply (CleanDirectory_lift P); [by split|done|].
  intros w2.
  destruct (in_container_outcome tmpImageName start steps w2)
    as (_ & _ & Hnil & Herr & _).
  split; [exact Hnil|]. intros Hfull.
  destruct (result_of (in_container tmpImageName start steps w2)) as [err|];
    [|done].
  destruct (Herr err eq_refl) as [args Hargs]. rewrite Hfull in Hargs.
  by apply all_succeed_no_error in Hargs.
Qed.

(** X16. After an [ExtractImage] that returned [nil], the three artifacts
    are files of the host at their paths under the destination; of the
    other paths, those inside the destination hold nothing and those
    outside hold what they held before. *)
Theorem ExtractImage_artifacts name tag destination w :
  let out := ExtractImage name tag destination w in
  let targets := [path_Join destination "rootfs.squash";
                  path_Join destination "vmlinuz-linux";
                  path_Join destination "initramfs-linux.img"] in
  result_of out = None →
  (∀ t, t ∈ targets → is_Some (files (state_of out) !! t))
  ∧ (∀ p, p ∉ targets →
          files (state_of out) !! p
          = if inside destination p then None else files w !! p).
Proof.
  intros out targets Hnil.
  destruct (ExtractImage_host name tag destination w)
    as (base & Hbase & Hfiles & _ & Hwritten & _).
  fold out in Hbase, Hfiles, Hwritten. specialize (Hwritten Hnil).
  destruct Hbase as [[_ ?]| ->]; [done|]. rewrite Hfiles. split.
  - intros t Ht. apply apply_writes_lookup_in. by rewrite Hwritten.
  - intros p Hp. rewrite apply_writes_lookup_ne; [|by rewrite Hwritten].
    destruct (inside destination p) eqn:Hinside.
    + apply map_lookup_filter_None. right. intros c _. cbn. congruence.
    + destruct (files w !! p) as [c|] eqn:Hfile.
      * by apply map_lookup_filter_Some.
      * apply map_lookup_filter_None. by left.
Qed.


(** *** The parent image of a build *)




End DockerOutcomes.

(** ** The resources and the failures of an extraction through containerd *)

Section ExtractOutcomes.

Import Repository.

Context {B : Type} `{Backend B}.

Implicit Types (b : B) (node : Node) (evs : list event).

Lemma acquired_app evs1 evs2 : acquired (evs1 ++ evs2) = acquired evs1 ++ acquired evs2.
Proof. apply omap_app. Qed.

Lemma released_app evs1 evs2 : released (evs1 ++ evs2) = released evs1 ++ released evs2.
Proof. apply omap_app. Qed.

Lemma checked_errors_app evs1 evs2 :
  checked_errors (evs1 ++ evs2) = checked_errors evs1 ++ checked_errors evs2.
Proof. apply omap_app. Qed.

Lemma only_copies_resources evs :
  only_copies evs → acquired evs = [] ∧ released evs = [].
Proof.
  induction 1 as [|ev evs Hev _ [IH1 IH2]]; [done|]. by destruct ev.
Qed.

Lemma succeeded_copies_errors evs :
  Forall succeeded_copy evs → checked_errors evs = [].
Proof.
  induction 1 as [|ev evs Hev _ IH]; [done|].
  by destruct ev as [| | | | | | | | | | | | |? ? [?|]].
Qed.

Lemma defer_result {A C} (cleanup : Run B event C) (body : Run B event A) b :
  result_of (defer cleanup body b) = result_of (body b).
Proof. unfold defer. by rewrite !bind_result. Qed.

(** *** The copy phase stops at the first copy that fails *)

Lemma stops_at_failure_bind (m k : Run B event (option error)) b :
  stops_at_failure (result_of (m b)) (events_of (m b)) →
  (∀ b', stops_at_failure (result_of (k b')) (events_of (k b'))) →
  let out := (do err <- m in
              match err with Some _ => ret err | None => k end) b in
  stops_at_failure (result_of out) (events_of out).
Proof.
  intros (ok & Hok & Hm) Hk out. subst out. rewrite bind_result, bind_events.
  destruct (result_of (m b)) as [err|] eqn:Hres.
  - cbn [ret result_of events_of fst snd]. rewrite app_nil_r. by exists ok.
  - destruct Hm as [->|(? & ? & ? & _ & [=])].
    destruct (Hk (state_of (m b))) as (ok' & Hok' & Hk').
    exists (ok ++ ok'). split; [by apply Forall_app|].
    destruct Hk' as [->|(src & dst & e & -> & ->)]; [by left|].
    right. exists src, dst, e. by rewrite app_assoc.
Qed.

Lemma copy_entry_stops srcDir destination path v b :
  let out := copy_entry srcDir destination path v b in
  stops_at_failure (result_of out) (events_of out).
Proof.
  destruct v as [info|err|info err]; cbn [copy_entry].
  - destruct (negb (IsDir info) && HasPrefix path srcDir).
    + unfold CopyFile. rewrite call_run. cbn [result_of events_of fst snd].
      destruct (CopyFile_fault _ _ b).1 as [e|].
      * exists []. split; [constructor|]. right. by eexists _, _, e.
      * eexists [_]. split; [|by left]. by repeat constructor.
    + exists []. split; [constructor|by left].
  - exists []. split; [constructor|by left].
  - exists []. split; [constructor|by left].
Qed.

Lemma walk_stops srcDir destination node :
  ∀ path b,
    let out := walk path node (copy_entry srcDir destination) b in
    stops_at_failure (result_of out) (events_of out).
Proof.
  induction node as [kind|err|entries readErr IH] using Node_entries_ind;
    intros path b; cbn [walk]; [apply copy_entry_stops..|].
  destruct readErr as [err|].
  { cbn. exists []. split; [constructor|by left]. }
  apply (stops_at_failure_bind
           (copy_entry srcDir destination path (Visited InfoDir))
           (walk_entries (λ path child, walk path child (copy_entry srcDir destination))
              path entries)); [apply copy_entry_stops|].
  clear b. induction IH as [|[name child] entries Hchild _ IHentries]; intros b.
  { exists []. split; [constructor|by left]. }
  cbn [walk_entries]. apply stops_at_failure_bind; [apply Hchild|exact IHentries].
Qed.

(** X19. The copy phase of the extraction through containerd stops at the
    first copy that fails: its history is a run of copies that succeeded,
    followed by nothing, or by one failed copy whose error is what the
    phase returns. *)
Theorem copy_staged_stops_at_failure destination root mount b :
  let out := copy_staged destination root mount b in
  stops_at_failure (result_of out) (events_of out).
Proof. apply walk_stops. Qed.

(** *** What an extraction takes, it gives back *)

Lemma copy_staged_outcome destination root mount b :
  let out := copy_staged destination root mount b in
  acquired (events_of out) = [] ∧ released (events_of out) = []
  ∧ (checked_errors (events_of out) = []
     ∨ ∃ e, checked_errors (events_of out) = [e] ∧ result_of out = Some e).
Proof.
  intros out. subst out.
  destruct (walk_copies (Path.Join root "extract") destination
              (lstat_entry mount "extract") EmptyString b) as (_ & _ & Honly).
  rewrite string_app_empty_r in Honly.
  apply only_copies_resources in Honly as [Hacquired Hreleased].
  split; [exact Hacquired|]. split; [exact Hreleased|].
  destruct (walk_stops (Path.Join root "extract") destination
              (lstat_entry mount "extract") (Path.Join root "extract") b)
    as (ok & Hok & Hevs).
  apply succeeded_copies_errors in Hok. unfold copy_staged.
  destruct Hevs as [->|(src & dst & e & -> & ->)]; [by left|].
  right. exists e. by rewrite checked_errors_app, Hok.
Qed.

(** The history of an extraction, whatever its outcome: what was taken is
    given back in the reverse order, and at most one step failed, whose
    error is the result. *)
Lemma ExtractImage_outcome imageRef destination b :
  let out := ExtractImage imageRef destination b in
  released (events_of out) = rev (acquired (events_of out))
  ∧ (checked_errors (events_of out) = []
     ∨ ∃ e, checked_errors (events_of out) = [e] ∧ result_of out = Some e).
Proof.
  intros out. subst out.
  pose proof (copy_staged_outcome destination) as Hcopy. cbv zeta in Hcopy.
  unfold ExtractImage, WithTempMount.
  generalize dependent (copy_staged destination). intros copy Hcopy.
  unfold defer, call, call_, bind, ret.
  destruct (client_WithLease b) as [[err|] b1]; cbn.
  { split; [done|]. right. by exists err. }
  destruct (client_GetImage (FullName imageRef) b1) as [[img|err] b2]; cbn.
  2:{ split; [done|]. right. by exists err. }
  destruct (NewWorkspace b2) as [[ws|err] b3]; cbn.
  2:{ split; [done|]. right. by exists err. }
  destruct (createTempMounts ws b3) as [[mounts dropped] b4]; cbn.
  destruct (NewID b4) as [id b5]; cbn.
  destruct (session_createSnapshot id img b5) as [[err|] b6]; cbn.
  { split; [done|]. right. by exists err. }
  destruct (session_RunContainer id img mounts _ b6) as [[err|] b7]; cbn.
  { split; [done|]. right. by exists err. }
  destruct (snapshotter_Mounts id b7) as [[err|] b8]; cbn.
  { split; [done|]. right. by exists err. }
  destruct (temp_mount id b8) as [[[root mount]|err] b9]; cbn.
  2:{ split; [done|]. right. by exists err. }
  specialize (Hcopy root mount b9).
  destruct (copy root mount b9) as [[r b10] evs].
  cbn [result_of events_of fst snd] in Hcopy.
  destruct Hcopy as (Hacquired & Hreleased & Herrors).
  unfold released, acquired, checked_errors in *.
  destruct r as [e0|]; cbn; rewrite !omap_app, Hacquired, Hreleased.
  all: split; [done|].
  all: destruct Herrors as [->|(e & -> & Hr)]; [by left|right; by exists e].
Qed.

(** X20. Whatever the outcome of an extraction through containerd, what it
    took it has given back when it returns, each once and in the reverse
    order: the mount of the upper layer, the snapshot under its key, the
    workspace and the lease; and nothing that was not taken is given
    back. *)
Theorem Session_ExtractImage_releases imageRef destination b :
  let evs := events_of (ExtractImage imageRef destination b) in
  released evs = rev (acquired evs).
Proof. apply ExtractImage_outcome. Qed.

(** X21. An extraction through containerd stops at the first step that
    fails, of those whose error it tests: after such a step nothing happens
    but the deferred releases, no tested step failed before it, and its
    error is what the extraction returns.  The error of [createTempMounts]
    is not tested: when it fails the extraction goes on and draws the
    identifier of the snapshot. *)
Theorem Session_ExtractImage_first_error imageRef destination b :
  let out := ExtractImage imageRef destination b in
  (checked_errors (events_of out) = []
   ∨ ∃ before ev e releases,
       events_of out = before ++ ev :: releases
       ∧ checked_errors before = []
       ∧ checked_error ev = Some e
       ∧ Forall is_release releases
       ∧ result_of out = Some e)
  ∧ (∀ ws e, EvCreateTempMounts ws (Some e) ∈ events_of out →
             ∃ id, EvNewID id ∈ events_of out).
Proof.
  intros out. subst out.
  pose proof (λ root mount b',
                walk_stops (Path.Join root "extract") destination
                  (lstat_entry mount "extract") (Path.Join root "extract") b')
    as Hcopy.
  cbv zeta in Hcopy.
  change (∀ root mount b',
            stops_at_failure (result_of (copy_staged destination root mount b'))
              (events_of (copy_staged destination root mount b'))) in Hcopy.
  unfold ExtractImage, WithTempMount.
  generalize dependent (copy_staged destination). intros copy Hcopy.
  unfold defer, call, call_, bind, ret.
  assert (∀ ws e (l : list event),
            Forall (λ ev, ∀ res, ev ≠ EvCreateTempMounts ws res) l →
            EvCreateTempMounts ws (Some e) ∈ l → ∃ id, EvNewID id ∈ l) as Hnone.
  { intros ws e l Hl Hin. rewrite Forall_forall in Hl. by destruct (Hl _ Hin (Some e)). }
  destruct (client_WithLease b) as [[err|] b1]; cbn.
  { split; [|intros ws e; apply Hnone; by repeat constructor].
    right. exists [], (EvWithLease (Some err)), err, []. by repeat split. }
  destruct (client_GetImage (FullName imageRef) b1) as [[img|err] b2]; cbn.
  2:{ split; [|intros ws e; apply Hnone; by repeat constructor].
      right. exists [EvWithLease None], (EvGetImage (FullName imageRef) (Some err)),
               err, [EvLeaseDone].
      repeat split. by repeat constructor. }
  destruct (NewWorkspace b2) as [[ws|err] b3]; cbn.
  2:{ split; [|intros ws e; apply Hnone; by repeat constructor].
      right. exists [EvWithLease None; EvGetImage (FullName imageRef) None],
               (EvNewWorkspace (Some err)), err, [EvLeaseDone].
      repeat split. by repeat constructor. }
  destruct (createTempMounts ws b3) as [[mounts dropped] b4]; cbn.
  destruct (NewID b4) as [id b5]; cbn.
  assert (∀ l : list event,
            ∃ id', EvNewID id'
                   ∈ EvWithLease None :: EvGetImage (FullName imageRef) None
                     :: EvNewWorkspace None :: EvCreateTempMounts ws dropped
                     :: EvNewID id :: l) as Hdrawn.
  { intros l. exists id. do 4 right. left. }
  destruct (session_createSnapshot id img b5) as [[err|] b6]; cbn.
  { split; [|intros; apply Hdrawn].
    right. exists [EvWithLease None; EvGetImage (FullName imageRef) None;
                   EvNewWorkspace None; EvCreateTempMounts ws dropped; EvNewID id],
             (EvCreateSnapshot id (Some err)), err,
             [EvWorkspaceDestroy ws; EvLeaseDone].
    repeat split. by repeat constructor. }
  destruct (session_RunContainer id img mounts _ b6) as [[err|] b7]; cbn.
  { split; [|intros; apply Hdrawn].
    right. exists [EvWithLease None; EvGetImage (FullName imageRef) None;
                   EvNewWorkspace None; EvCreateTempMounts ws dropped; EvNewID id;
                   EvCreateSnapshot id None],
             (EvRunContainer id ["/usr/bin/env"; "bash"; "-c"; "/darch-extract"]
                (Some err)), err,
             [EvDeleteSnapshot id; EvWorkspaceDestroy ws; EvLeaseDone].
    repeat split. by repeat constructor. }
  destruct (snapshotter_Mounts id b7) as [[err|] b8]; cbn.
  { split; [|intros; apply Hdrawn].
    right. exists [EvWithLease None; EvGetImage (FullName imageRef) None;
                   EvNewWorkspace None; EvCreateTempMounts ws dropped; EvNewID id;
                   EvCreateSnapshot id None;
                   EvRunContainer id ["/usr/bin/env"; "bash"; "-c"; "/darch-extract"]
                     None],
             (EvMounts id (Some err)), err,
             [EvDeleteSnapshot id; EvWorkspaceDestroy ws; EvLeaseDone].
    repeat split. by repeat constructor. }
  destruct (temp_mount id b8) as [[[root mount]|err] b9]; cbn.
  2:{ split; [|intros; apply Hdrawn].
      right. exists [EvWithLease None; EvGetImage (FullName imageRef) None;
                     EvNewWorkspace None; EvCreateTempMounts ws dropped; EvNewID id;
                     EvCreateSnapshot id None;
                     EvRunContainer id ["/usr/bin/env"; "bash"; "-c"; "/darch-extract"]
                       None;
                     EvMounts id None],
               (EvTempMount (Some err)), err,
               [EvDeleteSnapshot id; EvWorkspaceDestroy ws; EvLeaseDone].
      repeat split. by repeat constructor. }
  specialize (Hcopy root mount b9).
  destruct (copy root mount b9) as [[r b10] evs].
  cbn [result_of events_of fst snd] in Hcopy.
  destruct Hcopy as (ok & Hok & Hevs).
  assert (∀ r' : option error,
            (match r' with
             | Some _ => λ s : B, (r', s, @nil event)
             | None => λ s : B, (None, s, [])
             end) = λ s : B, (r', s, [])) as Hret by (by intros [?|]).
  rewrite Hret. cbn. rewrite !app_nil_r.
  split; [|intros; apply Hdrawn].
  destruct Hevs as [->|(src & dst & e & -> & ->)].
  - left. rewrite !omap_app. cbn. rewrite !app_nil_r.
    exact (succeeded_copies_errors _ Hok).
  - right.
    exists ([EvWithLease None; EvGetImage (FullName imageRef) None;
             EvNewWorkspace None; EvCreateTempMounts ws dropped; EvNewID id;
             EvCreateSnapshot id None;
             EvRunContainer id ["/usr/bin/env"; "bash"; "-c"; "/darch-extract"]
               None;
             EvMounts id None; EvTempMount None] ++ ok),
           (EvCopyFile src dst (Some e)), e,
           [EvUnmount; EvDeleteSnapshot id; EvWorkspaceDestroy ws; EvLeaseDone].
    split; [cbn; by rewrite <- !app_assoc|].
    split; [by rewrite checked_errors_app, (succeeded_copies_errors _ Hok)|].
    repeat split. by repeat constructor.
Qed.

(** X22. When an extraction through containerd returns [nil], the upper
    layer of the snapshot was mounted, and every entry staged in it (what
    the mount holds at [extract]) that is not a directory was copied to the
    destination joined with its path below the staging path; these are all
    the copies, in the order of the walk, and none of the steps whose error
    the extraction tests failed.  [createTempMounts] may have: its error is
    dropped. *)
Theorem Session_ExtractImage_complete imageRef destination b :
  let out := ExtractImage imageRef destination b in
  result_of out = None →
  ∃ snapshotKey root mount b1 b2,
    temp_mount snapshotKey b1 = (Ok (root, mount), b2)
    ∧ new_ids (events_of out) = [snapshotKey]
    ∧ copies (events_of out)
      = expected_copy (Path.Join root "extract") destination
          <$> entries_below EmptyString (lstat_entry mount "extract")
    ∧ checked_errors (events_of out) = [].
Proof.
  intros out. subst out.
  assert (∀ root mount b',
            let out := copy_staged destination root mount b' in
            new_ids (events_of out) = []
            ∧ (result_of out = None →
               copies (events_of out)
               = expected_copy (Path.Join root "extract") destination
                   <$> entries_below EmptyString (lstat_entry mount "extract"))
            ∧ (checked_errors (events_of out) = []
               ∨ ∃ e, checked_errors (events_of out) = [e] ∧ result_of out = Some e))
    as Hcopy.
  { intros root mount b' out. subst out.
    destruct (walk_copies (Path.Join root "extract") destination
                (lstat_entry mount "extract") EmptyString b') as (_ & Hall & Honly).
    rewrite string_app_empty_r in Hall, Honly.
    apply only_copies_keys in Honly as [Hids _].
    split; [exact Hids|]. split; [exact Hall|].
    apply copy_staged_outcome. }
  cbv zeta in Hcopy. unfold ExtractImage, WithTempMount.
  generalize dependent (copy_staged destination). intros copy Hcopy.
  unfold defer, call, call_, bind, ret.
  destruct (client_WithLease b) as [[err|] b1]; cbn; [done|].
  destruct (client_GetImage (FullName imageRef) b1) as [[img|err] b2]; cbn;
    [|done].
  destruct (NewWorkspace b2) as [[ws|err] b3]; cbn; [|done].
  destruct (createTempMounts ws b3) as [[mounts dropped] b4]; cbn.
  destruct (NewID b4) as [id b5]; cbn.
  destruct (session_createSnapshot id img b5) as [[err|] b6]; cbn; [done|].
  destruct (session_RunContainer id img mounts _ b6) as [[err|] b7]; cbn; [done|].
  destruct (snapshotter_Mounts id b7) as [[err|] b8]; cbn; [done|].
  destruct (temp_mount id b8) as [[[root mount]|err] b9] eqn:Hmount; cbn; [|done].
  specialize (Hcopy root mount b9).
  destruct (copy root mount b9) as [[r b10] evs].
  cbn [result_of events_of fst snd] in Hcopy.
  destruct Hcopy as (Hids & Hcopies & Herrors).
  destruct r as [e0|]; cbn; [done|]. intros _.
  exists id, root, mount, b8, b9. split; [exact Hmount|].
  unfold new_ids, copies, checked_errors in *.
  rewrite !omap_app, Hids, (Hcopies eq_refl). cbn. rewrite !app_nil_r.
  split; [done|]. split; [done|].
  by destruct Herrors as [->|(e & _ & [=])].
Qed.

End ExtractOutcomes.

(** ** The arguments of the docker commands *)

Section DockerArguments.

Import Images.

Lemma env_arguements_passes vars k v :
  (k, v) ∈ vars →
  ∃ pre post, env_arguements vars = pre ++ ["-e"; k +:+ "=" +:+ v] ++ post.
Proof.
  induction vars as [|[k' v'] vars IH]; [by intros ?%elem_of_nil|].
  intros [[= <- <-]|Hin]%elem_of_cons.
  - by exists [], (env_arguements vars).
  - destruct (IH Hin) as (pre & post & Heq).
    exists ("-e" :: (k' +:+ "=" +:+ v') :: pre), post. cbn. by rewrite Heq.
Qed.

(** X24. Every environment variable given to [BuildImageLayer] reaches the
    script: whatever the order in which the map is ranged over, the planned
    command that runs [./script] in the directory of the image carries
    [-e NAME=VALUE] for it, between [exec --privileged] and the name of the
    container. *)
Theorem BuildImageLayer_passes_environment
    (range_env : gmap string string → list (string * string))
    imageDefinition tags buildPrefix packageCache
    (environmentVariables : gmap string string) k v :
  range_env environmentVariables ≡ₚ map_to_list environmentVariables →
  environmentVariables !! k = Some v →
  ∃ pre post,
    ["exec"; "--privileged"] ++ pre ++ ["-e"; k +:+ "=" +:+ v] ++ post
    ++ [BuildImageLayer_tmpImageName imageDefinition; "arch-chroot-custom";
        "/root.x86_64"; "/bin/bash"; "-c";
        "cd /images/" +:+ Name imageDefinition +:+ " && ./script"]
    ∈ BuildImageLayer_steps range_env imageDefinition tags buildPrefix
        packageCache environmentVariables.
Proof.
  intros Hperm Hkv.
  assert ((k, v) ∈ range_env environmentVariables) as Hin.
  { rewrite Hperm. by apply elem_of_map_to_list. }
  destruct (env_arguements_passes _ _ _ Hin) as (pre & post & Heq).
  exists pre, post. unfold BuildImageLayer_steps. rewrite Heq.
  rewrite <- !app_assoc.
  apply elem_of_app. right. apply elem_of_app. right.
  apply elem_of_app. left. by left.
Qed.

Lemma contains_slash_app s t :
  contains_slash (s +:+ t) = contains_slash s || contains_slash t.
Proof.
  induction s as [|c s IH]; [done|].
  change (Ascii.eqb c slash || contains_slash (s +:+ t)
          = Ascii.eqb c slash || contains_slash s || contains_slash t).
  rewrite IH. by destruct (Ascii.eqb c slash).
Qed.

Lemma remove_slashes_clean s : contains_slash (remove_slashes s) = false.
Proof.
  induction s as [|c s IH]; [done|]. cbn [remove_slashes].
  destruct (Ascii.eqb c slash) eqn:Hc; [done|].
  cbn [contains_slash]. by rewrite Hc.
Qed.

(** X25. The name of the container of an extraction holds no ["/"],
    whatever the name of the image, and is the name with its prefix when the
    image name has none. *)
Theorem ExtractImage_container_name_clean name :
  contains_slash (ExtractImage_tmpImageName name) = false
  ∧ (contains_slash name = false →
     ExtractImage_tmpImageName name = "darch-extracting-" +:+ name).
Proof.
  unfold ExtractImage_tmpImageName. split.
  - by rewrite contains_slash_app, remove_slashes_clean.
  - intros Hname. f_equal. induction name as [|c name IH]; [done|].
    cbn [contains_slash remove_slashes] in *.
    destruct (Ascii.eqb c slash); [done|]. by rewrite IH.
Qed.

End DockerArguments.

(** ** The further properties on the sample inputs *)

Section ValidatorSamples.

Import Images Examples.

Lemma ping_pong_follower_well_keyed : well_keyed ping_pong_follower.
Proof.
  unfold well_keyed, ping_pong_follower.
  apply map_Forall_insert_2; [done|]. apply ping_pong_well_keyed.
Qed.

(** Every image of [base] and [child] validates, so the set has no cycle and
    no missing parent. *)
Lemma verifyDependencies_nil_sound_sample :
  acyclic base_and_child ∧ resolvable base_and_child.
Proof.
  apply (verifyDependencies_nil_sound base_and_child).
  - exact base_and_child_well_keyed.
  - intros k d Hd. exists 3. unfold base_and_child in Hd.
    apply lookup_insert_Some in Hd as [[<- <-]|[_ Hd]]; [reflexivity|].
    apply lookup_insert_Some in Hd as [[<- <-]|[_ Hd]]; [reflexivity|].
    by rewrite lookup_empty in Hd.
Defined.

(** The error of [ping] names [pong], which [ping] reaches and which is on
    a cycle. *)
Lemma verifyDependencies_errors_hold_sample :
  error_holds ping_pong "ping" (ErrCyclical "pong").
Proof.
  apply (verifyDependencies_errors_hold ping_pong ping 2).
  - exact ping_pong_well_keyed.
  - reflexivity.
  - reflexivity.
Defined.

(** [follower] is on no cycle and its validation still fails, with an image
    of the cycle of its parent. *)
Lemma verifyDependencies_finds_cycle_sample :
  ∃ n, verifyDependencies 4 follower ping_pong_follower None
       = Some (Some (ErrCyclical n))
       ∧ rtc (inherits_from ping_pong_follower) "follower" n
       ∧ tc (inherits_from ping_pong_follower) n n.
Proof.
  apply (verifyDependencies_finds_cycle ping_pong_follower follower 4).
  - exact ping_pong_follower_well_keyed.
  - reflexivity.
  - exists "ping". split.
    + apply rtc_once. exists follower. by split; [|split].
    + apply (tc_l _ _ "pong").
      * exists ping. by split; [|split].
      * apply tc_once. exists pong. by split; [|split].
  - vm_compute. lia.
Defined.

(** [heir] declares a parent that is there; the parent of its parent is
    not, and that is what its validation reports. *)
Lemma verifyDependencies_finds_missing_parent_sample :
  verifyDependencies 3 heir orphan_and_heir None
  = Some (Some (ErrMissingParent "orphan" "ghost")).
Proof.
  apply (verifyDependencies_finds_missing_parent orphan_and_heir heir 3
           "orphan" "ghost").
  - unfold well_keyed, orphan_and_heir.
    apply map_Forall_insert_2; [done|]. apply map_Forall_insert_2; [done|].
    apply map_Forall_empty.
  - reflexivity.
  - apply rtc_once. exists heir. by split; [|split].
  - exists orphan. by split; [|split].
  - reflexivity.
  - vm_compute. lia.
Defined.

End ValidatorSamples.

Section LoadingSamples.

Import Images Examples.

(** The image directory of [base] and [child]: what is returned has the two
    listed names as keys, the definitions read for them, and both validate. *)
Lemma BuildAllDefinitions_Ok_sample :
  ∃ imageNames,
    disk_GetChildDirectories "/images" = Ok imageNames
    ∧ (∀ k, is_Some (base_and_child !! k) ↔ k ∈ imageNames)
    ∧ (∀ k d, base_and_child !! k = Some d →
              disk_BuildDefinition k "/images" = Ok d)
    ∧ (∀ k d, base_and_child !! k = Some d →
              verifyDependencies 3 d base_and_child None = Some None).
Proof.
  apply (BuildAllDefinitions_Ok disk_ExpandPath Path.Join disk_DirectoryExists
           disk_FileExists disk_GetChildDirectories disk_ReadFile
           disk_json_field map_to_list (λ m, reflexivity (map_to_list m))
           3 "/images" base_and_child).
  vm_compute. reflexivity.
Defined.

(** With [bare] listed between [base] and [child], the error of [bare] is
    the result. *)
Lemma BuildAllDefinitions_first_failure_sample :
  BuildAllDefinitions disk_ExpandPath Path.Join disk_DirectoryExists
    disk_FileExists bare_GetChildDirectories disk_ReadFile disk_json_field
    map_to_list 0 "/images"
  = Some (Err (ErrNoInherit "bare")).
Proof.
  apply (BuildAllDefinitions_first_failure disk_ExpandPath Path.Join
           disk_DirectoryExists disk_FileExists bare_GetChildDirectories
           disk_ReadFile disk_json_field map_to_list
           0 "/images" ["base"] "bare" ["child"]).
  - reflexivity.
  - reflexivity.
  - apply Forall_cons. split; [|apply Forall_nil_2].
    exists base. vm_compute. reflexivity.
  - vm_compute. reflexivity.
Defined.

(** Three invocations are enough for the directory of [base] and [child]. *)
Lemma BuildAllDefinitions_returns_sample :
  is_Some (BuildAllDefinitions disk_ExpandPath Path.Join disk_DirectoryExists
             disk_FileExists disk_GetChildDirectories disk_ReadFile
             disk_json_field map_to_list 3 "/images").
Proof.
  apply (BuildAllDefinitions_returns disk_ExpandPath Path.Join
           disk_DirectoryExists disk_FileExists disk_GetChildDirectories
           disk_ReadFile disk_json_field map_to_list
           (λ m, reflexivity (map_to_list m)) 3 "/images").
  intros imageNames Hnames. vm_compute in Hnames.
  injection Hnames as <-. cbn. lia.
Defined.

(** [ping] and [pong] load; the error returned for them is a cycle that an
    image of the map leads to. *)
Lemma BuildAllDefinitions_validation_error_sample :
  ∃ k, is_Some (ping_pong !! k) ∧ error_holds ping_pong k (ErrCyclical "ping").
Proof.
  apply (BuildAllDefinitions_validation_error disk_ExpandPath Path.Join
           loop_exists loop_exists loop_GetChildDirectories loop_ReadFile
           disk_json_field map_to_list (λ m, reflexivity (map_to_list m))
           3 "/images" ["ping"; "pong"]).
  - reflexivity.
  - reflexivity.
  - vm_compute. reflexivity.
  - vm_compute. reflexivity.
Defined.

End LoadingSamples.

Section OutcomeSamples.

Import Images Examples.

(** After the extraction into the populated [/out], the three artifacts are
    there, and every other path holds nothing inside [/out] and what it held
    outside. *)
Lemma ExtractImage_artifacts_sample :
  (∀ t, t ∈ ["/out/rootfs.squash"; "/out/vmlinuz-linux"; "/out/initramfs-linux.img"] →
        is_Some (files (state_of extraction) !! t))
  ∧ (∀ p, p ∉ ["/out/rootfs.squash"; "/out/vmlinuz-linux";
               "/out/initramfs-linux.img"] →
          files (state_of extraction) !! p
          = if host_inside "/out" p then None else files used_host !! p).
Proof.
  apply (ExtractImage_artifacts (host_exec_Run never) host_docker_cp
           host_no_fault host_no_fault host_inside Path.Join
           "godarch/base" "latest" "/out" used_host).
  vm_compute. reflexivity.
Defined.



(** An extraction on the backend on which [createTempMounts] fails and
    nothing else does: it returns [nil], and the three staged entries are
    copied under the first identifier drawn. *)
Lemma Session_ExtractImage_complete_sample :
  (∃ snapshotKey root mount b1 b2,
     @Repository.temp_mount nat mountless_backend snapshotKey b1
     = (Ok (root, mount), b2)
     ∧ Repository.new_ids (events_of mountless_extraction) = [snapshotKey]
     ∧ Repository.copies (events_of mountless_extraction)
       = Repository.expected_copy (Path.Join root "extract") "/tmp/out"
           <$> Repository.entries_below EmptyString
                 (Repository.lstat_entry mount "extract")
     ∧ Repository.checked_errors (events_of mountless_extraction) = [])
  ∧ result_of mountless_extraction = None
  ∧ Repository.EvCreateTempMounts "/tmp/workspace" (Some no_mounts)
    ∈ events_of mountless_extraction.
Proof.
  split; [|split].
  - apply (@Session_ExtractImage_complete nat mountless_backend
             (Repository.mkImageRef "godarch/base:latest") "/tmp/out" 0).
    vm_compute. reflexivity.
  - vm_compute. reflexivity.
  - apply (bool_decide_unpack _). by vm_compute.
Defined.

(** [LANG=C] is among the arguments of the script of [child]. *)
Lemma BuildImageLayer_passes_environment_sample :
  ∃ pre post,
    ["exec"; "--privileged"] ++ pre ++ ["-e"; "LANG" +:+ "=" +:+ "C"] ++ post
    ++ [BuildImageLayer_tmpImageName child; "arch-chroot-custom";
        "/root.x86_64"; "/bin/bash"; "-c";
        "cd /images/" +:+ Name child +:+ " && ./script"]
    ∈ BuildImageLayer_steps host_range_env child [] "darch-" EmptyString locale.
Proof.
  apply (BuildImageLayer_passes_environment host_range_env child [] "darch-"
           EmptyString locale "LANG" "C").
  - reflexivity.
  - reflexivity.
Defined.

(** The parents of the destination are made with it. *)
Remark ExtractImage_makes_parents :
  result_of deep_extraction = None
  ∧ "/tmp/a" ∈ dirs (state_of deep_extraction)
  ∧ "/tmp/a/b" ∈ dirs (state_of deep_extraction).
Proof.
  split; [vm_compute; reflexivity|].
  split; apply (bool_decide_unpack _); by vm_compute.
Qed.

End OutcomeSamples.
